(** * MuonTrackProducer: Hough line finder, endpoint matching and track
    assembly (sbndcode/Commissioning/MuonTrackProducer_module.cc)

    A shallow embedding of the producer module.  C++ [int] values are
    integers of [Z]; positions inside a [std::vector] are [nat].  A
    [vector<vector<int>>] is a [list (list Z)]: a bucket point is the
    three-element vector [{wire, peakT, hit index}], a Hough line the
    ten-element vector built at line 388, and [clear()] leaves the empty
    list at the same position.  Coordinates of [geo::Point_t] (doubles)
    are rationals. *)

From Stdlib Require Import ZArith QArith Qabs Lia.
From stdpp Require Import base numbers list strings gmap.

Open Scope Z_scope.

(** ** Faults

    [vector::at] throws [std::out_of_range]; [operator[]] and plain array
    indexing outside the object are undefined behaviour.  Both stop the
    computation; the model keeps them apart. *)

Inductive fault : Type :=
| OutOfRange   (* exception thrown by vector::at *)
| Undefined.   (* unchecked access outside a vector or an array *)

Inductive res (A : Type) : Type :=
| Ok (a : A)
| Fault (f : fault).

Arguments Ok {A} a.
Arguments Fault {A} f.

#[global] Instance res_ret : MRet res := @Ok.

#[global] Instance res_bind : MBind res :=
  λ A B f m, match m with Ok a => f a | Fault e => Fault e end.

(** [v.at(i)] *)
Definition at_ {A} (v : list A) (i : nat) : res A :=
  match v !! i with Some a => Ok a | None => Fault OutOfRange end.

(** [v[i]] *)
Definition idx_ {A} (v : list A) (i : nat) : res A :=
  match v !! i with Some a => Ok a | None => Fault Undefined end.

(** [(v.at(i)).clear()] on a vector of vectors *)
Definition at_clear {A} (v : list (list A)) (i : nat) : res (list (list A)) :=
  match v !! i with
  | Some _ => Ok (<[i := []]> v)
  | None => Fault OutOfRange
  end.

(** [v.empty()] *)
Definition empty {A} (v : list A) : bool :=
  match v with [] => true | _ => false end.

(** The reads [p[0], p[1]] and [p[0], p[1], p[2]] of a point. *)
Definition point2 (p : list Z) : res (Z * Z) :=
  match p with
  | x :: y :: _ => Ok (x, y)
  | _ => Fault Undefined
  end.

Definition point3 (p : list Z) : res (Z * Z * Z) :=
  match p with
  | x :: y :: i :: _ => Ok (x, y, i)
  | _ => Fault Undefined
  end.

(** ** 32-bit wrap-around

    Only one place of the module can leave the 32-bit range on detector
    data: the predicted time [y_val] when the line is vertical (see
    [y_line]).  The arithmetic on [y_val] is written with its wrap-around;
    all other [int] arithmetic is plain [Z]. *)

Definition int_min : Z := - 2 ^ 31.

Definition int32 (z : Z) : Z := (z + 2 ^ 31) mod 2 ^ 32 - 2 ^ 31.

(** ** Trigonometry

    [PI] is the macro [3.14159265].  [cos_tab] and [sin_tab] hold, for
    [j = 0 .. 179], the binary64 values of [cos(j*PI/180)] and
    [sin(j*PI/180)] as exact numerators over [trig_den = 2^82].  Products
    and sums are then exact, where the C++ rounds each of them to
    binary64. *)

Definition trig_den : Z := 2 ^ 82.

Definition cos_tab : list Z :=
  [4835703278458516698824704; 4834966777428635939766272; 4832757498684341015805952;
   4829076115193337835683840; 4823923748340697980207104; 4817301967587272437006336;
   4809212789991621475172352; 4799658679595596488114176; 4788642546673769762521088;
   4776167746846938196082688; 4762238080059965641326592; 4746857789424285998120960;
   4730031559925407967870976; 4711764516995824659464192; 4692062224953756469952512;
   4670930685308206128824320; 4648376334930841301942272; 4624406044095259342798848;
   4599027114384237633994752; 4572247276465600342261760; 4544074687737380191862784;
   4514517929842998958358528; 4483586006057212396437504; 4451288338543629203144704;
   4417634765484625965875200; 4382635538084542321524736; 4346301317447065249251328;
   4308643171327753295233024; 4269672570762690182512640; 4229401386574298061209600;
   4187841885755368571666432; 4145006727732417674608640; 4100908960509502951522304;
   4055562016693674827579392; 4008979709403273971630080; 3961176228060320413777920;
   3912166134068281796984832; 3861964356376524822151168; 3810586186932815149400064;
   3758047276025241218842624; 3704363627514984698740736; 3649551593961389260013568;
   3593627871640813735772160; 3536609495460783104983040; 3478513833770991004680192;
   3419358583072734855561216; 3359161762628383476285440; 3297941708972543096913920;
   3235717070326567280836608; 3172506800918126594621440; 3108330155207572655702016;
   3043206682022834945916928; 2977156218604666088325120; 2910198884564023367434240;
   2842355075753438697488384; 2773645458054246423330816; 2704090961081553907613696;
   2633712771808881197187072; 2562532328114400893337600; 2490571312250752837091328;
   2417851644240420031954944; 2344395475198680412192768; 2270225180586158459977728;
   2195363353393045235040256; 2119832797257053501390848; 2043656519517212216655872;
   1966857724205602502082560; 1889459804979192508973056; 1811486337993890747908096;
   1732961074723035962933248; 1653907934722454928228352; 1574350998344344904138752;
   1494314499402152395407360; 1413822817788733671079936; 1332900472049990700630016;
   1251572111916293198708736; 1169862510793925932875776; 1087796558218872657805312;
   1005399252275220122173440; 922695691980504383356928; 839711069640299653365760;
   756470663174403318087680; 672999828416934801571840; 589323991392702118756352;
   505468640572192845725696; 421459319107531472633856; 337321617051796241383424;
   253081163564033977090048; 168763619102372927635456; 84394667607601950228480;
   8679588035438131; (-84394650251071919751168); (-168763601753773738819584);
   (-253081146228650201317376); (-337321599734908406726656); (-421459301814415476654080);
   (-505468623308114318327808); (-589323974162920851374080); (-672999811226699177132032);
   (-756470646028948633288704); (-839711052544849527963648); (-922695674940267270504448);
   (-1005399235295385818759168); (-1087796541304613243977728); (-1169862493950393624559616);
   (-1251572095148619810734080); (-1332900455363282814894080); (-1413822801188072233893888);
   (-1494314482892596878245888); (-1574350981930922566221824); (-1653907918410167258972160);
   (-1732961058516850897321984); (-1811486321898744813977600); (-1889459788999988680327168);
   (-1966857708347209124151296); (-2043656503784457906421760); (-2119832781654731173920768);
   (-2195363337925907003211776); (-2270225165258916708220928); (-2344395460016003769958400);
   (-2417851629206935252762624); (-2490571297371036745465856); (-2562532313392986558824448);
   (-2633712757250253102514176); (-2704090946690146069643264); (-2773645443834442393059328);
   (-2842355061709571023175680); (-2910198870700371447119872); (-2977156204925450801119232);
   (-3043206668532222946967552); (-3108330141909673691840512); (-3172506787816991893749760);
   (-3235717057426187941314560); (-3297941696276846329462784); (-3359161750141237435826176);
   (-3419358570797944883118080); (-3478513821712295869284352); (-3536609483621854466801664);
   (-3593627860025258830462976); (-3649551582572747140628480); (-3704363616356723551371264);
   (-3758047265100758362619904); (-3810586176245439720849408); (-3861964345929513480224768);
   (-3912166123864815501836288); (-3961176218103507111116800); (-4008979699696146445238272);
   (-4055562007239192309923840); (-4100908951310543070691328); (-4145006718791782359891968);
   (-4187841877075781906071552); (-4229401378158403597107200); (-4269672562613051478507520);
   (-4308643163446852842422272); (-4346301309837303934353408); (-4382635530748238890008576);
   (-4417634758424014337605632); (-4451288331760860082995200); (-4483585999554351663677440);
   (-4514517923622027129782272); (-4544074681800192958660608); (-4572247270814005885665280);
   (-4599027109019957699018752); (-4624406039019927627628544); (-4648376330146003994804224);
   (-4670930680815320834244608); (-4692062220754192208756736); (-4711764513090859721293824);
   (-4730031556316232595537920); (-4746857786111999166382080); (-4762238077045577204367360);
   (-4776167744131365129420800); (-4788642544257839921102848); (-4799658677480045385089024);
   (-4809212788177093892505600); (-4817301966074320814866432); (-4823923747129782953836544);
   (-4829076114284828772270080); (-4832757498078514403868672); (-4834966777125676462899200)].

Definition sin_tab : list Z :=
  [0; 84394658929337245368320; 168763610428073937207296;
   253081154896341921431552; 337321608393352424718336; 421459310460973373980672;
   505468631940153280036864; 589323982777811417956352; 672999819821816184045568;
   756470654601675975688192; 839711061092574926209024; 922695683460385961148416;
   1005399243785303373119488; 1087796549761742481129472; 1169862502372159711608832;
   1251572103532456370503680; 1332900463706636623544320; 1413822809488403355140096;
   1494314491147374771044352; 1574350990137633332527104; 1653907926566311496253440;
   1732961066619943161692160; 1811486329946318183596032; 1889459796989589655126016;
   1966857716276406215770112; 2043656511650834927321088; 2119832789455892606091264;
   2195363345659476119126016; 2270225172922537986752512; 2344395467607342627946496;
   2417851636723677508141056; 2490571304810894522843136; 2562532320753693994516480;
   2633712764529567686721536; 2704090953885850525499392; 2773645450944344676630528;
   2842355068731505397202944; 2910198877632197407277056; 2977156211765058444722176;
   3043206675277529214877696; 3108330148558622905335808; 3172506794367559512621056;
   3235717063876376805769216; 3297941702624695250059264; 3359161756384810992926720;
   3419358576935339332468736; 3478513827741643436982272; 3536609489541318517456896;
   3593627865833036551553024; 3649551588267067931885568; 3704363621935853319749632;
   3758047270563000059166720; 3810586181589127971995648; 3861964351153019419623424;
   3912166128966548917846016; 3961176223081913762447360; 4008979704549710208434176;
   4055562011966433568751616; 4100908955910023011106816; 4145006723262099748814848;
   4187841881415575238868992; 4229401382366351097593856; 4269672566687870562074624;
   4308643167387302800392192; 4346301313642184860237824; 4382635534416390605766656;
   4417634761954320151740416; 4451288335152244106199040; 4483586002805782030057472;
   4514517926732512775634944; 4544074684768786843697152; 4572247273639802845528064;
   4599027111702097666506752; 4624406041557593485213696; 4648376332538422648373248;
   4670930683061763749969920; 4692062222853974339354624; 4711764515043342190379008;
   4730031558120820550139904; 4746857787768142850686976; 4762238078552771422846976;
   4776167745489151394316288; 4788642545465804841811968; 4799658678537820668166144;
   4809212789084357415403520; 4817301966830796625936384; 4823923747735240735457280;
   4829076114739083303976960; 4832757498381427709837312; 4834966777277156201332736;
   4835703278458516698824704; 4834966777580115678199808; 4832757498987254321774592;
   4829076115647592367390720; 4823923748946155224956928; 4817301968343748248076288;
   4809212790898885534941184; 4799658680653371771191296; 4788642547881734683230208;
   4776167748204724997849088; 4762238081567160396677120; 4746857791080429145554944;
   4730031561729995385602048; 4711764518948306591678464; 4692062227053538600550400;
   4670930687554648507678720; 4648376337323259418640384; 4624406046632925200384000;
   4599027117066377601482752; 4572247279291397302124544; 4544074690705974076899328;
   4514517932953484604211200; 4483586009308643299688448; 4451288341935013763219456;
   4417634769014931780009984; 4382635541752694574153728; 4346301321251946175135744;
   4308643175268203253202944; 4269672574837509802950656; 4229401390782246098567168;
   4187841890095161367592960; 4145006732202735063531520; 4100908965108983428808704;
   4055562021420917160148992; 4008979714256837734825984; 3961176233038727601979392;
   3912166139170015749865472; 3861964361600030224678912; 3810586192276502326804480;
   3758047281487482378518528; 3704363633094115540860928; 3649551599655711125012480;
   3593627877448589846249472; 3536609501380247692509184; 3478513839800339646119936;
   3419358589210128768040960; 3359161768871955422773248; 3297941715320391480639488;
   3235717076776757755904000; 3172506807468693676621824; 3108330161856520795455488;
   3043206688768141750697984; 2977156225444275342540800; 2910198891495849864462336;
   2842355082775371997773824; 2773645465164147633160192; 2704090968277258363469824;
   2633712779088194707652608; 2562532335475107255287808; 2490571319690610077597696;
   2417851651757162555768832; 2344395482790018196439040; 2270225188249778933202944;
   2195363361126613814083584; 2119832805058215470432256; 2043656527383588432248832;
   1966857732134799862136832; 1889459812968793215336448; 1811486346041463580655616;
   1732961082826128495738880; 1653907942878599702380544; 1574351006551055670444032;
   1494314507656931093512192; 1413822826089065060761600; 1332900480393347193634816;
   1251572120300132442832896; 1169862519215692019924992; 1087796566676002297610240;
   1005399260765138347622400; 922695700500623879307264; 839711078188023172562944;
   756470671747129049874432; 672999837012051540049920; 589324000007592752447488;
   505468649204232142979072; 421459327754088900198400; 337321625710239051415552;
   253081172231724791234560; 168763627776672522043392; 84394676285864826372096].

Definition cos_num (j : Z) : Z := nth (Z.to_nat j) cos_tab 0.
Definition sin_num (j : Z) : Z := nth (Z.to_nat j) sin_tab 0.

(** [round(n/d)] for [d > 0]: nearest integer, halves away from zero. *)
Definition round_div (n d : Z) : Z :=
  if 0 <=? n then (2 * n + d) / (2 * d)
  else - ((2 * (- n) + d) / (2 * d)).

(** ** Hough: constants (lines 295-297) *)

Definition h : Z := 3500.
Definition w : Z := 2000.
Definition accu_h : Z := h + w + 1.
Definition accu_w : Z := 180.
Definition x_c : Z := w / 2.
Definition y_c : Z := h / 2.

(** [int(round((x-x_c)*cos(j*PI/accu_w) + (y-y_c)*sin(j*PI/accu_w)))] *)
Definition rho_of (x y j : Z) : Z :=
  round_div ((x - x_c) * cos_num j + (y - y_c) * sin_num j) trig_den.

(** [int(round((rho - (x1 - x_c)*cos(theta*PI/180.0))/sin(theta*PI/180.0) + y_c))]

    For [theta = 0] the sine is [0.0] and the quotient is infinite or NaN;
    its conversion to [int] is undefined in C++ and yields [INT_MIN] on
    x86-64, which the model takes. *)
Definition y_line (rho theta x1 : Z) : Z :=
  if sin_num theta =? 0 then int_min
  else round_div (rho * trig_den - (x1 - x_c) * cos_num theta
                  + y_c * sin_num theta) (sin_num theta).

(** [abs(y_val-y1) <= range] (line 356) *)
Definition in_range (rho theta range x1 y1 : Z) : bool :=
  let y_val := y_line rho theta x1 in
  int32 (Z.abs (int32 (y_val - y1))) <=? range.

(** [y1 >= (y_val-range) && y1 <= (y_val+range)] (line 374) *)
Definition in_corridor (rho theta range x1 y1 : Z) : bool :=
  let y_val := y_line rho theta x1 in
  (int32 (y_val - range) <=? y1) && (y1 <=? int32 (y_val + range)).

(** ** The accumulator

    [int accu[accu_h][accu_w]], zero-initialised, addressed through
    [adata = &accu[(accu_h-1)/2]]: [adata[r][j]] is inside the array when
    [-(accu_h-1)/2 <= r <= (accu_h-1)/2] and [0 <= j < accu_w]. *)

Definition accumulator : Type := Z → Z → Z.

Definition accu_zero : accumulator := λ _ _, 0.

Definition in_accu (r j : Z) : bool :=
  (- ((accu_h - 1) / 2) <=? r) && (r <=? (accu_h - 1) / 2)
  && (0 <=? j) && (j <? accu_w).

Definition accu_add (a : accumulator) (r j d : Z) : accumulator :=
  λ r' j', if (r' =? r) && (j' =? j) then a r' j' + d else a r' j'.

(** State of the loop over angles (lines 321-329). *)
Record VoteState : Type := mkVote {
  v_accu : accumulator;
  v_max_val : Z;
  v_rho : Z;
  v_theta : Z
}.

Definition vote_step (x y : Z) (vs : VoteState) (j : Z) : res VoteState :=
  let r := rho_of x y j in
  if in_accu r j then
    let val := v_accu vs r j + 1 in
    let a' := accu_add (v_accu vs) r j 1 in
    if v_max_val vs <? val
    then Ok (mkVote a' val r (j * 180 / accu_w))
    else Ok (mkVote a' (v_max_val vs) (v_rho vs) (v_theta vs))
  else Fault Undefined.

Fixpoint vote_loop (x y : Z) (js : list Z) (vs : VoteState) : res VoteState :=
  match js with
  | [] => Ok vs
  | j :: js' => vs' ← vote_step x y vs j; vote_loop x y js' vs'
  end.

(** State of the corridor walk in one direction: [endpoint[k]] and the
    vectors the walk writes. *)
Record WalkState : Type := mkWalk {
  w_endpoint : Z * Z * Z * Z;
  w_coords : list (list Z);
  w_data : list (list Z);
  w_lines_idx : list Z
}.

(** The [while (gap < max_gap)] loop of lines 340-367 for one [k].
    [positions] are the values [idx+i] takes before the edge test at
    line 342 breaks the loop. *)
Fixpoint walk (max_gap range rho theta : Z) (save_hits : bool)
    (positions : list nat) (gap : Z) (ws : WalkState) : res WalkState :=
  if gap <? max_gap then
    match positions with
    | [] => Ok ws
    | p :: rest =>
      pt ← at_ (w_data ws) p;
      if empty pt then walk max_gap range rho theta save_hits rest gap ws
      else
        '(x1, y1, wire_idx) ← point3 pt;
        let '(last_x, _, _, _) := w_endpoint ws in
        if negb (last_x =? 0) && (Z.abs (last_x - x1) >? 30) then Ok ws
        else if in_range rho theta range x1 y1 then
          coords' ← at_clear (w_coords ws) p;
          data' ← at_clear (w_data ws) p;
          walk max_gap range rho theta save_hits rest 0
            (mkWalk (x1, y1, wire_idx, Z.of_nat p) coords' data'
               (if save_hits then w_lines_idx ws ++ [wire_idx]
                else w_lines_idx ws))
        else walk max_gap range rho theta save_hits rest (gap + 1) ws
    end
  else Ok ws.

(** The inner loop of the unvote (lines 375-378). *)
Fixpoint unvote_point (x1 y1 : Z) (ms : list Z) (a : accumulator)
    : res accumulator :=
  match ms with
  | [] => Ok a
  | m :: ms' =>
    let r := rho_of x1 y1 m in
    if in_accu r m then unvote_point x1 y1 ms' (accu_add a r m (-1))
    else Fault Undefined
  end.

(** The unvote loop (lines 371-381) runs from the last element of
    [deaccu] to the first and erases in place: the tail is handled
    before the head. *)
Fixpoint unvote_loop (rho theta range : Z) (d : list (list Z))
    (a : accumulator) : res (list (list Z) * accumulator) :=
  match d with
  | [] => Ok ([], a)
  | p :: rest =>
    '(rest', a') ← unvote_loop rho theta range rest a;
    '(x1, y1) ← point2 p;
    if in_corridor rho theta range x1 y1 then
      a'' ← unvote_point x1 y1 (seqZ 0 accu_w) a';
      Ok (rest', a'')
    else Ok (p :: rest', a')
  end.

(** Local variables of [Hough] that live across the point loop. *)
Record HoughLocals : Type := mkLocals {
  accu : accumulator;
  coords : list (list Z);
  data : list (list Z);
  deaccu : list (list Z);
  outlines : list (list Z);
  outhit_idx : list (list Z)
}.

Definition Hough_init (coords0 : list (list Z)) : HoughLocals :=
  mkLocals accu_zero coords0 coords0 [] [] [].

Section Producer.

(** [TRandom3 rndgen] is built afresh, with its default seed, by every
    call of [Hough]: the index drawn depends on the number of the draw
    and on [count] only.  [Uniform n count] is the value of
    [int(rndgen.Uniform(count))] at draw number [n]. *)
Variable Uniform : nat → nat → nat.

(** One iteration of the point loop (body of lines 312-395). *)
Definition Hough_iter (threshold max_gap range : Z) (save_hits : bool)
    (count : nat) (st : HoughLocals) : res HoughLocals :=
  let idx := Uniform (length (coords st) - count) count in
  let max_val := threshold - 1 in
  pt ← at_ (coords st) idx;
  if empty pt then Ok st
  else
    '(x, y) ← point2 pt;
    let deaccu1 := deaccu st ++ [[x; y]] in
    vs ← vote_loop x y (seqZ 0 accu_w) (mkVote (accu st) max_val 0 0);
    if v_max_val vs <? threshold then
      coords' ← at_clear (coords st) idx;
      Ok (mkLocals (v_accu vs) coords' (data st) deaccu1
            (outlines st) (outhit_idx st))
    else
      let rho := v_rho vs in
      let theta := v_theta vs in
      w0 ← walk max_gap range rho theta save_hits
             (seq (S idx) (length (data st) - S idx)) 0
             (mkWalk (0, 0, 0, 0) (coords st) (data st) []);
      w1 ← walk max_gap range rho theta save_hits
             (reverse (seq 0 idx)) 0
             (mkWalk (0, 0, 0, 0) (w_coords w0) (w_data w0)
                (w_lines_idx w0));
      '(deaccu2, accu2) ← unvote_loop rho theta range deaccu1 (v_accu vs);
      let '(x0_end, y0_end, wire0_end, idx0_end) := w_endpoint w0 in
      let '(x1_end, y1_end, wire1_end, idx1_end) := w_endpoint w1 in
      if ((x0_end =? 0) && (y0_end =? 0)) || ((x1_end =? 0) && (y1_end =? 0))
      then Ok (mkLocals accu2 (w_coords w1) (w_data w1) deaccu2
                 (outlines st) (outhit_idx st))
      else
        let outline := [x0_end; y0_end; x1_end; y1_end; wire0_end;
                        wire1_end; idx0_end; idx1_end; rho; theta] in
        Ok (mkLocals accu2 (w_coords w1) (w_data w1) deaccu2
              (outlines st ++ [outline])
              (if save_hits then outhit_idx st ++ [w_lines_idx w1]
               else outhit_idx st)).

(** [for ( ; count>0; count--)] *)
Fixpoint Hough_loop (threshold max_gap range : Z) (save_hits : bool)
    (count : nat) (st : HoughLocals) : res HoughLocals :=
  match count with
  | O => Ok st
  | S c =>
    st' ← Hough_iter threshold max_gap range save_hits (S c) st;
    Hough_loop threshold max_gap range save_hits c st'
  end.

(** *** Merge pass (lines 397-451) *)

Definition var : Z := 100.
Definition rho_var : Z := 30.
Definition theta_var : Z := 20.

(** [(a < (b + v)) && (a > (b - v))] *)
Definition within (a b v : Z) : bool := (a <? b + v) && (a >? b - v).

(** The value of [counter] at line 419. *)
Definition counter (xi yi xj yj rhoi rhoj thetai thetaj : Z) : Z :=
  (if within xi xj var then 1 else 0)
  + (if within yi yj var then 1 else 0)
  + (if within rhoi rhoj rho_var then 1 else 0)
  + (if within thetai thetaj theta_var then 1 else 0).

(** The pairs [(k, l)] in the order the two inner loops visit them. *)
Definition kl_order : list (nat * nat) := [(0, 0); (0, 1); (1, 0); (1, 1)]%nat.

(** [a[k]] for the two-element arrays [xi_coords] ... [yj_coords]. *)
Definition pick (a0 a1 : Z) (k : nat) : Z :=
  match k with O => a0 | _ => a1 end.

(** The assignments of lines 420-439 on [outlines[j]].  The positions
    written exist: the reads of positions 8 and 9 of the same line at
    lines 402-403 come first. *)
Definition merge_write (k l : nat) (xi0 yi0 xi1 yi1 : Z) (lj : list Z)
    : list Z :=
  match k, l with
  | O, O => <[3%nat := yi0]> (<[2%nat := xi0]> lj)
  | O, _ => <[1%nat := yi0]> (<[0%nat := xi0]> lj)
  | _, O => <[3%nat := yi1]> (<[2%nat := xi1]> lj)
  | _, _ => <[1%nat := yi1]> (<[0%nat := xi1]> lj)
  end.

(** Body of the [j] loop for one pair [(i, j)]; the boolean is [same]. *)
Definition merge_ij (save_hits : bool) (i j : nat)
    (st : list (list Z) * list (list Z))
    : res (bool * (list (list Z) * list (list Z))) :=
  let '(ol, oh) := st in
  li ← idx_ ol i;
  lj ← idx_ ol j;
  xi0 ← idx_ li 0%nat; xi1 ← idx_ li 2%nat;
  xj0 ← idx_ lj 0%nat; xj1 ← idx_ lj 2%nat;
  yi0 ← idx_ li 1%nat; yi1 ← idx_ li 3%nat;
  yj0 ← idx_ lj 1%nat; yj1 ← idx_ lj 3%nat;
  rhoi ← idx_ li 8%nat; rhoj ← idx_ lj 8%nat;
  thetai ← idx_ li 9%nat; thetaj ← idx_ lj 9%nat;
  match List.find
          (λ kl : nat * nat,
             3 <=? counter (pick xi0 xi1 kl.1) (pick yi0 yi1 kl.1)
                           (pick xj0 xj1 kl.2) (pick yj0 yj1 kl.2)
                           rhoi rhoj thetai thetaj)
          kl_order with
  | None => Ok (false, st)
  | Some (k, l) =>
    let ol1 := <[j := merge_write k l xi0 yi0 xi1 yi1 lj]> ol in
    ol2 ← at_clear ol1 i;
    if save_hits then
      hj ← at_ oh j;
      hi ← at_ oh i;
      oh2 ← at_clear (<[j := hj ++ hi]> oh) i;
      Ok (true, (ol2, oh2))
    else Ok (true, (ol2, oh))
  end.

(** [for (j=i+1; j<size && same == false; j++)] *)
Fixpoint merge_j (save_hits : bool) (i : nat) (js : list nat)
    (st : list (list Z) * list (list Z))
    : res (list (list Z) * list (list Z)) :=
  match js with
  | [] => Ok st
  | j :: js' =>
    '(same, st') ← merge_ij save_hits i j st;
    if (same : bool) then Ok st' else merge_j save_hits i js' st'
  end.

(** [for (i=0; i<size; i++)] *)
Fixpoint merge_i (save_hits : bool) (ns : list nat)
    (st : list (list Z) * list (list Z))
    : res (list (list Z) * list (list Z)) :=
  match ns with
  | [] => Ok st
  | i :: ns' =>
    st' ← merge_j save_hits i
            (seq (S i) (length st.1 - S i)) st;
    merge_i save_hits ns' st'
  end.

Definition merge_pass (save_hits : bool)
    (st : list (list Z) * list (list Z))
    : res (list (list Z) * list (list Z)) :=
  merge_i save_hits (seq 0 (length st.1)) st.

(** *** Length filter (lines 453-473) *)

(** [Distance] (lines 280-282) computes in [double] and returns a
    [float], which line 467 compares with the [int] [min_length].  The
    values are non-negative and far from the ends of the exponent ranges,
    so a binary floating-point number is kept as the number it stands
    for, and rounding to [p] significant bits (to nearest, ties to even)
    is written out on integers. *)

(** The integer [n >= 0] rounded to [p] significant bits. *)
Definition round_bits (p n : Z) : Z :=
  if n <? 2 ^ p then n
  else
    let e := Z.log2 n - p + 1 in
    let q := n / 2 ^ e in
    let r := n mod 2 ^ e in
    let half := 2 ^ (e - 1) in
    if (r <? half) || ((r =? half) && Z.even q) then q * 2 ^ e
    else (q + 1) * 2 ^ e.

(** [(float) n] for an [int] [n]. *)
Definition to_float (n : Z) : Z := Z.sgn n * round_bits 24 (Z.abs n).

(** [pow(d, 2)] on the [double] of the [int] [d]: the square rounded to
    binary64 (exact below [2^26]; [pow] is taken as correctly rounded
    above). *)
Definition pow2_double (d : Z) : Z := round_bits 53 (d * d).

(** [sqrt] of [<cmath>] on a [double] [s >= 0] that is an integer: the
    binary64 number nearest to the square root, times [2^53].  With
    [q0] the integer part of [sqrt s * 2^53], which has 54 bits or more,
    the two neighbours are [q * 2^e] and [(q+1) * 2^e], and the root is
    compared with their midpoint through the squares. *)
Definition sqrt_double (s : Z) : Z :=
  if s <=? 0 then 0
  else
    let n := s * 2 ^ 106 in
    let q0 := Z.sqrt n in
    let e := Z.log2 q0 - 52 in
    let q := q0 / 2 ^ e in
    let mid := q * 2 ^ e + 2 ^ (e - 1) in
    if (n <? mid * mid) || ((n =? mid * mid) && Z.even q) then q * 2 ^ e
    else (q + 1) * 2 ^ e.

(** [float Distance(int x1, int y1, int x2, int y2)]: the sum of the two
    squares in [double], its square root in [double], narrowed to
    [float] by the [return]. *)
Definition Distance (x1 y1 x2 y2 : Z) : Q :=
  let sum := round_bits 53 (pow2_double (x2 - x1) + pow2_double (y2 - y1)) in
  Qmake (round_bits 24 (sqrt_double sum)) (2 ^ 53)%positive.

(** [length > min_length] of line 467: the [int] is converted to
    [float]. *)
Definition Distance_gt (x1 y1 x2 y2 min_length : Z) : bool :=
  negb (Qle_bool (Distance x1 y1 x2 y2) (inject_Z (to_float min_length))).

Definition filter_step (min_length muon_length : Z) (save_hits : bool)
    (ol oh : list (list Z)) (out : list (list Z) * list (list Z)) (i : nat)
    : res (list (list Z) * list (list Z)) :=
  let '(lines, hit_idx) := out in
  li ← at_ ol i;
  if empty li then Ok out
  else
    x0_end ← idx_ li 0%nat; y0_end ← idx_ li 1%nat;
    x1_end ← idx_ li 2%nat; y1_end ← idx_ li 3%nat;
    let keep :=
      if negb (muon_length =? 0) then Z.abs (y0_end - y1_end) >? muon_length
      else Distance_gt x0_end y0_end x1_end y1_end min_length in
    if keep then
      if save_hits then
        hi ← at_ oh i;
        Ok (lines ++ [li], hit_idx ++ [hi])
      else Ok (lines ++ [li], hit_idx)
    else Ok out.

Fixpoint filter_loop (min_length muon_length : Z) (save_hits : bool)
    (ol oh : list (list Z)) (ns : list nat)
    (out : list (list Z) * list (list Z))
    : res (list (list Z) * list (list Z)) :=
  match ns with
  | [] => Ok out
  | i :: ns' =>
    out' ← filter_step min_length muon_length save_hits ol oh out i;
    filter_loop min_length muon_length save_hits ol oh ns' out'
  end.

(** *** Hough (lines 284-476)

    [coords] is a by-value parameter; [lines] and [hit_idx] are
    references.  [nentry] is not used by the body. *)


Definition Hough (coords0 : list (list Z)) (param : list Z)
    (save_hits : bool) (lines hit_idx : list (list Z))
    : res (list (list Z) * list (list Z)) :=
  threshold ← at_ param 0%nat;
  max_gap ← at_ param 1%nat;
  range ← at_ param 2%nat;
  min_length ← at_ param 3%nat;
  muon_length ← at_ param 4%nat;
  st ← Hough_loop threshold max_gap range save_hits (length coords0)
         (Hough_init coords0);
  '(ol, oh) ← merge_pass save_hits (outlines st, outhit_idx st);
  filter_loop min_length muon_length save_hits ol oh
    (seq 0 (length ol)) (lines, hit_idx).

(** *** Geometry and hits

    [geo::Point_t], [geo::WireID] and [recob::Hit] come from LArSoft;
    only the members the module uses are kept.  An [art::Ptr<recob::Hit>]
    of [hitlist] is identified with its position in the hit collection. *)

Record Point_t : Type := mkPoint { pX : Q; pY : Q; pZ : Q }.

(** A default-constructed point. *)
Definition origin : Point_t := mkPoint 0 0 0.

Definition SetX (p : Point_t) (x : Q) : Point_t := mkPoint x (pY p) (pZ p).

Definition Mag2 (p : Point_t) : Q :=
  (pX p * pX p + pY p * pY p + pZ p * pZ p)%Q.

Record WireID_t : Type := mkWireID { TPC : Z; Plane : Z; Wire : Z }.

Record Hit : Type := mkHit { WireID : WireID_t; PeakTime : Q }.

(** [int(PeakTime())]: truncation towards zero. *)
Definition int_of (q : Q) : Z := Z.quot (Qnum q) (Z.pos (Qden q)).

(** [fGeometryService->WireIDsIntersect(w1, w2, point)]: the result and
    the value of [point] after the call. *)
Variable WireIDsIntersect : WireID_t → WireID_t → Point_t → bool * Point_t.

(** [fGeometryService->WireEndPoints(w, end1, end2)]: the two arrays
    of three doubles it fills. *)
Variable WireEndPoints : WireID_t → (Q * Q * Q) * (Q * Q * Q).

(** [atan2] of [<cmath>]. *)
Variable atan2 : Q → Q → Q.

Definition Qlt_bool (a b : Q) : bool := negb (Qle_bool b a).

(** *** FixEndpoints (lines 601-617)

    The coordinates are doubles, kept as the rationals they stand for;
    the literal [199.792] of line 607 is the binary64 number nearest to
    it, [7029556068371923 / 2^45], and [==] on doubles is equality of
    these rationals.  The literals [198] and [8] are exact. *)

Definition lit_199_792 : Q := 7029556068371923 # 35184372088832.

Definition FixEndpoints (wire_col wire_ind : WireID_t) (point : Point_t)
    : bool * Point_t :=
  let '(col_end1, col_end2) := WireEndPoints wire_col in
  let '(ind_end1, ind_end2) := WireEndPoints wire_ind in
  let '(col_end1_0, col_end1_1, col_end1_2) := col_end1 in
  let '(ind_end1_0, ind_end1_1, ind_end1_2) := ind_end1 in
  let '(ind_end2_0, ind_end2_1, ind_end2_2) := ind_end2 in
  if Qlt_bool 198 (Qabs ind_end1_1) || Qlt_bool 198 (Qabs ind_end2_1) then
    let ind_y :=
      if Qeq_bool (Qabs ind_end1_1) lit_199_792 then ind_end1_1
      else ind_end2_1 in
    let ind_z :=
      if Qeq_bool (Qabs ind_end1_1) lit_199_792 then ind_end1_2
      else ind_end2_2 in
    if Qlt_bool (Qabs (col_end1_2 - ind_z)) 8
    then (true, mkPoint col_end1_0 ind_y ind_z)
    else (false, point)
  else (false, point).

(** *** FindEndpoints (lines 534-599) *)

(** The vectors [FindEndpoints] updates through its references. *)
Record Endpoints : Type := mkEndpoints {
  e_lines_col : list (list Z);
  e_muon_endpoints : list (list Point_t);
  e_muon_hitpeakT : list (list Z);
  e_muon_hit_idx : list (list Z)
}.

(** [hitlist[n]->WireID()] for an [int] index. *)
Definition hit_wire_at (hitlist : list Hit) (n : Z) : res WireID_t :=
  if n <? 0 then Fault Undefined
  else hit ← idx_ hitlist (Z.to_nat n); Ok (WireID hit).

(** Lines 569-582: an endpoint is the intersection when there is one,
    the fixed point when [FixEndpoints] passes, and stays
    default-constructed otherwise. *)
Definition resolve_endpoint (wire_col wire_ind : WireID_t) : Point_t :=
  let '(intersect, point) := WireIDsIntersect wire_col wire_ind origin in
  if intersect then point
  else
    let '(fix_, point') := FixEndpoints wire_col wire_ind point in
    if fix_ then point' else origin.

(** Body of the [j] loop; the boolean is [match]. *)
Definition match_ij (hit_idx : list (list Z)) (range : Z)
    (hitlist : list Hit) (lines_ind : list (list Z)) (i j : nat)
    (st : Endpoints) : res (bool * Endpoints) :=
  lc ← at_ (e_lines_col st) i;
  lc1 ← at_ lc 1%nat; lc3 ← at_ lc 3%nat;
  lc4 ← at_ lc 4%nat; lc5 ← at_ lc 5%nat;
  let order_col := lc1 <? lc3 in
  let peakT0_col := if order_col then lc1 else lc3 in
  let peakT1_col := if order_col then lc3 else lc1 in
  let wire0_col := if order_col then lc4 else lc5 in
  let wire1_col := if order_col then lc5 else lc4 in
  li ← at_ lines_ind j;
  li1 ← at_ li 1%nat; li3 ← at_ li 3%nat;
  li4 ← at_ li 4%nat; li5 ← at_ li 5%nat;
  let order_ind := li1 <? li3 in
  let peakT0_ind := if order_ind then li1 else li3 in
  let peakT1_ind := if order_ind then li3 else li1 in
  let wire0_ind := if order_ind then li4 else li5 in
  let wire1_ind := if order_ind then li5 else li4 in
  let peakT_range := range in
  if (Z.abs (peakT0_col - peakT0_ind) <? peakT_range)
     && (Z.abs (peakT1_col - peakT1_ind) <? peakT_range) then
    awire_col ← hit_wire_at hitlist wire0_col;
    awire_ind ← hit_wire_at hitlist wire0_ind;
    cwire_col ← hit_wire_at hitlist wire1_col;
    cwire_ind ← hit_wire_at hitlist wire1_ind;
    let endpoint1 := resolve_endpoint awire_col awire_ind in
    let endpoint2 := resolve_endpoint cwire_col cwire_ind in
    if negb (Qeq_bool (Mag2 endpoint1) 0) && negb (Qeq_bool (Mag2 endpoint2) 0)
    then
      indices ← at_ hit_idx i;
      lines_col' ← at_clear (e_lines_col st) i;
      Ok (true,
          mkEndpoints lines_col'
            (e_muon_endpoints st ++ [[endpoint1; endpoint2]])
            (e_muon_hitpeakT st ++ [[peakT0_col; peakT1_col]])
            (e_muon_hit_idx st ++ [indices]))
    else Ok (false, st)
  else Ok (false, st).

(** [for (j=0; j<size && match == false; j++)] *)
Fixpoint match_j (hit_idx : list (list Z)) (range : Z)
    (hitlist : list Hit) (lines_ind : list (list Z)) (i : nat)
    (js : list nat) (st : Endpoints) : res Endpoints :=
  match js with
  | [] => Ok st
  | j :: js' =>
    '(matched, st') ← match_ij hit_idx range hitlist lines_ind i j st;
    if (matched : bool) then Ok st'
    else match_j hit_idx range hitlist lines_ind i js' st'
  end.

(** Body of the [i] loop. *)
Definition match_i (hit_idx : list (list Z)) (range : Z)
    (hitlist : list Hit) (lines_ind : list (list Z)) (i : nat)
    (st : Endpoints) : res Endpoints :=
  lc ← at_ (e_lines_col st) i;
  if empty lc then Ok st
  else match_j hit_idx range hitlist lines_ind i
         (seq 0 (length lines_ind)) st.

Fixpoint match_loop (hit_idx : list (list Z)) (range : Z)
    (hitlist : list Hit) (lines_ind : list (list Z)) (ns : list nat)
    (st : Endpoints) : res Endpoints :=
  match ns with
  | [] => Ok st
  | i :: ns' =>
    st' ← match_i hit_idx range hitlist lines_ind i st;
    match_loop hit_idx range hitlist lines_ind ns' st'
  end.

Definition FindEndpoints (lines_ind hit_idx : list (list Z)) (range : Z)
    (hitlist : list Hit) (st : Endpoints) : res Endpoints :=
  if negb (empty lines_ind) then
    match_loop hit_idx range hitlist lines_ind
      (seq 0 (length (e_lines_col st))) st
  else Ok st.

(** *** SortEndpoints (lines 619-656)

    [endpoint1] and [endpoint2] are declared as [geo::Point_t] values
    initialised from [muon_endpoints.at(i)]: they are copies, and the
    calls of [SetX] act on the copies.  The step returns the copies as
    they are at the end of the iteration together with the type pushed;
    the loop keeps the type only, as no statement writes to
    [muon_endpoints]. *)

Definition on_edge (p : Point_t) : bool :=
  Qlt_bool 198 (pY p) || Qlt_bool (pY p) (-198)
  || Qlt_bool 503 (pZ p) || Qlt_bool (pZ p) 6.

(** [dt*0.5*0.16] *)
Definition drift_dx (dt : Z) : Q := (inject_Z dt * (1 # 2) * (16 # 100))%Q.

Definition SortEndpoints_step (pair : list Point_t) (hitpeakT : list Z)
    : res (Point_t * Point_t * Z) :=
  endpoint1 ← at_ pair 0%nat;
  endpoint2 ← at_ pair 1%nat;
  t1 ← at_ hitpeakT 1%nat;
  t0 ← at_ hitpeakT 0%nat;
  let dt := t1 - t0 in
  if dt >? 2400 then
    Ok (endpoint1, SetX endpoint2 0, 0)
  else
    let end1_edge := on_edge endpoint1 in
    let end2_edge := on_edge endpoint2 in
    if negb end1_edge && end2_edge then
      let dx := drift_dx dt in
      let true_x :=
        if Qlt_bool 0 (pX endpoint2) then ((20205 # 100) - dx)%Q
        else (- (20205 # 100) + dx)%Q in
      Ok (endpoint1, SetX endpoint2 true_x, 1)
    else if end1_edge && negb end2_edge then
      let dx := drift_dx dt in
      let true_x :=
        if Qlt_bool 0 (pX endpoint1) then ((20205 # 100) - dx)%Q
        else (- (20205 # 100) + dx)%Q in
      Ok (SetX endpoint1 true_x, SetX endpoint2 0, 2)
    else if (Qlt_bool 198 (pY endpoint1) && Qlt_bool (pY endpoint2) (-198))
            || (Qlt_bool (pY endpoint1) (-198) && Qlt_bool 198 (pY endpoint2))
    then Ok (endpoint1, endpoint2, 3)
    else if (Qlt_bool 503 (pZ endpoint1) && Qlt_bool (pZ endpoint2) 6)
            || (Qlt_bool (pZ endpoint1) 6 && Qlt_bool 503 (pZ endpoint2))
    then Ok (endpoint1, endpoint2, 4)
    else Ok (endpoint1, endpoint2, 5).

Fixpoint SortEndpoints_loop (muon_endpoints : list (list Point_t))
    (muon_hitpeakT : list (list Z)) (ns : list nat) (muon_type : list Z)
    : res (list Z) :=
  match ns with
  | [] => Ok muon_type
  | i :: ns' =>
    pair ← at_ muon_endpoints i;
    hitpeakT ← at_ muon_hitpeakT i;
    '(_, _, t) ← SortEndpoints_step pair hitpeakT;
    SortEndpoints_loop muon_endpoints muon_hitpeakT ns' (muon_type ++ [t])
  end.

(** The two vectors passed by reference, after the call. *)
Definition SortEndpoints (muon_endpoints : list (list Point_t))
    (muon_hitpeakT : list (list Z)) (muon_type : list Z)
    : res (list (list Point_t) * list Z) :=
  muon_type' ← SortEndpoints_loop muon_endpoints muon_hitpeakT
                 (seq 0 (length muon_endpoints)) muon_type;
  Ok (muon_endpoints, muon_type').

(** *** FindTrajectories (lines 658-677)

    The differences are taken on the exact coordinates; the narrowing to
    [float] of line 666 is not modelled. *)

Definition PI : Q := 314159265 # 100000000.

Definition FindTrajectories_step (pair : list Point_t) (hitpeakT : list Z)
    : res (list Q) :=
  t1 ← at_ hitpeakT 1%nat;
  t0 ← at_ hitpeakT 0%nat;
  let dt := t1 - t0 in
  let dx := drift_dx dt in
  p1 ← idx_ pair 1%nat;
  p0 ← idx_ pair 0%nat;
  let dy := (pY p1 - pY p0)%Q in
  let dz := (pZ p1 - pZ p0)%Q in
  let theta_xz := (atan2 dx dz * 180 / PI)%Q in
  let theta_yz := (atan2 dy dz * 180 / PI)%Q in
  Ok [theta_xz; theta_yz].

Fixpoint FindTrajectories_loop (muon_endpoints : list (list Point_t))
    (muon_hitpeakT : list (list Z)) (ns : list nat)
    (muon_trajectories : list (list Q)) : res (list (list Q)) :=
  match ns with
  | [] => Ok muon_trajectories
  | i :: ns' =>
    pair ← idx_ muon_endpoints i;
    hitpeakT ← at_ muon_hitpeakT i;
    tr ← FindTrajectories_step pair hitpeakT;
    FindTrajectories_loop muon_endpoints muon_hitpeakT ns'
      (muon_trajectories ++ [tr])
  end.

Definition FindTrajectories (muon_endpoints : list (list Point_t))
    (muon_hitpeakT : list (list Z)) (muon_trajectories : list (list Q))
    : res (list (list Q)) :=
  FindTrajectories_loop muon_endpoints muon_hitpeakT
    (seq 0 (length muon_endpoints)) muon_trajectories.

(** *** Findt0 (lines 679-691) *)

Definition Findt0_step (hitpeakT : list Z) (type_i : Z) : res Q :=
  if (type_i =? 0) || (type_i =? 1) then
    t ← at_ hitpeakT 0%nat; Ok (inject_Z (t - 500) * (1 # 2))%Q
  else if type_i =? 2 then
    t ← at_ hitpeakT 1%nat; Ok (inject_Z (t - 3000) * (1 # 2))%Q
  else Ok (- 500)%Q.

Fixpoint Findt0_loop (muon_hitpeakT : list (list Z)) (muon_type : list Z)
    (ns : list nat) (muon_t0 : list Q) : res (list Q) :=
  match ns with
  | [] => Ok muon_t0
  | i :: ns' =>
    type_i ← at_ muon_type i;
    hitpeakT ← at_ muon_hitpeakT i;
    t0 ← Findt0_step hitpeakT type_i;
    Findt0_loop muon_hitpeakT muon_type ns' (muon_t0 ++ [t0])
  end.

Definition Findt0 (muon_hitpeakT : list (list Z)) (muon_type : list Z)
    (muon_t0 : list Q) : res (list Q) :=
  Findt0_loop muon_hitpeakT muon_type (seq 0 (length muon_hitpeakT)) muon_t0.

(** *** produce (lines 154-278)

    The fields are reset at the start of [produce] and are written in
    program order; the model binds each of them once and collects them
    in [Fields] at the end.  The event number is only printed and passed
    to [Hough], which does not use it. *)

(** Parameters read by [reconfigure]. *)
Record Config : Type := mkConfig {
  fHoughThreshold : Z;
  fHoughMaxGap : Z;
  fHoughRange : Z;
  fHoughMinLength : Z;
  fHoughMuonLength : Z;
  fEndpointRange : Z;
  fKeepMuonTypes : list Z
}.

(** [sbnd::comm::MuonTrack] (sbnobj), with the members [produce] sets.
    The narrowing of the positions to [float] is not modelled. *)
Record MuonTrack : Type := mkMuonTrack {
  t0_us : Q;
  x1_pos : Q; y1_pos : Q; z1_pos : Q;
  x2_pos : Q; y2_pos : Q; z2_pos : Q;
  theta_xz : Q; theta_yz : Q;
  tpc : Z;
  type : Z
}.

(** Data members of the module at the end of [produce]. *)
Record Fields : Type := mkFields {
  hit_02 : list (list Z); hit_12 : list (list Z);
  lines_02 : list (list Z); lines_12 : list (list Z);
  hit_idx_02 : list (list Z); hit_idx_12 : list (list Z);
  hit_00 : list (list Z); hit_01 : list (list Z);
  hit_10 : list (list Z); hit_11 : list (list Z);
  lines_00 : list (list Z); lines_01 : list (list Z);
  lines_10 : list (list Z); lines_11 : list (list Z);
  muon_type : list Z;
  muon_t0 : list Q;
  muon_endpoints : list (list Point_t);
  muon_hitpeakT : list (list Z);
  muon_hit_idx : list (list Z);
  muon_trajectories : list (list Q)
}.

(** What [produce] puts into the event: the tracks, and the
    associations as pairs (position of the hit in the hit collection,
    position of the track in [muon_tracks]). *)
Record Products : Type := mkProducts {
  muon_tracks : list MuonTrack;
  muon_tracks_assn : list (nat * nat)
}.

(** Lines 176-186. *)
Fixpoint fill_collection (hits : list Hit) (i : nat)
    (acc : list (list Z) * list (list Z))
    : list (list Z) * list (list Z) :=
  match hits with
  | [] => acc
  | hit :: hits' =>
    let wireid := WireID hit in
    let hit_wire := Wire wireid in
    let hit_peakT := int_of (PeakTime hit) in
    let hit_plane := Plane wireid in
    let hit_tpc := TPC wireid in
    let '(h02, h12) := acc in
    fill_collection hits' (S i)
      (if (hit_plane =? 2) && (hit_peakT >? 0) then
         let v := [hit_wire; hit_peakT; Z.of_nat i] in
         if hit_tpc =? 0 then (h02 ++ [v], h12) else (h02, h12 ++ [v])
       else acc)
  end.

(** The four induction-plane buckets. *)
Record Induction : Type := mkInduction {
  i_hit_00 : list (list Z); i_hit_01 : list (list Z);
  i_hit_10 : list (list Z); i_hit_11 : list (list Z)
}.

(** Lines 203-219. *)
Fixpoint fill_induction (muon_in_tpc0 muon_in_tpc1 : bool) (hits : list Hit)
    (i : nat) (acc : Induction) : Induction :=
  match hits with
  | [] => acc
  | hit :: hits' =>
    let wireid := WireID hit in
    let hit_wire := Wire wireid in
    let hit_peakT := int_of (PeakTime hit) in
    let hit_tpc := TPC wireid in
    let hit_plane := Plane wireid in
    let v := [hit_wire; hit_peakT; Z.of_nat i] in
    fill_induction muon_in_tpc0 muon_in_tpc1 hits' (S i)
      (if muon_in_tpc0 then
         if (hit_plane =? 0) && (hit_tpc =? 0) && (hit_peakT >? 0) then
           mkInduction (i_hit_00 acc ++ [v]) (i_hit_01 acc)
                       (i_hit_10 acc) (i_hit_11 acc)
         else if (hit_plane =? 1) && (hit_tpc =? 0) && (hit_peakT >? 0) then
           mkInduction (i_hit_00 acc) (i_hit_01 acc ++ [v])
                       (i_hit_10 acc) (i_hit_11 acc)
         else acc
       else if muon_in_tpc1 then
         if (hit_plane =? 0) && (hit_tpc =? 1) && (hit_peakT >? 0) then
           mkInduction (i_hit_00 acc) (i_hit_01 acc)
                       (i_hit_10 acc ++ [v]) (i_hit_11 acc)
         else if (hit_plane =? 1) && (hit_tpc =? 1) && (hit_peakT >? 0) then
           mkInduction (i_hit_00 acc) (i_hit_01 acc)
                       (i_hit_10 acc) (i_hit_11 acc ++ [v])
         else acc
       else acc)
  end.

(** [util::CreateAssn] (lardata), called on [muon_tracks] and one hit: associates
    [b] with the last element of [a]. *)
Definition CreateAssn (a : list MuonTrack) (b : nat)
    (assn : list (nat * nat)) : list (nat * nat) :=
  assn ++ [(b, (length a - 1)%nat)].

(** Lines 269-271. *)
Fixpoint assn_loop (hitlist : list Hit) (tracks : list MuonTrack)
    (hit_is : list nat) (assn : list (nat * nat)) : res (list (nat * nat)) :=
  match hit_is with
  | [] => Ok assn
  | hit_i :: rest =>
    _ ← idx_ hitlist hit_i;
    assn_loop hitlist tracks rest (CreateAssn tracks hit_i assn)
  end.

(** Body of the loop of lines 241-273. *)
Definition track_step (keep_types : list Z) (hitlist : list Hit)
    (f_type : list Z) (f_t0 : list Q) (f_endpoints : list (list Point_t))
    (f_hit_idx : list (list Z)) (f_trajectories : list (list Q))
    (out : Products) (i : nat) : res Products :=
  track_type ← at_ f_type i;
  track_hit_idx ← at_ f_hit_idx i;
  let keep_track := existsb (λ t, track_type =? t) keep_types in
  if keep_track then
    pair ← at_ f_endpoints i;
    endpoint1 ← at_ pair 0%nat;
    endpoint2 ← at_ pair 1%nat;
    t0 ← at_ f_t0 i;
    tr ← at_ f_trajectories i;
    txz ← at_ tr 0%nat;
    tyz ← at_ tr 1%nat;
    type_i ← at_ f_type i;
    let mytrack :=
      mkMuonTrack t0 (pX endpoint1) (pY endpoint1) (pZ endpoint1)
        (pX endpoint2) (pY endpoint2) (pZ endpoint2) txz tyz
        (if Qlt_bool (pX endpoint1) 0 then 0 else 1) type_i in
    let tracks := muon_tracks out ++ [mytrack] in
    assn ← assn_loop hitlist tracks (seq 0 (length track_hit_idx))
             (muon_tracks_assn out);
    Ok (mkProducts tracks assn)
  else Ok out.

Fixpoint track_loop (keep_types : list Z) (hitlist : list Hit)
    (f_type : list Z) (f_t0 : list Q) (f_endpoints : list (list Point_t))
    (f_hit_idx : list (list Z)) (f_trajectories : list (list Q))
    (ns : list nat) (out : Products) : res Products :=
  match ns with
  | [] => Ok out
  | i :: ns' =>
    out' ← track_step keep_types hitlist f_type f_t0 f_endpoints f_hit_idx
             f_trajectories out i;
    track_loop keep_types hitlist f_type f_t0 f_endpoints f_hit_idx
      f_trajectories ns' out'
  end.

(** The vectors filled by lines 237-239 and the products built by the
    loop of lines 241-273. *)
Record Classified : Type := mkClassified {
  c_type : list Z;
  c_t0 : list Q;
  c_endpoints : list (list Point_t);
  c_trajectories : list (list Q);
  c_products : Products
}.

(** Lines 236-274 of [produce]: classification, trajectories, reference
    times and track assembly on the pairs the matcher left. *)
Definition classify_and_assemble (keep_types : list Z) (hitlist : list Hit)
    (m_endpoints : list (list Point_t)) (m_hitpeakT m_hit_idx : list (list Z))
    : res Classified :=
  if negb (empty m_endpoints) then
    '(m_endpoints, m_type) ← SortEndpoints m_endpoints m_hitpeakT [];
    m_trajectories ← FindTrajectories m_endpoints m_hitpeakT [];
    m_t0 ← Findt0 m_hitpeakT m_type [];
    out ← track_loop keep_types hitlist m_type m_t0 m_endpoints
            m_hit_idx m_trajectories (seq 0 (length m_endpoints))
            (mkProducts [] []);
    Ok (mkClassified m_type m_t0 m_endpoints m_trajectories out)
  else Ok (mkClassified [] [] m_endpoints [] (mkProducts [] [])).

(** [evt_hits] is [None] when [evt.getByLabel] fails. *)
Definition produce (cfg : Config) (evt_hits : option (list Hit))
    : res (Fields * Products) :=
  let hitlist := match evt_hits with Some l => l | None => [] end in
  let '(h02, h12) := fill_collection hitlist 0 ([], []) in
  let HoughParam := [fHoughThreshold cfg; fHoughMaxGap cfg; fHoughRange cfg;
                     fHoughMinLength cfg; fHoughMuonLength cfg] in
  '(l02, hi02) ← Hough h02 HoughParam true [] [];
  '(l12, hi12) ← Hough h12 HoughParam true [] [];
  let muon_in_tpc0 := negb (empty l02) in
  let muon_in_tpc1 := negb (empty l12) in
  if muon_in_tpc0 || muon_in_tpc1 then
    let ind := fill_induction muon_in_tpc0 muon_in_tpc1 hitlist 0
                 (mkInduction [] [] [] []) in
    let ind_empty : list (list Z) := [] in
    '(l00, l01, l02', ind_empty, ep) ←
      (if muon_in_tpc0 then
         '(l00, ind_empty) ← Hough (i_hit_00 ind) HoughParam false [] ind_empty;
         '(l01, ind_empty) ← Hough (i_hit_01 ind) HoughParam false [] ind_empty;
         e ← FindEndpoints l00 hi02 (fEndpointRange cfg) hitlist
               (mkEndpoints l02 [] [] []);
         e ← FindEndpoints l01 hi02 (fEndpointRange cfg) hitlist e;
         Ok (l00, l01, e_lines_col e, ind_empty, e)
       else Ok ([], [], l02, ind_empty, mkEndpoints l02 [] [] []));
    '(l10, l11, l12', ep) ←
      (if muon_in_tpc1 then
         '(l10, ind_empty) ← Hough (i_hit_10 ind) HoughParam false [] ind_empty;
         '(l11, ind_empty) ← Hough (i_hit_11 ind) HoughParam false [] ind_empty;
         e ← FindEndpoints l10 hi12 (fEndpointRange cfg) hitlist
               (mkEndpoints l12 (e_muon_endpoints ep) (e_muon_hitpeakT ep)
                  (e_muon_hit_idx ep));
         e ← FindEndpoints l11 hi12 (fEndpointRange cfg) hitlist e;
         Ok (l10, l11, e_lines_col e, e)
       else Ok ([], [], l12, ep));
    c ← classify_and_assemble (fKeepMuonTypes cfg) hitlist
          (e_muon_endpoints ep) (e_muon_hitpeakT ep) (e_muon_hit_idx ep);
    Ok (mkFields h02 h12 l02' l12' hi02 hi12
          (i_hit_00 ind) (i_hit_01 ind) (i_hit_10 ind) (i_hit_11 ind)
          l00 l01 l10 l11 (c_type c) (c_t0 c) (c_endpoints c)
          (e_muon_hitpeakT ep) (e_muon_hit_idx ep) (c_trajectories c),
        c_products c)
  else
    Ok (mkFields h02 h12 l02 l12 hi02 hi12 [] [] [] [] [] [] [] []
          [] [] [] [] [] [],
        mkProducts [] []).

End Producer.

(** ** Collaborators and inputs used to run the model

    The geometry service, [atan2] and the random generator are external
    to the module; the runs below fix them. *)

(** Draws [0, 1, 0, 0, ...]: on a three-point bucket the first point is
    sampled first, the middle one second. *)
Definition Uniform_010 : nat → nat → nat :=
  λ n _, nth n [0; 1; 0]%nat 0%nat.

(** Always draws index 0. *)
Definition Uniform_0 : nat → nat → nat := λ _ _, 0%nat.

(** Every pair of wires intersects, at depth [x = -150]. *)
Definition intersect_all (w1 w2 : WireID_t) (p : Point_t) : bool * Point_t :=
  (true, mkPoint (-150) (inject_Z (Wire w1)) (inject_Z (Wire w2))).

(** No pair of wires intersects; the point is left as it was. *)
Definition intersect_none (w1 w2 : WireID_t) (p : Point_t) : bool * Point_t :=
  (false, p).

Definition wire_ends_0 (w : WireID_t) : (Q * Q * Q) * (Q * Q * Q) :=
  ((0, 0, 0), (0, 0, 0))%Q.

Definition atan2_0 (a b : Q) : Q := 0%Q.

(** Three aligned hits per bucket: induction plane 0 and collection
    plane 2 of TPC 0 (hits 0-5), collection plane 2 and induction plane 0
    of TPC 1 (hits 6-11).  Each triple spans more than 2600 ticks. *)
Definition crossing_hits : list Hit :=
  [ mkHit (mkWireID 0 0 200) 105; mkHit (mkWireID 0 0 223) 1423;
    mkHit (mkWireID 0 0 246) 2741;
    mkHit (mkWireID 0 2 100) 100; mkHit (mkWireID 0 2 123) 1418;
    mkHit (mkWireID 0 2 146) 2736;
    mkHit (mkWireID 1 2 100) 100; mkHit (mkWireID 1 2 123) 1418;
    mkHit (mkWireID 1 2 146) 2736;
    mkHit (mkWireID 1 0 200) 105; mkHit (mkWireID 1 0 223) 1423;
    mkHit (mkWireID 1 0 246) 2741 ].

(** The defaults of [reconfigure] with a vote threshold of 2. *)
Definition cfg_2 : Config := mkConfig 2 30 100 500 2500 30 [0; 1; 2; 3; 4; 5].

(** The defaults of [reconfigure]. *)
Definition cfg_default : Config :=
  mkConfig 10 30 100 500 2500 30 [0; 1; 2; 3; 4; 5].


(** The module's fields when nothing was found. *)
Definition no_fields : Fields :=
  mkFields [] [] [] [] [] [] [] [] [] [] [] [] [] [] [] [] [] [] [] [].

(** ** Predicates used in the statements *)

(** [ol'] has the size of [ol], and every entry of [ol'] that is not
    empty has, from position 4 on, the values the same entry had in
    [ol]. *)
Definition tail_kept (ol ol' : list (list Z)) : Prop :=
  length ol' = length ol
  ∧ ∀ n l', ol' !! n = Some l' → l' ≠ [] →
      ∃ l, ol !! n = Some l ∧ l ≠ [] ∧ drop 4 l' = drop 4 l.

(** Every line from position [i] on has its ten entries. *)
Definition lines_from (i : nat) (ol : list (list Z)) : Prop :=
  ∀ n l, (i ≤ n)%nat → ol !! n = Some l → length l = 10%nat.

(** Two segments of one track split by a gap, as the point loop leaves
    them: [x0, y0, x1, y1, wire0, wire1, idx0, idx1, rho, theta]. *)
Definition split_outlines : list (list Z) :=
  [ [10; 100; 500; 600; 1; 2; 0; 5; 40; 135];
    [520; 620; 1000; 1100; 3; 4; 6; 9; 40; 135] ].

Definition split_outhit_idx : list (list Z) := [ [1; 2]; [3; 4] ].

(** Number of lines that are not cleared. *)
Definition live_lines (ol : list (list Z)) : nat :=
  length (filter (λ l, l ≠ []) ol).

(** A pair of endpoints, both of nonzero squared magnitude. *)
Definition nondegenerate (pair : list Point_t) : Prop :=
  ∃ e1 e2, pair = [e1; e2] ∧ ¬ (Mag2 e1 == 0)%Q ∧ ¬ (Mag2 e2 == 0)%Q.

(** What a run of the matcher may change: primary lines are cleared in
    place, pairs are appended, all of them nondegenerate, and each pair
    appended goes with one primary line cleared. *)
Definition matcher_step (st st' : Endpoints) : Prop :=
  length (e_lines_col st') = length (e_lines_col st)
  ∧ (∀ n, e_lines_col st' !! n = e_lines_col st !! n
          ∨ e_lines_col st' !! n = Some [])
  ∧ ∃ new,
      e_muon_endpoints st' = e_muon_endpoints st ++ new
      ∧ Forall nondegenerate new
      ∧ (length new + live_lines (e_lines_col st')
         = live_lines (e_lines_col st))%nat.

(** A complete line whose two hit indices lie inside a hit collection
    of [nhits] hits. *)
Definition line_ok (nhits : nat) (l : list Z) : Prop :=
  length l = 10%nat
  ∧ 0 <= nth 4 l 0 < Z.of_nat nhits
  ∧ 0 <= nth 5 l 0 < Z.of_nat nhits.

(** The primary lines handed to the matcher: complete or cleared, with a
    member list for each. *)
Definition primary_ok (nhits : nat) (hit_idx : list (list Z))
    (lines_col : list (list Z)) : Prop :=
  Forall (λ l, l = [] ∨ line_ok nhits l) lines_col
  ∧ (length lines_col ≤ length hit_idx)%nat.

(** The primary and secondary lines of TPC 0 on [crossing_hits], as the
    two Hough calls return them, and the members of the primary line. *)
Definition crossing_lines_02 : list (list Z) :=
  [ [146; 2736; 100; 100; 5; 3; 2; 0; 871; 179] ].

Definition crossing_lines_00 : list (list Z) :=
  [ [246; 2741; 200; 105; 2; 0; 2; 0; 771; 179] ].

Definition crossing_hit_idx_02 : list (list Z) := [ [5; 3] ].

(** Every cell of the accumulator holds at most [n]. *)
Definition accu_le (a : accumulator) (n : Z) : Prop := ∀ r j, a r j <= n.

(** The table entries for angle [j] are a cosine and a sine of an angle
    in [0, pi]. *)
Definition trig_ok (j : Z) : bool :=
  (Z.abs (cos_num j) <=? trig_den) && (0 <=? sin_num j)
  && (sin_num j <=? trig_den).

(** A point of the coordinate domain the accumulator is sized for:
    wire in [0, w], time in [0, h]. *)
Definition in_domain (x y : Z) : Prop := 0 <= x <= w ∧ 0 <= y <= h.

(** A bucket whose points are cleared or three-element points of the
    domain. *)
Definition bucket_ok (v : list (list Z)) : Prop :=
  Forall (λ p, p = [] ∨ ∃ x y i, p = [x; y; i] ∧ in_domain x y) v.

Definition deaccu_ok (d : list (list Z)) : Prop :=
  Forall (λ p, ∃ x y, p = [x; y] ∧ in_domain x y) d.

(** [v'] is [v] with some entries cleared. *)
Definition only_cleared (v v' : list (list Z)) : Prop :=
  length v' = length v
  ∧ ∀ p, v' !! p = v !! p ∨ v' !! p = Some [].

(** The point of [v0] at position [p] carries hit index [s], and position
    [p] is cleared in both [v] and [v']. *)
Definition consumed_at (v0 v v' : list (list Z)) (p : nat) (x y s : Z)
    : Prop :=
  (∃ rest, v0 !! p = Some (x :: y :: s :: rest))
  ∧ v !! p = Some [] ∧ v' !! p = Some [].

Definition consumed (v0 v v' : list (list Z)) (s : Z) : Prop :=
  ∃ p x y, consumed_at v0 v v' p x y s.

(** [e] is the record of a point of [v0] that is cleared in [v] and
    [v']. *)
Definition endpoint_consumed (v0 v v' : list (list Z)) (e : Z * Z * Z * Z)
    : Prop :=
  ∃ p x y s, e = (x, y, s, Z.of_nat p) ∧ consumed_at v0 v v' p x y s.

(** The line built at line 388 from the two endpoints. *)
Definition outline_of (e0 e1 : Z * Z * Z * Z) (rho theta : Z) : list Z :=
  let '(x0_end, y0_end, wire0_end, idx0_end) := e0 in
  let '(x1_end, y1_end, wire1_end, idx1_end) := e1 in
  [x0_end; y0_end; x1_end; y1_end; wire0_end; wire1_end; idx0_end; idx1_end;
   rho; theta].

(** A line whose two endpoints are points of [v0] cleared in [v] and
    [v']. *)
Definition line_consumed (v0 v v' : list (list Z)) (line : list Z) : Prop :=
  ∃ e0 e1 rho theta,
    line = outline_of e0 e1 rho theta
    ∧ endpoint_consumed v0 v v' e0 ∧ endpoint_consumed v0 v v' e1.

(** The working vectors of [Hough] after some iterations on the bucket
    [coords0]: entries are only cleared, and the points recorded in
    lines and member lists are cleared in both working vectors. *)
Definition working_copy (coords0 : list (list Z)) (st : HoughLocals) : Prop :=
  only_cleared coords0 (coords st)
  ∧ only_cleared coords0 (data st)
  ∧ Forall (line_consumed coords0 (coords st) (data st)) (outlines st)
  ∧ Forall (Forall (consumed coords0 (coords st) (data st))) (outhit_idx st).

(** The locals of [Hough] on a bucket of the coordinate domain. *)
Definition locals_ok (save : bool) (st : HoughLocals) : Prop :=
  bucket_ok (coords st)
  ∧ bucket_ok (data st)
  ∧ length (data st) = length (coords st)
  ∧ deaccu_ok (deaccu st)
  ∧ Forall (λ l, length l = 10%nat) (outlines st)
  ∧ (save = true → length (outhit_idx st) = length (outlines st)).

(** The module's fields and products after [produce] on
    [crossing_hits]. *)
Definition crossing_fields : Fields :=
  Eval vm_compute in
    match produce Uniform_010 intersect_all wire_ends_0 atan2_0 cfg_2
            (Some crossing_hits) with
    | Ok fo => fo.1
    | Fault _ => no_fields
    end.

Definition crossing_products : Products :=
  Eval vm_compute in
    match produce Uniform_010 intersect_all wire_ends_0 atan2_0 cfg_2
            (Some crossing_hits) with
    | Ok fo => fo.2
    | Fault _ => mkProducts [] []
    end.

(** One collection-plane hit of TPC 0 at wire 0 with peak time 6000. *)
Definition late_hit : list Hit := [ mkHit (mkWireID 0 2 0) 6000 ].

(** One pair as the matcher leaves it: two endpoints at depth -150, the
    times of the primary line, and its members. *)
Definition long_pair : list (list Point_t) :=
  [ [mkPoint (-150) 100 200; mkPoint (-150) 146 246] ].

Definition long_pair_hitpeakT : list (list Z) := [ [100; 2736] ].

Definition long_pair_hit_idx : list (list Z) := [ [5; 3] ].


(** The test of lines 457-472 on a line that is not empty: the line is
    pushed to [lines] when it holds. *)
Definition line_kept (min_length muon_length : Z) (l : list Z) : bool :=
  match l with
  | x0_end :: y0_end :: x1_end :: y1_end :: _ =>
    if negb (muon_length =? 0) then Z.abs (y0_end - y1_end) >? muon_length
    else Distance_gt x0_end y0_end x1_end y1_end min_length
  | _ => false
  end.

(** [s] is the hit index carried by some point of the bucket. *)
Definition is_source (coords0 : list (list Z)) (s : Z) : Prop :=
  ∃ p x y rest, coords0 !! p = Some (x :: y :: s :: rest).

(** Two lines whose [rho] differ by [rho_var] or more and whose [theta]
    differ by [theta_var] or more. *)
Definition dissimilar (li lj : list Z) : Prop :=
  rho_var <= Z.abs (nth 8 li 0 - nth 8 lj 0)
  ∧ theta_var <= Z.abs (nth 9 li 0 - nth 9 lj 0).

(** Two lines of different direction and offset. *)
Definition crossed_outlines : list (list Z) :=
  [ [10; 100; 500; 600; 1; 2; 0; 5; 40; 135];
    [20; 110; 510; 90; 3; 4; 6; 9; 300; 45] ].

(** The hits of an event with their positions in the hit collection,
    counted from [i]. *)
Definition numbered (i : nat) (hits : list Hit) : list (nat * Hit) :=
  zip (seq i (length hits)) hits.

(** The point built from the hit at position [ih.1]: wire, integer peak
    time, position. *)
Definition hit_point (ih : nat * Hit) : list Z :=
  [Wire (WireID ih.2); int_of (PeakTime ih.2); Z.of_nat ih.1].

(** A hit of plane [plane] and TPC [tpc_] with a positive integer peak
    time. *)
Definition valid_on (plane tpc_ : Z) (ih : nat * Hit) : bool :=
  (Plane (WireID ih.2) =? plane) && (TPC (WireID ih.2) =? tpc_)
  && (int_of (PeakTime ih.2) >? 0).

(** A plane-2 hit with a positive integer peak time outside TPC 0. *)
Definition valid_off_tpc0 (ih : nat * Hit) : bool :=
  (Plane (WireID ih.2) =? 2) && negb (TPC (WireID ih.2) =? 0)
  && (int_of (PeakTime ih.2) >? 0).

(** The points of the hits that satisfy [p], in the order of the hit
    collection. *)
Definition select (p : nat * Hit → bool) (i : nat) (hits : list Hit)
    : list (list Z) :=
  map hit_point (List.filter p (numbered i hits)).

(** The record of a match: [t] holds the two times of a live primary
    line of [lines_col], the earlier first, [m] is the member list at the
    position of that line, and the line is cleared in [lines_col']. *)
Definition matched_record (hit_idx lines_col lines_col' : list (list Z))
    (t m : list Z) : Prop :=
  ∃ i l,
    lines_col !! i = Some l ∧ l ≠ []
    ∧ t = [Z.min (nth 1 l 0) (nth 3 l 0); Z.max (nth 1 l 0) (nth 3 l 0)]
    ∧ hit_idx !! i = Some m
    ∧ lines_col' !! i = Some [].

(** What a run of the matcher appends to the three vectors of the muon
    candidates. *)
Definition matcher_records (hit_idx : list (list Z)) (st st' : Endpoints)
    : Prop :=
  (∀ n, e_lines_col st' !! n = e_lines_col st !! n
        ∨ e_lines_col st' !! n = Some [])
  ∧ ∃ newp newt newh,
      e_muon_endpoints st' = e_muon_endpoints st ++ newp
      ∧ e_muon_hitpeakT st' = e_muon_hitpeakT st ++ newt
      ∧ e_muon_hit_idx st' = e_muon_hit_idx st ++ newh
      ∧ length newp = length newt
      ∧ Forall (λ p, length p = 2%nat) newp
      ∧ Forall2 (matched_record hit_idx (e_lines_col st) (e_lines_col st'))
          newt newh.

(** The matcher's vectors after the primary line of [crossing_hits] in
    TPC 0 is matched with the secondary line of plane 0. *)
Definition crossing_endpoints : Endpoints :=
  Eval vm_compute in
    match FindEndpoints intersect_all wire_ends_0 crossing_lines_00
            crossing_hit_idx_02 30 crossing_hits
            (mkEndpoints crossing_lines_02 [] [] []) with
    | Ok e => e
    | Fault _ => mkEndpoints [] [] [] []
    end.

(** The test of line 243: the type is one of [fKeepMuonTypes]. *)
Definition keep_track (keep_types : list Z) (track_type : Z) : bool :=
  existsb (λ t, track_type =? t) keep_types.

(** Draws the number of the draw modulo the number of points left: on
    a three-point bucket 0, 1, 0, and always a position below [count]. *)
Definition Uniform_mod : nat → nat → nat := λ n count, (n mod count)%nat.

(** The hits of an event lie in the coordinate domain of the
    accumulator: wire in [0, w], integer peak time at most [h]. *)
Definition hits_in_domain (hits : list Hit) : Prop :=
  Forall (λ hit, 0 <= Wire (WireID hit) <= w ∧ int_of (PeakTime hit) <= h)
    hits.

(** A bucket of points of the domain that carry positions of a hit
    collection of [nhits] hits. *)
Definition hit_bucket (nhits : nat) (v : list (list Z)) : Prop :=
  Forall (λ pt, ∃ x y j, pt = [x; y; Z.of_nat j] ∧ in_domain x y
                         ∧ (j < nhits)%nat) v.

(** The three vectors of the muon candidates: in step, with two
    endpoints and two times per candidate and at most [nhits] members. *)
Definition candidates_ok (nhits : nat) (eps : list (list Point_t))
    (tps hidx : list (list Z)) : Prop :=
  length eps = length tps ∧ length tps = length hidx
  ∧ Forall (λ p, length p = 2%nat) eps
  ∧ Forall (λ t, length t = 2%nat) tps
  ∧ Forall (λ m, (length m ≤ nhits)%nat) hidx.

(** A bucket that [produce] builds from the hit collection [hits]. *)
Definition good_bucket (hits : list Hit) (v : list (list Z)) : Prop :=
  hit_bucket (length hits) v ∧ (length v ≤ length hits)%nat.

(** ** opDetDigitizerSBND: the map of direct light (lines 1055-1091)

    The second module of the file collects, before the waveforms are
    built, the direct light seen by the PMT channels in a
    [std::map<int, sim::SimPhotons>].  An [art::Handle] is kept with the
    members the loop reads; [P] stands for [sim::SimPhotons] or
    [sim::SimPhotonsLite]. *)

Record Handle (P : Type) : Type := mkHandle {
  isValid : bool;
  moduleLabel : string;
  productInstanceName : string;
  product : list P
}.

Arguments mkHandle {P} _ _ _ _.
Arguments isValid {P} _.
Arguments moduleLabel {P} _.
Arguments productInstanceName {P} _.
Arguments product {P} _.

Section Digitizer.

(** [map.pdType(ch, name)] of [opdet::sbndPDMapAlg]. *)
Variable pdType : Z → string → bool.

(** [label != fInputModuleName], the comparison of a module label with
    the configured [art::InputTag]. *)
Variable differs_from_input : string → bool.

Context {P : Type}.

(** [simphotons.OpChannel()] *)
Variable OpChannel : P → Z.

(** [auxmap.insert(std::make_pair(ch, simphotons))]: no effect when the
    key is present. *)
Definition map_insert (auxmap : gmap Z P) (ch : Z) (simphotons : P)
    : gmap Z P :=
  match auxmap !! ch with
  | Some _ => auxmap
  | None => <[ch := simphotons]> auxmap
  end.

(** Body of the inner loop (lines 1067-1069). *)
Definition direct_photon (Reflected : bool) (auxmap : gmap Z P)
    (simphotons : P) : gmap Z P :=
  let ch := OpChannel simphotons in
  if pdType ch "pmt" && negb Reflected
  then map_insert auxmap ch simphotons
  else auxmap.

(** Body of the loop over the handles (lines 1059-1070). *)
Definition direct_handle (auxmap : gmap Z P) (pmtHandle : Handle P)
    : gmap Z P :=
  if negb (isValid pmtHandle) then auxmap
  else if differs_from_input (moduleLabel pmtHandle) then auxmap
  else
    let Reflected :=
      String.eqb (productInstanceName pmtHandle) "Reflected" in
    foldl (direct_photon Reflected) auxmap (product pmtHandle).

Definition CreateDirectPhotonMap (auxmap : gmap Z P)
    (photon_handles : list (Handle P)) : gmap Z P :=
  foldl direct_handle auxmap photon_handles.

(** Lines 1074-1091 repeat lines 1055-1072 statement for statement on
    [sim::SimPhotonsLite]. *)
Definition CreateDirectPhotonMapLite (auxmap : gmap Z P)
    (photon_handles : list (Handle P)) : gmap Z P :=
  foldl direct_handle auxmap photon_handles.

(** A valid handle of the input module that holds direct light. *)
Definition direct_light (pmtHandle : Handle P) : bool :=
  isValid pmtHandle
  && negb (differs_from_input (moduleLabel pmtHandle))
  && negb (String.eqb (productInstanceName pmtHandle) "Reflected").

(** The photon collections of PMT channels in the handles of direct
    light, in the order of the loops. *)
Definition direct_pmt (photon_handles : list (Handle P)) : list P :=
  concat
    (map (λ pmtHandle,
            if direct_light pmtHandle
            then List.filter (λ p, pdType (OpChannel p) "pmt")
                   (product pmtHandle)
            else [])
       photon_handles).

End Digitizer.

(** A channel map in which the even channels are PMTs, an input module
    called largeant, and photon collections given by a channel and a
    tag. *)
Definition pdType_even (ch : Z) (name : string) : bool :=
  String.eqb name "pmt" && Z.even ch.

Definition differs_from_largeant (label : string) : bool :=
  negb (String.eqb label "largeant").

Definition two_handles : list (Handle (Z * Z)) :=
  [ mkHandle true "largeant" "" [(2, 10); (3, 11); (2, 12)];
    mkHandle true "largeant" "Reflected" [(4, 13)] ].

(** No two points of the bucket carry the same hit index. *)
Definition distinct_hits (coords0 : list (list Z)) : Prop :=
  ∀ p q x y s tl x' y' tl',
    coords0 !! p = Some (x :: y :: s :: tl) →
    coords0 !! q = Some (x' :: y' :: s :: tl') → p = q.

(** The members [ms] are hit indices of distinct points of [coords0],
    each cleared in [data]. *)
Definition fresh_members (coords0 data : list (list Z)) (ms : list Z)
    : Prop :=
  NoDup ms
  ∧ Forall (λ s, ∃ p x y tl, coords0 !! p = Some (x :: y :: s :: tl)
                             ∧ data !! p = Some []) ms.

(** A number with [p] significant bits: below [2^p], or a multiple of
    the unit in its last place. *)
Definition fits (p k : Z) : Prop :=
  k < 2 ^ p ∨ (2 ^ (Z.log2 k - p + 1) | k).

(** * Properties *)

(** ** The fault monad *)

Lemma bind_Ok {A B} (m : res A) (f : A → res B) (b : B) :
  m ≫= f = Ok b → ∃ a, m = Ok a ∧ f a = Ok b.
Proof. destruct m as [a|e]; simpl; [eauto | discriminate]. Qed.

Lemma at_Ok {A} (v : list A) (i : nat) (a : A) :
  at_ v i = Ok a ↔ v !! i = Some a.
Proof. unfold at_. destruct (v !! i); split; congruence. Qed.

Lemma idx_Ok {A} (v : list A) (i : nat) (a : A) :
  idx_ v i = Ok a ↔ v !! i = Some a.
Proof. unfold idx_. destruct (v !! i); split; congruence. Qed.

Lemma at_clear_Ok {A} (v v' : list (list A)) (i : nat) :
  at_clear v i = Ok v' ↔ (i < length v)%nat ∧ v' = <[i := []]> v.
Proof.
  unfold at_clear. destruct (v !! i) eqn:E.
  - apply lookup_lt_Some in E. split; [intros [= <-]; auto | intros [_ ->]; auto].
  - apply lookup_ge_None in E. split; [discriminate | intros [? _]; lia].
Qed.

(** Destructs the binds of a hypothesis [_ = Ok _]. *)
Tactic Notation "bind_inv" hyp(H) "as" simple_intropattern(a) ident(Ha) :=
  apply bind_Ok in H; destruct H as (a & Ha & H).

(** ** Track assembly and classification *)

(** [SortEndpoints] hands back [muon_endpoints] as it received it. *)
Lemma SortEndpoints_keeps_endpoints eps tps ty eps' ty' :
  SortEndpoints eps tps ty = Ok (eps', ty') → eps' = eps.
Proof.
  unfold SortEndpoints. intros H. bind_inv H as ty1 H1. by injection H as <- _.
Qed.

(** A time difference above 2400 gives type 0. *)
Lemma SortEndpoints_step_long pair e1 e2 t0 t1 :
  pair !! 0%nat = Some e1 → pair !! 1%nat = Some e2 →
  2400 < t1 - t0 →
  SortEndpoints_step pair [t0; t1] = Ok (e1, SetX e2 0, 0).
Proof.
  intros H0 H1 Hdt. unfold SortEndpoints_step, at_. rewrite H0, H1. simpl.
  destruct (t1 - t0 >? 2400) eqn:E; [done | lia].
Qed.

(** C1 (code defect).  A pair whose time difference is
    2736 - 100 > 2400 is given type 0, but the track built from it has the
    depth of its later endpoint equal to -150, the value the matcher
    resolved, not 0: the [SetX(0)] of [SortEndpoints] acts on a copy of
    the endpoint.  The second part is a whole run of [produce] that leads
    to this pair, with a generator that draws 0, 1, 0. *)
Theorem long_crossing_depth_not_zeroed :
  (c ← classify_and_assemble atan2_0 [0; 1; 2; 3; 4; 5] crossing_hits
         long_pair long_pair_hitpeakT long_pair_hit_idx;
   Ok (c_type c, map type (muon_tracks (c_products c)),
       map x2_pos (muon_tracks (c_products c))))
  = Ok ([0], [0], [(-150)%Q])
  ∧ (fo ← produce Uniform_010 intersect_all wire_ends_0 atan2_0 cfg_2
            (Some crossing_hits);
     Ok (muon_endpoints fo.1, muon_hitpeakT fo.1,
         map type (muon_tracks fo.2), map x2_pos (muon_tracks fo.2)))
    = Ok (long_pair, long_pair_hitpeakT, [0], [(-150)%Q]).
Proof. split; vm_compute; reflexivity. Qed.

(** The association loop visits the hits at positions [0 .. n-1]. *)
Lemma assn_loop_leading hitlist tracks (n k : nat) assn :
  (k + n ≤ length hitlist)%nat →
  assn_loop hitlist tracks (seq k n) assn
  = Ok (assn ++ map (λ i, (i, (length tracks - 1)%nat)) (seq k n)).
Proof.
  revert k assn. induction n as [|n IH]; intros k assn Hn; simpl.
  - by rewrite app_nil_r.
  - destruct (lookup_lt_is_Some_2 hitlist k ltac:(lia)) as [hk Hk].
    unfold idx_ at 1. rewrite Hk. simpl.
    rewrite IH by lia. unfold CreateAssn. by rewrite <- app_assoc.
Qed.

(** C2 (code defect).  The track built from a pair whose member list
    is [[5; 3]] (hits 5 and 3 of the hit collection) gets two
    associations, to the hits at positions 0 and 1: the loop passes
    [hitlist[hit_i]] for the loop counter [hit_i], not for the member it
    counts.  The second part is a whole run of [produce] that leads to
    this pair, with a generator that draws 0, 1, 0. *)
Theorem assn_links_counter_not_members :
  (c ← classify_and_assemble atan2_0 [0; 1; 2; 3; 4; 5] crossing_hits
         long_pair long_pair_hitpeakT long_pair_hit_idx;
   Ok (muon_tracks_assn (c_products c)))
  = Ok [(0, 0); (1, 0)]%nat
  ∧ (fo ← produce Uniform_010 intersect_all wire_ends_0 atan2_0 cfg_2
            (Some crossing_hits);
     Ok (muon_hit_idx fo.1, muon_tracks_assn fo.2))
    = Ok (long_pair_hit_idx, [(0, 0); (1, 0)]%nat).
Proof. split; vm_compute; reflexivity. Qed.

(** With a line in TPC 0, the hits of TPC 1 never reach its induction
    buckets, whatever [muon_in_tpc1] is. *)
Lemma fill_induction_tpc0_first muon_in_tpc1 hits i acc :
  i_hit_10 (fill_induction true muon_in_tpc1 hits i acc) = i_hit_10 acc
  ∧ i_hit_11 (fill_induction true muon_in_tpc1 hits i acc) = i_hit_11 acc.
Proof.
  revert i acc. induction hits as [|hit hits IH]; intros i acc; simpl; [done|].
  destruct (IH (S i)
    (if (Plane (WireID hit) =? 0) && (TPC (WireID hit) =? 0)
        && (int_of (PeakTime hit) >? 0)
     then mkInduction
            (i_hit_00 acc ++ [[Wire (WireID hit); int_of (PeakTime hit); Z.of_nat i]])
            (i_hit_01 acc) (i_hit_10 acc) (i_hit_11 acc)
     else if (Plane (WireID hit) =? 1) && (TPC (WireID hit) =? 0)
             && (int_of (PeakTime hit) >? 0)
     then mkInduction (i_hit_00 acc)
            (i_hit_01 acc ++ [[Wire (WireID hit); int_of (PeakTime hit); Z.of_nat i]])
            (i_hit_10 acc) (i_hit_11 acc)
     else acc)) as [-> ->].
  by repeat case_match.
Qed.

(** C4 (code defect).  When [muon_in_tpc0] and [muon_in_tpc1] are both
    set, the fill loop adds nothing to the induction buckets of TPC 1,
    whatever the hits are: it tests [muon_in_tpc1] in the [else] branch of
    [muon_in_tpc0].  The second part is a whole run of [produce], with a
    generator that draws 0, 1, 0, in which both collection buckets yield a
    line and the valid plane-0 hits 9-11 of TPC 1 reach no bucket. *)
Theorem secondary_buckets_tpc1_skipped :
  (∀ hits i acc,
     i_hit_10 (fill_induction true true hits i acc) = i_hit_10 acc
     ∧ i_hit_11 (fill_induction true true hits i acc) = i_hit_11 acc)
  ∧ (fo ← produce Uniform_010 intersect_all wire_ends_0 atan2_0 cfg_2
            (Some crossing_hits);
     Ok (lines_12 fo.1, hit_00 fo.1, hit_10 fo.1, hit_11 fo.1))
    = Ok ([[146; 2736; 100; 100; 8; 6; 2; 0; 871; 179]],
          [[200; 105; 0]; [223; 1423; 1]; [246; 2741; 2]], [], []).
Proof.
  split; [apply fill_induction_tpc0_first|]. vm_compute. reflexivity.
Qed.

(** C9.  When the hit collection is missing ([getByLabel] fails) or
    empty, [produce] returns normally: every bucket and every line list is
    empty, and an empty track collection and an empty association
    collection are put into the event. *)
Theorem produce_without_hits Uniform WireIDsIntersect WireEndPoints atan2 cfg :
  produce Uniform WireIDsIntersect WireEndPoints atan2 cfg None
  = Ok (no_fields, mkProducts [] [])
  ∧ produce Uniform WireIDsIntersect WireEndPoints atan2 cfg (Some [])
    = Ok (no_fields, mkProducts [] []).
Proof. split; reflexivity. Qed.

(** ** Merge pass *)

Lemma tail_kept_refl ol : tail_kept ol ol.
Proof. split; [done|]. intros n l' H Hne. eauto. Qed.

Lemma tail_kept_trans ol1 ol2 ol3 :
  tail_kept ol1 ol2 → tail_kept ol2 ol3 → tail_kept ol1 ol3.
Proof.
  intros [L1 H1] [L2 H2]. split; [congruence|].
  intros n l3 Hl3 Hne.
  destruct (H2 n l3 Hl3 Hne) as (l2 & Hl2 & Hne2 & E2).
  destruct (H1 n l2 Hl2 Hne2) as (l1 & Hl1 & Hne1 & E1).
  exists l1. repeat split; [done..|congruence].
Qed.

Lemma merge_write_drop k l a b c d lj :
  drop 4 (merge_write k l a b c d lj) = drop 4 lj.
Proof.
  unfold merge_write.
  destruct k, l; rewrite !drop_insert_lt by lia; reflexivity.
Qed.

Lemma merge_write_length k l a b c d lj :
  length (merge_write k l a b c d lj) = length lj.
Proof. unfold merge_write. destruct k, l; by rewrite !length_insert. Qed.

(** A merge of [i] into [j]: [j] written in its first four positions,
    [i] cleared. *)
Lemma tail_kept_merge ol i j lj lj' :
  ol !! j = Some lj → lj ≠ [] → drop 4 lj' = drop 4 lj →
  tail_kept ol (<[i := []]> (<[j := lj']> ol)).
Proof.
  intros Hj Hne Hd. split; [by rewrite !length_insert|].
  intros n l' Hn Hl'.
  destruct (decide (n = i)) as [->|Hni].
  { destruct (decide (i < length (<[j := lj']> ol))%nat) as [Hlt|Hge].
    - rewrite list_lookup_insert_eq in Hn by done. congruence.
    - rewrite list_insert_ge in Hn by lia.
      destruct (decide (i = j)) as [->|Hij].
      + rewrite length_insert in Hge. apply lookup_lt_Some in Hj. lia.
      + rewrite list_lookup_insert_ne in Hn by done. eauto. }
  rewrite list_lookup_insert_ne in Hn by done.
  destruct (decide (n = j)) as [->|Hnj].
  - rewrite list_lookup_insert_eq in Hn by (by eapply lookup_lt_Some).
    injection Hn as <-. eauto.
  - rewrite list_lookup_insert_ne in Hn by done. eauto.
Qed.

Lemma merge_ij_tail_kept save i j ol oh same ol' oh' :
  merge_ij save i j (ol, oh) = Ok (same, (ol', oh')) → tail_kept ol ol'.
Proof.
  unfold merge_ij. intros H.
  bind_inv H as li Hli. bind_inv H as lj Hlj. apply idx_Ok in Hlj.
  bind_inv H as xi0 Hxi0. bind_inv H as xi1 Hxi1.
  bind_inv H as xj0 Hxj0. bind_inv H as xj1 Hxj1.
  bind_inv H as yi0 Hyi0. bind_inv H as yi1 Hyi1.
  bind_inv H as yj0 Hyj0. bind_inv H as yj1 Hyj1.
  bind_inv H as rhoi Hrhoi. bind_inv H as rhoj Hrhoj.
  bind_inv H as thetai Hthetai. bind_inv H as thetaj Hthetaj.
  assert (lj ≠ []) as Hne.
  { intros ->. apply idx_Ok in Hxj0. discriminate. }
  destruct (List.find _ kl_order) as [[k l]|].
  - bind_inv H as ol2 Hol2. apply at_clear_Ok in Hol2 as [_ ->].
    assert (ol' = <[i:=[]]> (<[j:=merge_write k l xi0 yi0 xi1 yi1 lj]> ol)) as ->.
    { destruct save.
      - bind_inv H as hj Hhj. bind_inv H as hi Hhi. bind_inv H as oh2 Hoh2.
        by injection H as _ <- _.
      - by injection H as _ <- _. }
    eapply tail_kept_merge; eauto using merge_write_drop.
  - injection H as _ <- _. apply tail_kept_refl.
Qed.

Lemma merge_j_tail_kept save i js ol oh ol' oh' :
  merge_j save i js (ol, oh) = Ok (ol', oh') → tail_kept ol ol'.
Proof.
  revert ol oh. induction js as [|j js IH]; intros ol oh H; simpl in H.
  - injection H as <- _. apply tail_kept_refl.
  - bind_inv H as [same [ol1 oh1]] H1.
    apply merge_ij_tail_kept in H1.
    destruct same.
    + injection H as <- _. done.
    + eapply tail_kept_trans; eauto.
Qed.

Lemma merge_i_tail_kept save ns ol oh ol' oh' :
  merge_i save ns (ol, oh) = Ok (ol', oh') → tail_kept ol ol'.
Proof.
  revert ol oh. induction ns as [|i ns IH]; intros ol oh H; simpl in H.
  - injection H as <- _. apply tail_kept_refl.
  - bind_inv H as [ol1 oh1] H1.
    apply merge_j_tail_kept in H1.
    eapply tail_kept_trans; eauto.
Qed.

Lemma res_bind_Ok {A B} (a : A) (f : A → res B) : Ok a ≫= f = f a.
Proof. reflexivity. Qed.

Lemma at_lt {A} (v : list A) (i : nat) :
  (i < length v)%nat → ∃ a, v !! i = Some a ∧ at_ v i = Ok a.
Proof.
  intros Hi. destruct (lookup_lt_is_Some_2 v i Hi) as [a Ha].
  exists a. split; [done|]. by apply at_Ok.
Qed.

Lemma at_clear_lt {A} (v : list (list A)) (i : nat) :
  (i < length v)%nat → at_clear v i = Ok (<[i := []]> v).
Proof. intros Hi. by apply at_clear_Ok. Qed.

(** Splits a list of known length 10 into its entries. *)
Ltac list10 l H :=
  do 10 (destruct l as [|? l]; [discriminate H|]);
  destruct l; [clear H|discriminate H].

(** The body of the [j] loop on two complete lines. *)
Lemma merge_ij_eq save i j ol oh li lj :
  ol !! i = Some li → ol !! j = Some lj →
  length li = 10%nat → length lj = 10%nat →
  merge_ij save i j (ol, oh) =
  match List.find
          (λ kl : nat * nat,
             3 <=? counter (pick (nth 0 li 0) (nth 2 li 0) kl.1)
                           (pick (nth 1 li 0) (nth 3 li 0) kl.1)
                           (pick (nth 0 lj 0) (nth 2 lj 0) kl.2)
                           (pick (nth 1 lj 0) (nth 3 lj 0) kl.2)
                           (nth 8 li 0) (nth 8 lj 0) (nth 9 li 0) (nth 9 lj 0))
          kl_order with
  | None => Ok (false, (ol, oh))
  | Some (k, l) =>
    let ol1 := <[j := merge_write k l (nth 0 li 0) (nth 1 li 0)
                        (nth 2 li 0) (nth 3 li 0) lj]> ol in
    ol2 ← at_clear ol1 i;
    if save then
      hj ← at_ oh j;
      hi ← at_ oh i;
      oh2 ← at_clear (<[j := hj ++ hi]> oh) i;
      Ok (true, (ol2, oh2))
    else Ok (true, (ol2, oh))
  end.
Proof.
  intros Hi Hj Li Lj. list10 li Li. list10 lj Lj.
  unfold merge_ij.
  rewrite (proj2 (idx_Ok ol i _) Hi), (proj2 (idx_Ok ol j _) Hj). reflexivity.
Qed.

Lemma lines_from_merge i j ol lj lj' :
  (i < j)%nat → lines_from i ol → ol !! j = Some lj →
  length lj' = length lj →
  lines_from (S i) (<[i := []]> (<[j := lj']> ol)).
Proof.
  intros Hij Hol Hj Hlen n l Hn Hl.
  rewrite list_lookup_insert_ne in Hl by lia.
  destruct (decide (n = j)) as [->|Hnj].
  - rewrite list_lookup_insert_eq in Hl by (by eapply lookup_lt_Some).
    injection Hl as <-. rewrite Hlen. eapply Hol; [|done]. lia.
  - rewrite list_lookup_insert_ne in Hl by done. eapply Hol; [|done]. lia.
Qed.

Lemma merge_ij_total save i j ol oh :
  (i < j < length ol)%nat → lines_from i ol →
  (save = true → length oh = length ol) →
  ∃ same ol' oh',
    merge_ij save i j (ol, oh) = Ok (same, (ol', oh'))
    ∧ lines_from (if same : bool then S i else i) ol'
    ∧ length ol' = length ol
    ∧ (save = true → length oh' = length ol').
Proof.
  intros [Hij Hj] Hol Hoh.
  destruct (lookup_lt_is_Some_2 ol i ltac:(lia)) as [li Hli].
  destruct (lookup_lt_is_Some_2 ol j Hj) as [lj Hlj].
  rewrite (merge_ij_eq save i j ol oh li lj Hli Hlj)
    by (eapply Hol; [|done]; lia).
  destruct (List.find _ kl_order) as [[k l]|].
  - cbv zeta. rewrite at_clear_lt by (rewrite length_insert; lia).
    rewrite res_bind_Ok.
    assert (lines_from (S i)
              (<[i:=[]]> (<[j:=merge_write k l (nth 0 li 0) (nth 1 li 0)
                                  (nth 2 li 0) (nth 3 li 0) lj]> ol))) as Hnew.
    { eapply lines_from_merge; eauto using merge_write_length. }
    destruct save.
    + specialize (Hoh eq_refl).
      destruct (at_lt oh j ltac:(lia)) as (hj & _ & ->).
      destruct (at_lt oh i ltac:(lia)) as (hi & _ & ->).
      rewrite !res_bind_Ok.
      rewrite at_clear_lt by (rewrite length_insert; lia).
      rewrite res_bind_Ok.
      eexists _, _, _. split; [reflexivity|].
      split; [done|]. rewrite !length_insert. auto.
    + eexists _, _, _. split; [reflexivity|].
      split; [done|]. rewrite !length_insert. split; [done|discriminate].
  - eexists _, _, _. split; [reflexivity|]. auto.
Qed.

Lemma merge_j_total save i js ol oh :
  (∀ j, j ∈ js → (i < j < length ol)%nat) → lines_from i ol →
  (save = true → length oh = length ol) →
  ∃ ol' oh',
    merge_j save i js (ol, oh) = Ok (ol', oh')
    ∧ lines_from (S i) ol'
    ∧ length ol' = length ol
    ∧ (save = true → length oh' = length ol').
Proof.
  revert ol oh. induction js as [|j js IH]; intros ol oh Hjs Hol Hoh;
    cbn [merge_j].
  - eexists _, _. split; [reflexivity|]. split; [|done].
    intros n l Hn. apply Hol. lia.
  - destruct (merge_ij_total save i j ol oh) as (same & ol1 & oh1 & -> & H1 & L1 & O1);
      [apply Hjs; left|done..|].
    rewrite res_bind_Ok. destruct same.
    + eexists _, _. split; [reflexivity|]. auto.
    + destruct (IH ol1 oh1) as (ol' & oh' & -> & H2 & L2 & O2); [|done..|].
      { intros j' Hj'. rewrite L1. apply Hjs. by right. }
      eexists _, _. split; [reflexivity|]. repeat split; [done|congruence|done].
Qed.

Lemma merge_i_total save m i ol oh :
  (i + m = length ol)%nat → lines_from i ol →
  (save = true → length oh = length ol) →
  ∃ ol' oh', merge_i save (seq i m) (ol, oh) = Ok (ol', oh')
             ∧ (save = true → length oh' = length ol').
Proof.
  revert i ol oh. induction m as [|m IH]; intros i ol oh Hm Hol Hoh;
    cbn [merge_i seq fst].
  - eauto.
  - destruct (merge_j_total save i (seq (S i) (length ol - S i)) ol oh)
      as (ol1 & oh1 & -> & H1 & L1 & O1); [|done..|].
    { intros j Hj. apply elem_of_seq in Hj. lia. }
    rewrite res_bind_Ok. apply IH; [lia|done..].
Qed.

(** C10.  On complete lines the merge pass returns, keeps the number of
    lines, and every line that is not voided keeps, from position 4 on
    (endpoint hit indices, endpoint data indices, rho and theta), the
    values it had before the pass: a merge writes positions 0-3 of the
    surviving line only. *)
Theorem merge_pass_keeps_positions_4_to_9 save (ol oh : list (list Z)) :
  Forall (λ l, length l = 10%nat) ol →
  (save = true → length oh = length ol) →
  ∃ ol' oh',
    merge_pass save (ol, oh) = Ok (ol', oh')
    ∧ length ol' = length ol
    ∧ ∀ j l', ol' !! j = Some l' → l' ≠ [] →
        ∃ l, ol !! j = Some l ∧ drop 4 l' = drop 4 l.
Proof.
  intros Hol Hoh.
  destruct (merge_i_total save (length ol) 0 ol oh) as (ol' & oh' & Hm & _);
    [done| |done|].
  { intros n l _ Hl. by eapply Forall_lookup_1 in Hol. }
  exists ol', oh'. split; [exact Hm|].
  apply merge_i_tail_kept in Hm as [L H]. split; [done|].
  intros j l' Hj Hne. destruct (H j l' Hj Hne) as (l & ? & _ & ?). eauto.
Qed.

Lemma merge_pass_keeps_positions_4_to_9_witness :
  ∃ ol' oh',
    merge_pass true (split_outlines, split_outhit_idx) = Ok (ol', oh')
    ∧ length ol' = length split_outlines
    ∧ ∀ j l', ol' !! j = Some l' → l' ≠ [] →
        ∃ l, split_outlines !! j = Some l ∧ drop 4 l' = drop 4 l.
Proof.
  apply (merge_pass_keeps_positions_4_to_9 true split_outlines split_outhit_idx).
  - repeat constructor.
  - reflexivity.
Defined.

(** C5 (code defect).  Endpoint 1 of the first segment, (500, 600), is
    within the tolerances of endpoint 0 of the second, (520, 620).  The
    pass voids the first segment and appends its members to the second,
    but it overwrites the other endpoint of the second segment,
    (1000, 1100), with the matched endpoint (500, 600) of the first: the
    survivor is the short segment (520, 620)-(500, 600) across the gap,
    not the joined segment from (10, 100) to (1000, 1100).  With a
    minimum length of 500 the survivor is then dropped by the length
    filter, which either segment alone would pass. *)
Theorem merge_overwrites_far_endpoint :
  merge_pass true (split_outlines, split_outhit_idx)
  = Ok ([ []; [520; 620; 500; 600; 3; 4; 6; 9; 40; 135] ],
        [ []; [3; 4; 1; 2] ])
  ∧ filter_loop 500 0 true
      [ []; [520; 620; 500; 600; 3; 4; 6; 9; 40; 135] ] [ []; [3; 4; 1; 2] ]
      [0; 1]%nat ([], [])
    = Ok ([], [])
  ∧ filter_loop 500 0 true split_outlines split_outhit_idx [0; 1]%nat ([], [])
    = Ok (split_outlines, split_outhit_idx).
Proof. repeat split; vm_compute; reflexivity. Qed.

(** ** Endpoint matcher *)

Lemma live_lines_clear (ol : list (list Z)) i lc :
  ol !! i = Some lc → lc ≠ [] →
  (live_lines (<[i := []]> ol) + 1 = live_lines ol)%nat.
Proof.
  unfold live_lines. revert i.
  induction ol as [|l ol IH]; intros i Hi Hne; [done|].
  destruct i as [|i]; simpl in Hi.
  - injection Hi as ->. simpl.
    rewrite filter_cons_False by (intros ?; done).
    rewrite filter_cons_True by done. simpl. lia.
  - simpl. specialize (IH i Hi Hne).
    destruct (decide (l ≠ [])).
    + rewrite !filter_cons_True by done. simpl. lia.
    + rewrite !filter_cons_False by done. lia.
Qed.

Lemma matcher_step_refl st : matcher_step st st.
Proof.
  split; [done|]. split; [auto|].
  exists []. rewrite app_nil_r. split; [done|]. split; [constructor|done].
Qed.

Lemma matcher_step_trans st1 st2 st3 :
  matcher_step st1 st2 → matcher_step st2 st3 → matcher_step st1 st3.
Proof.
  intros (L1 & C1 & new1 & E1 & F1 & K1) (L2 & C2 & new2 & E2 & F2 & K2).
  split; [congruence|]. split.
  - intros n. destruct (C2 n) as [-> | ->]; auto.
  - exists (new1 ++ new2). rewrite E2, E1, <- app_assoc.
    split; [done|]. split; [by apply Forall_app|].
    rewrite length_app. lia.
Qed.

Section Matcher.

Variable WireIDsIntersect : WireID_t → WireID_t → Point_t → bool * Point_t.
Variable WireEndPoints : WireID_t → (Q * Q * Q) * (Q * Q * Q).

Local Abbreviation match_ij' := (match_ij WireIDsIntersect WireEndPoints).
Local Abbreviation match_j' := (match_j WireIDsIntersect WireEndPoints).
Local Abbreviation match_i' := (match_i WireIDsIntersect WireEndPoints).
Local Abbreviation match_loop' := (match_loop WireIDsIntersect WireEndPoints).
Local Abbreviation FindEndpoints' :=
  (FindEndpoints WireIDsIntersect WireEndPoints).

Lemma match_ij_step hit_idx range hitlist lines_ind i j st matched st' :
  match_ij' hit_idx range hitlist lines_ind i j st = Ok (matched, st') →
  matcher_step st st'.
Proof.
  unfold match_ij. intros H.
  bind_inv H as lc Hlc. apply at_Ok in Hlc.
  bind_inv H as lc1 Hlc1. bind_inv H as lc3 Hlc3.
  bind_inv H as lc4 Hlc4. bind_inv H as lc5 Hlc5.
  bind_inv H as li Hli.
  bind_inv H as li1 Hli1. bind_inv H as li3 Hli3.
  bind_inv H as li4 Hli4. bind_inv H as li5 Hli5.
  assert (lc ≠ []) as Hne.
  { intros ->. apply at_Ok in Hlc1. discriminate. }
  cbv zeta in H.
  destruct (_ && _) in H; [|injection H as _ <-; apply matcher_step_refl].
  bind_inv H as awire_col Hac. bind_inv H as awire_ind Hai.
  bind_inv H as cwire_col Hcc. bind_inv H as cwire_ind Hci.
  destruct (negb (Qeq_bool (Mag2 _) 0) && negb (Qeq_bool (Mag2 _) 0)) eqn:Hmag in H;
    [|injection H as _ <-; apply matcher_step_refl].
  bind_inv H as indices Hidx. bind_inv H as lines_col' Hclr.
  apply at_clear_Ok in Hclr as [Hi ->].
  injection H as _ <-. unfold matcher_step. simpl.
  apply andb_true_iff in Hmag as [M1 M2].
  apply negb_true_iff in M1, M2.
  split; [by rewrite length_insert|]. split.
  - intros n. destruct (decide (n = i)) as [->|Hn].
    + right. by apply list_lookup_insert_eq.
    + left. by apply list_lookup_insert_ne.
  - eexists [_]. split; [reflexivity|]. split.
    + constructor; [|constructor]. eexists _, _. split; [reflexivity|].
      split; intros E; apply Qeq_bool_iff in E; congruence.
    + simpl. pose proof (live_lines_clear _ _ _ Hlc Hne). lia.
Qed.

Lemma match_j_step hit_idx range hitlist lines_ind i js st st' :
  match_j' hit_idx range hitlist lines_ind i js st = Ok st' →
  matcher_step st st'.
Proof.
  revert st. induction js as [|j js IH]; intros st H; simpl in H.
  - injection H as <-. apply matcher_step_refl.
  - bind_inv H as [matched st1] H1. apply match_ij_step in H1.
    destruct matched.
    + by injection H as <-.
    + eapply matcher_step_trans; eauto.
Qed.

Lemma match_i_step hit_idx range hitlist lines_ind i st st' :
  match_i' hit_idx range hitlist lines_ind i st = Ok st' →
  matcher_step st st'.
Proof.
  unfold match_i. intros H. bind_inv H as lc Hlc.
  destruct (empty lc).
  - injection H as <-. apply matcher_step_refl.
  - by eapply match_j_step.
Qed.

Lemma match_loop_step hit_idx range hitlist lines_ind ns st st' :
  match_loop' hit_idx range hitlist lines_ind ns st = Ok st' →
  matcher_step st st'.
Proof.
  revert st. induction ns as [|i ns IH]; intros st H; simpl in H.
  - injection H as <-. apply matcher_step_refl.
  - bind_inv H as st1 H1. apply match_i_step in H1.
    eapply matcher_step_trans; eauto.
Qed.

Lemma FindEndpoints_step lines_ind hit_idx range hitlist st st' :
  FindEndpoints' lines_ind hit_idx range hitlist st = Ok st' →
  matcher_step st st'.
Proof.
  unfold FindEndpoints. destruct (negb (empty lines_ind)).
  - apply match_loop_step.
  - intros [= <-]. apply matcher_step_refl.
Qed.

(** A cleared primary line is skipped. *)
Lemma match_i_cleared hit_idx range hitlist lines_ind i st :
  e_lines_col st !! i = Some [] →
  match_i' hit_idx range hitlist lines_ind i st = Ok st.
Proof. intros H. unfold match_i. by rewrite (proj2 (at_Ok _ _ _) H). Qed.

Lemma primary_ok_step nhits hit_idx st st' :
  matcher_step st st' →
  primary_ok nhits hit_idx (e_lines_col st) →
  primary_ok nhits hit_idx (e_lines_col st').
Proof.
  intros (L & C & _) [F Hlen]. split; [|lia].
  apply Forall_lookup_2. intros n l Hn.
  destruct (C n) as [E|E]; rewrite E in Hn.
  - by eapply Forall_lookup_1 in F.
  - injection Hn as <-. by left.
Qed.

Lemma hit_wire_at_ok (hitlist : list Hit) (n : Z) :
  0 <= n < Z.of_nat (length hitlist) → ∃ wid, hit_wire_at hitlist n = Ok wid.
Proof.
  intros Hn. unfold hit_wire_at.
  destruct (n <? 0) eqn:E; [lia|].
  destruct (lookup_lt_is_Some_2 hitlist (Z.to_nat n) ltac:(lia)) as [hit Hh].
  rewrite (proj2 (idx_Ok _ _ _) Hh). simpl. eauto.
Qed.

Lemma match_ij_total hit_idx range hitlist lines_ind i j st lc li :
  e_lines_col st !! i = Some lc → line_ok (length hitlist) lc →
  lines_ind !! j = Some li → line_ok (length hitlist) li →
  (i < length hit_idx)%nat →
  ∃ r, match_ij' hit_idx range hitlist lines_ind i j st = Ok r.
Proof.
  intros Hlc (Lc & Hc4 & Hc5) Hli (Li & Hi4 & Hi5) Hi.
  unfold match_ij.
  rewrite (proj2 (at_Ok _ _ _) Hlc), (proj2 (at_Ok _ _ _) Hli).
  list10 lc Lc. list10 li Li. simpl in Hc4, Hc5, Hi4, Hi5. simpl.
  destruct (_ && _); [|eauto].
  assert (∀ (b : bool) x y,
            0 <= x < Z.of_nat (length hitlist) →
            0 <= y < Z.of_nat (length hitlist) →
            ∃ wid, hit_wire_at hitlist (if b then x else y) = Ok wid) as Hw.
  { intros [] x y Hx Hy; by apply hit_wire_at_ok. }
  destruct (Hw (z0 <? z2) z3 z4 Hc4 Hc5) as [w1 ->].
  destruct (Hw (z10 <? z12) z13 z14 Hi4 Hi5) as [w2 ->].
  destruct (Hw (z0 <? z2) z4 z3 Hc5 Hc4) as [w3 ->].
  destruct (Hw (z10 <? z12) z14 z13 Hi5 Hi4) as [w4 ->].
  simpl. destruct (_ && _); [|eauto].
  destruct (at_lt hit_idx i Hi) as (indices & _ & ->). simpl.
  rewrite at_clear_lt by (by eapply lookup_lt_Some). simpl. eauto.
Qed.

Lemma match_ij_unmatched hit_idx range hitlist lines_ind i j st st' :
  match_ij' hit_idx range hitlist lines_ind i j st = Ok (false, st') →
  st' = st.
Proof.
  unfold match_ij. intros H.
  bind_inv H as lc Hlc.
  bind_inv H as lc1 Hlc1. bind_inv H as lc3 Hlc3.
  bind_inv H as lc4 Hlc4. bind_inv H as lc5 Hlc5.
  bind_inv H as li Hli.
  bind_inv H as li1 Hli1. bind_inv H as li3 Hli3.
  bind_inv H as li4 Hli4. bind_inv H as li5 Hli5.
  cbv zeta in H.
  destruct (_ && _) in H; [|by injection H as <-].
  bind_inv H as awire_col Hac. bind_inv H as awire_ind Hai.
  bind_inv H as cwire_col Hcc. bind_inv H as cwire_ind Hci.
  destruct (_ && _) in H; [|by injection H as <-].
  bind_inv H as indices Hidx. bind_inv H as lines_col' Hclr.
  discriminate H.
Qed.

Lemma match_j_total hit_idx range hitlist lines_ind i js st lc :
  e_lines_col st !! i = Some lc → line_ok (length hitlist) lc →
  Forall (line_ok (length hitlist)) lines_ind →
  (∀ j, j ∈ js → (j < length lines_ind)%nat) →
  (i < length hit_idx)%nat →
  ∃ st', match_j' hit_idx range hitlist lines_ind i js st = Ok st'.
Proof.
  intros Hlc Hok Hind Hjs Hi.
  induction js as [|j js IH]; simpl; [eauto|].
  destruct (lookup_lt_is_Some_2 lines_ind j) as [li Hli]; [apply Hjs; left|].
  destruct (match_ij_total hit_idx range hitlist lines_ind i j st lc li)
    as [[matched st1] H1]; [done| done | done | by eapply Forall_lookup_1 in Hind | done |].
  rewrite H1. simpl. destruct matched; [eauto|].
  apply match_ij_unmatched in H1 as ->.
  apply IH. intros j' Hj'. apply Hjs. by right.
Qed.

Lemma match_i_total hit_idx range hitlist lines_ind i st :
  primary_ok (length hitlist) hit_idx (e_lines_col st) →
  Forall (line_ok (length hitlist)) lines_ind →
  (i < length (e_lines_col st))%nat →
  ∃ st', match_i' hit_idx range hitlist lines_ind i st = Ok st'.
Proof.
  intros [F Hlen] Hind Hi. unfold match_i.
  destruct (at_lt (e_lines_col st) i Hi) as (lc & Hlc & ->). simpl.
  destruct lc as [|c lc'] eqn:E; simpl; [eauto|]. rewrite <- E in *.
  eapply match_j_total; eauto.
  - eapply Forall_lookup_1 in F as [?|?]; [|done..]. congruence.
  - intros j Hj. apply elem_of_seq in Hj. lia.
  - lia.
Qed.

Lemma match_loop_total hit_idx range hitlist lines_ind ns st :
  primary_ok (length hitlist) hit_idx (e_lines_col st) →
  Forall (line_ok (length hitlist)) lines_ind →
  (∀ i, i ∈ ns → (i < length (e_lines_col st))%nat) →
  ∃ st', match_loop' hit_idx range hitlist lines_ind ns st = Ok st'.
Proof.
  intros Hp Hind. revert st Hp.
  induction ns as [|i ns IH]; intros st Hp Hns; simpl; [eauto|].
  destruct (match_i_total hit_idx range hitlist lines_ind i st) as [st1 H1];
    [done..|apply Hns; left|].
  rewrite H1. simpl. apply match_i_step in H1.
  apply IH.
  - by eapply primary_ok_step.
  - intros i' Hi'. destruct H1 as [-> _]. apply Hns. by right.
Qed.

End Matcher.

(** ** Hough: votes below the threshold *)

Lemma vote_loop_below x y js vs vs' n :
  vote_loop x y js vs = Ok vs' →
  NoDup js →
  accu_le (v_accu vs) (n + 1) →
  (∀ r j, j ∈ js → v_accu vs r j <= n) →
  n + 1 <= v_max_val vs →
  v_max_val vs' = v_max_val vs ∧ v_rho vs' = v_rho vs
  ∧ v_theta vs' = v_theta vs ∧ accu_le (v_accu vs') (n + 1).
Proof.
  revert vs. induction js as [|j js IH]; intros vs H Hnd Hall Hjs Hmax;
    simpl in H.
  - by injection H as <-.
  - bind_inv H as vs1 H1. apply NoDup_cons in Hnd as [Hj Hnd].
    unfold vote_step in H1.
    destruct (in_accu (rho_of x y j) j); [|discriminate].
    assert (v_accu vs (rho_of x y j) j <= n) as Hcell by (apply Hjs; left).
    destruct (v_max_val vs <? v_accu vs (rho_of x y j) j + 1) eqn:E; [lia|].
    injection H1 as <-.
    destruct (IH _ H Hnd) as (-> & -> & -> & Hle); simpl; [| |done|done].
    + intros r j'. unfold accu_add.
      destruct ((r =? rho_of x y j) && (j' =? j)) eqn:E2; [|apply Hall].
      apply andb_true_iff in E2 as [->%Z.eqb_eq ->%Z.eqb_eq]. lia.
    + intros r j' Hj'. unfold accu_add.
      destruct ((r =? rho_of x y j) && (j' =? j)) eqn:E2;
        [|apply Hjs; by right].
      apply andb_true_iff in E2 as [_ ->%Z.eqb_eq]. done.
Qed.

Lemma accu_le_mono a n m : accu_le a n → n <= m → accu_le a m.
Proof. intros H Hnm r j. specialize (H r j). lia. Qed.

Section HoughBelow.

Variable Uniform : nat → nat → nat.

Lemma Hough_iter_below thr gap range save count st st' n :
  Hough_iter Uniform thr gap range save count st = Ok st' →
  accu_le (accu st) n → n + 2 <= thr →
  accu_le (accu st') (n + 1)
  ∧ outlines st' = outlines st ∧ outhit_idx st' = outhit_idx st.
Proof.
  unfold Hough_iter. intros H Hle Hthr.
  bind_inv H as pt Hpt.
  destruct (empty pt).
  { injection H as <-. split; [|done]. eapply accu_le_mono; [done|lia]. }
  bind_inv H as [x y] Hxy. bind_inv H as vs Hvs.
  apply (vote_loop_below _ _ _ _ _ n) in Hvs as (Hmax & _ & _ & Hle');
    [|apply NoDup_seqZ|simpl; eapply accu_le_mono; [done|lia]
     |intros; apply Hle|simpl; lia].
  simpl in Hmax. rewrite Hmax in H.
  destruct (thr - 1 <? thr) eqn:E; [|lia].
  bind_inv H as coords' Hc. by injection H as <-.
Qed.

Lemma Hough_loop_below thr gap range save count st st' n :
  Hough_loop Uniform thr gap range save count st = Ok st' →
  accu_le (accu st) n → n + Z.of_nat count < thr →
  outlines st' = outlines st ∧ outhit_idx st' = outhit_idx st.
Proof.
  revert st n. induction count as [|c IH]; intros st n H Hle Hthr;
    cbn [Hough_loop] in H.
  - by injection H as <-.
  - bind_inv H as st1 H1.
    apply (Hough_iter_below _ _ _ _ _ _ _ n) in H1 as (Hle1 & <- & <-);
      [|done|lia].
    eapply IH; [done..|lia].
Qed.

(** With fewer points than the threshold, [Hough] adds no line: if it
    returns, [lines] and [hit_idx] are as they were. *)
Lemma Hough_below_returns coords0 thr gap range minl muonl save
    lines hit_idx r :
  Z.of_nat (length coords0) < thr →
  Hough Uniform coords0 [thr; gap; range; minl; muonl] save lines hit_idx
  = Ok r →
  r = (lines, hit_idx).
Proof.
  intros Hthr H. unfold Hough in H. simpl in H.
  bind_inv H as st Hst.
  apply (Hough_loop_below _ _ _ _ _ _ _ 0) in Hst as [Hol Hoh];
    [|done|lia].
  simpl in Hol, Hoh. rewrite Hol, Hoh in H. simpl in H. by injection H as <-.
Qed.

End HoughBelow.

(** ** Hough: accumulator accesses inside the coordinate domain *)

Lemma trig_table_ok : forallb trig_ok (seqZ 0 accu_w) = true.
Proof. vm_compute. reflexivity. Qed.

Lemma trig_bounds j :
  0 <= j < accu_w →
  Z.abs (cos_num j) <= trig_den ∧ 0 <= sin_num j <= trig_den.
Proof.
  intros Hj. pose proof trig_table_ok as H.
  rewrite forallb_forall in H. specialize (H j).
  unfold trig_ok in H. rewrite !andb_true_iff, !Z.leb_le in H.
  destruct H as [[? ?] ?]; [|done].
  apply list_elem_of_In, elem_of_seqZ. lia.
Qed.

Lemma round_div_bound n d B :
  0 < d → 0 <= B → Z.abs n <= B * d → Z.abs (round_div n d) <= B.
Proof.
  intros Hd HB Hn. unfold round_div.
  assert (∀ m, 0 <= m <= B * d → 0 <= (2 * m + d) / (2 * d) <= B) as Hq.
  { intros m Hm. split; [apply Z.div_pos; lia|].
    apply Z.lt_succ_r, Z.div_lt_upper_bound; nia. }
  destruct (0 <=? n) eqn:E.
  - specialize (Hq n). lia.
  - specialize (Hq (- n)). lia.
Qed.

Lemma rho_of_in_accu x y j :
  in_domain x y → 0 <= j < accu_w → in_accu (rho_of x y j) j = true.
Proof.
  intros [Hx Hy] Hj. destruct (trig_bounds j Hj) as [Hc Hs].
  assert (Z.abs (rho_of x y j) <= 2750) as Hr.
  { unfold rho_of. apply round_div_bound; [done|lia|].
    unfold x_c, y_c, in_domain, w, h in *.
    change (2000 / 2) with 1000. change (3500 / 2) with 1750.
    pose proof (Z.abs_triangle ((x - 1000) * cos_num j)
                  ((y - 1750) * sin_num j)) as Ht.
    rewrite !Z.abs_mul in Ht.
    assert (Z.abs (x - 1000) * Z.abs (cos_num j) <= 1000 * trig_den)
      by (apply Z.mul_le_mono_nonneg; lia).
    assert (Z.abs (y - 1750) * Z.abs (sin_num j) <= 1750 * trig_den)
      by (apply Z.mul_le_mono_nonneg; lia).
    lia. }
  unfold in_accu, accu_h, accu_w, h, w in *.
  change ((3500 + 2000 + 1 - 1) / 2) with 2750.
  rewrite !andb_true_iff, !Z.leb_le, Z.ltb_lt. lia.
Qed.

Lemma vote_loop_total x y js vs :
  in_domain x y → (∀ j, j ∈ js → 0 <= j < accu_w) →
  ∃ vs', vote_loop x y js vs = Ok vs'.
Proof.
  intros Hxy. revert vs. induction js as [|j js IH]; intros vs Hjs; simpl;
    [eauto|].
  unfold vote_step. rewrite rho_of_in_accu by (done || apply Hjs; left).
  destruct (_ <? _); simpl; apply IH; intros j' Hj'; apply Hjs; by right.
Qed.

Lemma unvote_point_total x y ms a :
  in_domain x y → (∀ m, m ∈ ms → 0 <= m < accu_w) →
  ∃ a', unvote_point x y ms a = Ok a'.
Proof.
  intros Hxy. revert a. induction ms as [|m ms IH]; intros a Hms; simpl;
    [eauto|].
  rewrite rho_of_in_accu by (done || apply Hms; left).
  apply IH. intros m' Hm'. apply Hms. by right.
Qed.

Lemma unvote_loop_total rho theta range d a :
  deaccu_ok d →
  ∃ d' a', unvote_loop rho theta range d a = Ok (d', a') ∧ deaccu_ok d'.
Proof.
  intros Hd. induction Hd as [|p d (x & y & -> & Hxy) Hd IH];
    cbn [unvote_loop].
  - eexists _, _. split; [reflexivity|constructor].
  - destruct IH as (d' & a' & -> & Hd').
    rewrite res_bind_Ok. cbn [point2]. rewrite res_bind_Ok.
    destruct (in_corridor rho theta range x y).
    + destruct (unvote_point_total x y (seqZ 0 accu_w) a' Hxy) as [a'' ->].
      { intros m Hm. apply elem_of_seqZ in Hm. lia. }
      rewrite res_bind_Ok. eauto.
    + eexists _, _. split; [reflexivity|]. constructor; eauto.
Qed.

(** ** Hough: what the point loop clears *)

Lemma only_cleared_refl v : only_cleared v v.
Proof. split; auto. Qed.

Lemma only_cleared_trans v1 v2 v3 :
  only_cleared v1 v2 → only_cleared v2 v3 → only_cleared v1 v3.
Proof.
  intros [L1 H1] [L2 H2]. split; [congruence|].
  intros p. destruct (H2 p) as [-> | ->]; auto.
Qed.

Lemma only_cleared_insert v i : only_cleared v (<[i := []]> v).
Proof.
  split; [apply length_insert|]. intros p.
  destruct (decide (p = i)) as [->|Hp].
  - destruct (decide (i < length v)%nat).
    + right. by apply list_lookup_insert_eq.
    + left. by rewrite list_insert_ge by lia.
  - left. by apply list_lookup_insert_ne.
Qed.

Lemma only_cleared_stays v v' p :
  only_cleared v v' → v !! p = Some [] → v' !! p = Some [].
Proof. intros [_ H] Hp. destruct (H p) as [-> | ->]; done. Qed.

Lemma only_cleared_live v v' p pt :
  only_cleared v v' → v' !! p = Some pt → pt ≠ [] → v !! p = Some pt.
Proof. intros [_ H] Hp Hne. destruct (H p) as [E|E]; congruence. Qed.

Lemma bucket_ok_cleared v v' :
  only_cleared v v' → bucket_ok v → bucket_ok v'.
Proof.
  intros [_ H] Hv. apply Forall_lookup_2. intros p pt Hp.
  destruct (H p) as [E|E]; rewrite E in Hp.
  - by eapply Forall_lookup_1 in Hv.
  - injection Hp as <-. by left.
Qed.

Lemma point3_Ok pt x y s :
  point3 pt = Ok (x, y, s) → ∃ rest, pt = x :: y :: s :: rest.
Proof.
  destruct pt as [|? [|? [|? rest]]]; simpl; try discriminate.
  intros [= -> -> ->]. eauto.
Qed.

(** One direction of the corridor walk: entries are only cleared; the
    members appended and the endpoint, when it moves, are points that
    the walk cleared in both vectors. *)
Lemma walk_spec max_gap range rho theta save positions gap ws ws' :
  walk max_gap range rho theta save positions gap ws = Ok ws' →
  only_cleared (w_coords ws) (w_coords ws')
  ∧ only_cleared (w_data ws) (w_data ws')
  ∧ (∃ new, w_lines_idx ws' = w_lines_idx ws ++ new
            ∧ Forall (consumed (w_data ws) (w_coords ws') (w_data ws')) new)
  ∧ (w_endpoint ws' = w_endpoint ws
     ∨ endpoint_consumed (w_data ws) (w_coords ws') (w_data ws')
         (w_endpoint ws')).
Proof.
  revert gap ws. induction positions as [|p rest IH]; intros gap ws H;
    cbn [walk] in H.
  { assert (ws' = ws) as -> by (destruct (gap <? max_gap); congruence).
    repeat split; [apply only_cleared_refl..| |by left].
    exists []. by rewrite app_nil_r. }
  destruct (gap <? max_gap); cycle 1.
  { injection H as <-.
    repeat split; [apply only_cleared_refl..| |by left].
    exists []. by rewrite app_nil_r. }
  bind_inv H as pt Hpt. apply at_Ok in Hpt.
  destruct (empty pt); [by eapply IH|].
  bind_inv H as [[x1 y1] wire_idx] Hp3. apply point3_Ok in Hp3 as [tl ->].
  destruct (w_endpoint ws) as [[[last_x ?] ?] ?] eqn:Hep.
  destruct (negb (last_x =? 0) && (Z.abs (last_x - x1) >? 30)).
  { injection H as <-. rewrite Hep.
    repeat split; [apply only_cleared_refl..| |by left].
    exists []. by rewrite app_nil_r. }
  destruct (in_range rho theta range x1 y1); [|rewrite <- Hep; by eapply IH].
  bind_inv H as coords' Hc. apply at_clear_Ok in Hc as [Hpc ->].
  bind_inv H as data' Hd. apply at_clear_Ok in Hd as [Hpd ->].
  apply IH in H as (Hoc & Hod & (new & Hnew & Hcons) & Hend).
  cbn [w_coords w_data w_lines_idx w_endpoint] in *.
  assert (only_cleared (w_coords ws) (w_coords ws')) as Hoc'
    by (eapply only_cleared_trans; [apply only_cleared_insert|done]).
  assert (only_cleared (w_data ws) (w_data ws')) as Hod'
    by (eapply only_cleared_trans; [apply only_cleared_insert|done]).
  assert (consumed_at (w_data ws) (w_coords ws') (w_data ws') p x1 y1 wire_idx)
    as Hhere.
  { split; [eauto|]. split.
    - apply (only_cleared_stays _ _ _ Hoc). by apply list_lookup_insert_eq.
    - apply (only_cleared_stays _ _ _ Hod). by apply list_lookup_insert_eq. }
  assert (∀ q x y s,
            consumed_at (<[p:=[]]> (w_data ws)) (w_coords ws') (w_data ws') q x y s →
            consumed_at (w_data ws) (w_coords ws') (w_data ws') q x y s)
    as Hlift.
  { intros q x y s ([tl' Hq] & ? & ?). split; [|done]. exists tl'.
    eapply only_cleared_live; [apply only_cleared_insert|done..]. }
  split; [done|]. split; [done|]. split.
  - exists ((if save then [wire_idx] else []) ++ new). split.
    + rewrite Hnew. destruct save; by rewrite <- ?app_assoc, ?app_nil_r.
    + apply Forall_app. split.
      * destruct save; constructor; [|constructor]. by exists p, x1, y1.
      * eapply Forall_impl; [done|]. intros s (q & x & y & Hq).
        exists q, x, y. by apply Hlift.
  - right. destruct Hend as [-> | (q & x & y & s & -> & Hq)].
    + by exists p, x1, y1, wire_idx.
    + exists q, x, y, s. split; [done|]. by apply Hlift.
Qed.

Lemma consumed_at_stays v0 v v' u u' p x y s :
  consumed_at v0 v v' p x y s → only_cleared v u → only_cleared v' u' →
  consumed_at v0 u u' p x y s.
Proof.
  intros (H0 & H1 & H2) Hu Hu'. split; [done|].
  split; eapply only_cleared_stays; eauto.
Qed.

Lemma consumed_at_base v0 u v v' p x y s :
  consumed_at u v v' p x y s → only_cleared v0 u →
  consumed_at v0 v v' p x y s.
Proof.
  intros ([tl H0] & H1 & H2) Hu. split; [|done]. exists tl.
  eapply only_cleared_live; eauto.
Qed.

Lemma consumed_move v0 u v v' w w' s :
  consumed u v v' s → only_cleared v0 u → only_cleared v w →
  only_cleared v' w' → consumed v0 w w' s.
Proof.
  intros (p & x & y & H) H0 H1 H2. exists p, x, y.
  eapply consumed_at_stays; [eapply consumed_at_base|..]; eauto.
Qed.

Lemma endpoint_consumed_move v0 u v v' w w' e :
  endpoint_consumed u v v' e → only_cleared v0 u → only_cleared v w →
  only_cleared v' w' → endpoint_consumed v0 w w' e.
Proof.
  intros (p & x & y & s & -> & H) H0 H1 H2. exists p, x, y, s.
  split; [done|].
  eapply consumed_at_stays; [eapply consumed_at_base|..]; eauto.
Qed.

Lemma line_consumed_move v0 u v v' w w' l :
  line_consumed u v v' l → only_cleared v0 u → only_cleared v w →
  only_cleared v' w' → line_consumed v0 w w' l.
Proof.
  intros (e0 & e1 & rho & theta & -> & H0 & H1) Hu Hv Hw.
  exists e0, e1, rho, theta.
  split; [done|]. split; eapply endpoint_consumed_move; eauto.
Qed.

Section HoughCopy.

Variable Uniform : nat → nat → nat.

(** One iteration of the point loop: entries are only cleared, and the
    iteration either leaves the lines as they are or appends one line,
    with its members when [save_hits] is set, all of them points the
    iteration cleared. *)
Lemma Hough_iter_spec thr gap range save count st st' :
  Hough_iter Uniform thr gap range save count st = Ok st' →
  only_cleared (coords st) (coords st')
  ∧ only_cleared (data st) (data st')
  ∧ (outlines st' = outlines st ∧ outhit_idx st' = outhit_idx st
     ∨ ∃ line m,
         outlines st' = outlines st ++ [line]
         ∧ outhit_idx st'
           = (if save then outhit_idx st ++ [m] else outhit_idx st)
         ∧ line_consumed (data st) (coords st') (data st') line
         ∧ Forall (consumed (data st) (coords st') (data st')) m).
Proof.
  unfold Hough_iter. intros H.
  bind_inv H as pt Hpt.
  destruct (empty pt).
  { injection H as <-. repeat split; [apply only_cleared_refl..|by left]. }
  bind_inv H as [x y] Hxy. bind_inv H as vs Hvs.
  destruct (v_max_val vs <? thr).
  { bind_inv H as coords' Hc. apply at_clear_Ok in Hc as [_ ->].
    injection H as <-. simpl.
    repeat split;
      [apply length_insert|apply only_cleared_insert|auto|by left]. }
  bind_inv H as w0 Hw0. bind_inv H as w1 Hw1.
  bind_inv H as [deaccu2 accu2] Hun.
  apply walk_spec in Hw0 as (Hc0 & Hd0 & (new0 & Hn0 & Hf0) & He0).
  apply walk_spec in Hw1 as (Hc1 & Hd1 & (new1 & Hn1 & Hf1) & He1).
  cbn [w_coords w_data w_lines_idx w_endpoint] in *.
  assert (only_cleared (coords st) (w_coords w1)) as Hc
    by (eapply only_cleared_trans; eauto).
  assert (only_cleared (data st) (w_data w1)) as Hd
    by (eapply only_cleared_trans; eauto).
  destruct (w_endpoint w0) as [[[x0_end y0_end] wire0_end] idx0_end] eqn:E0.
  destruct (w_endpoint w1) as [[[x1_end y1_end] wire1_end] idx1_end] eqn:E1.
  destruct (_ || _) eqn:Hzero.
  { injection H as <-. simpl. repeat split; [apply Hc|apply Hc|apply Hd|apply Hd|by left]. }
  injection H as <-. simpl. split; [done|]. split; [done|]. right.
  eexists _, (w_lines_idx w1). split; [reflexivity|]. split; [done|].
  apply orb_false_iff in Hzero as [Z0 Z1].
  split.
  - exists (x0_end, y0_end, wire0_end, idx0_end),
      (x1_end, y1_end, wire1_end, idx1_end), (v_rho vs), (v_theta vs).
    split; [done|]. split.
    + destruct He0 as [[= -> -> _ _]|He0]; [discriminate Z0|].
      eapply endpoint_consumed_move;
        [done|apply only_cleared_refl|done..].
    + destruct He1 as [[= -> -> _ _]|He1]; [discriminate Z1|].
      eapply endpoint_consumed_move;
        [done|done|apply only_cleared_refl..].
  - rewrite Hn1, Hn0. simpl. apply Forall_app. split.
    + eapply Forall_impl; [done|]. intros s Hs.
      eapply consumed_move; [done|apply only_cleared_refl|done..].
    + eapply Forall_impl; [done|]. intros s Hs.
      eapply consumed_move; [done|done|apply only_cleared_refl..].
Qed.

End HoughCopy.


Lemma walk_total max_gap range rho theta save positions gap ws :
  bucket_ok (w_data ws) →
  length (w_coords ws) = length (w_data ws) →
  (∀ p, p ∈ positions → (p < length (w_data ws))%nat) →
  ∃ ws', walk max_gap range rho theta save positions gap ws = Ok ws'.
Proof.
  revert gap ws. induction positions as [|p rest IH];
    intros gap ws Hd Hlen Hpos; cbn [walk].
  { destruct (gap <? max_gap); eauto. }
  destruct (gap <? max_gap); [|eauto].
  pose proof (Hpos p ltac:(left)) as Hp.
  assert (∀ q, q ∈ rest → (q < length (w_data ws))%nat) as Hrest
    by (intros q Hq; apply Hpos; by right).
  destruct (at_lt (w_data ws) p Hp) as (pt & Hpt & ->). rewrite res_bind_Ok.
  destruct (Forall_lookup_1 _ _ _ _ Hd Hpt) as [-> | (x & y & i & -> & Hxy)];
    cbn [empty].
  { by apply IH. }
  cbn [point3]. rewrite res_bind_Ok.
  destruct (w_endpoint ws) as [[[last_x ?] ?] ?].
  destruct (_ && _); [eauto|].
  destruct (in_range rho theta range x y); [|by apply IH].
  rewrite !at_clear_lt by lia. rewrite !res_bind_Ok.
  apply IH; cbn [w_data w_coords].
  - apply Forall_insert; [done|by left].
  - by rewrite !length_insert.
  - intros q Hq. rewrite length_insert. by apply Hrest.
Qed.

Section HoughTotal.

Variable Uniform : nat → nat → nat.
Hypothesis Uniform_lt : ∀ n count, (0 < count)%nat → (Uniform n count < count)%nat.


Lemma working_copy_iter coords0 thr gap range save count st st' :
  working_copy coords0 st →
  Hough_iter Uniform thr gap range save count st = Ok st' →
  working_copy coords0 st'.
Proof.
  intros (Hc0 & Hd0 & Hl0 & Hm0) H.
  apply Hough_iter_spec in H as (Hc & Hd & Hnew).
  assert (Forall (line_consumed coords0 (coords st') (data st')) (outlines st))
    as Hl1.
  { eapply Forall_impl; [done|]. intros l Hl.
    eapply line_consumed_move; [done|apply only_cleared_refl|done..]. }
  assert (Forall (Forall (consumed coords0 (coords st') (data st')))
            (outhit_idx st)) as Hm1.
  { eapply Forall_impl; [done|]. intros m Hm.
    eapply Forall_impl; [done|]. intros s Hs.
    eapply consumed_move; [done|apply only_cleared_refl|done..]. }
  split; [exact (only_cleared_trans _ _ _ Hc0 Hc)|].
  split; [exact (only_cleared_trans _ _ _ Hd0 Hd)|].
  destruct Hnew as [[-> ->]|(line & m & -> & -> & Hline & Hm)]; [done|].
  split.
  - apply Forall_app. split; [done|]. constructor; [|constructor].
    eapply line_consumed_move; [done|done|apply only_cleared_refl..].
  - destruct save; [|done].
    apply Forall_app. split; [done|]. constructor; [|constructor].
    eapply Forall_impl; [done|]. intros s Hs.
    eapply consumed_move; [done|done|apply only_cleared_refl..].
Qed.

Lemma working_copy_loop coords0 thr gap range save count st st' :
  working_copy coords0 st →
  Hough_loop Uniform thr gap range save count st = Ok st' →
  working_copy coords0 st'.
Proof.
  revert st. induction count as [|c IH]; intros st Hw H;
    cbn [Hough_loop] in H.
  - by injection H as <-.
  - bind_inv H as st1 H1. eapply IH; [|done].
    by eapply working_copy_iter.
Qed.



Lemma Hough_iter_total thr gap range save count st :
  locals_ok save st →
  (0 < count ≤ length (coords st))%nat →
  ∃ st', Hough_iter Uniform thr gap range save count st = Ok st'
         ∧ locals_ok save st'
         ∧ length (coords st') = length (coords st).
Proof using Uniform_lt.
  intros (Hc & Hd & Hlen & Hda & Hol & Hoh) Hcount. unfold Hough_iter.
  pose proof (Uniform_lt (length (coords st) - count) count ltac:(lia)) as Hidx.
  set (idx := Uniform (length (coords st) - count) count) in *.
  destruct (at_lt (coords st) idx ltac:(lia)) as (pt & Hpt & ->).
  rewrite res_bind_Ok.
  destruct (Forall_lookup_1 _ _ _ _ Hc Hpt) as [-> | (x & y & i & -> & Hxy)];
    cbn [empty point2].
  { exists st. by repeat split. }
  rewrite res_bind_Ok.
  destruct (vote_loop_total x y (seqZ 0 accu_w)
              (mkVote (accu st) (thr - 1) 0 0) Hxy) as [vs ->].
  { intros j Hj. apply elem_of_seqZ in Hj. lia. }
  rewrite res_bind_Ok.
  assert (deaccu_ok (deaccu st ++ [[x; y]])) as Hda1.
  { apply Forall_app. split; [done|]. constructor; [eauto|constructor]. }
  destruct (v_max_val vs <? thr).
  { rewrite at_clear_lt by lia. rewrite res_bind_Ok.
    eexists. split; [reflexivity|]. unfold locals_ok. cbn.
    rewrite length_insert. repeat split; try done.
    apply Forall_insert; [done|by left]. }
  destruct (walk_total gap range (v_rho vs) (v_theta vs) save
              (seq (S idx) (length (data st) - S idx)) 0
              (mkWalk (0, 0, 0, 0) (coords st) (data st) [])) as [w0 Hw0];
    [done|done| |].
  { intros p Hp. apply elem_of_seq in Hp. cbn. lia. }
  rewrite Hw0, res_bind_Ok.
  apply walk_spec in Hw0 as (Hc0 & Hd0 & _). cbn [w_coords w_data] in *.
  destruct (walk_total gap range (v_rho vs) (v_theta vs) save
              (reverse (seq 0 idx)) 0
              (mkWalk (0, 0, 0, 0) (w_coords w0) (w_data w0) (w_lines_idx w0)))
    as [w1 Hw1].
  { by eapply bucket_ok_cleared. }
  { cbn. destruct Hc0 as [-> _], Hd0 as [-> _]. done. }
  { intros p Hp. apply elem_of_reverse, elem_of_seq in Hp. cbn.
    destruct Hd0 as [-> _]. lia. }
  rewrite Hw1, res_bind_Ok.
  apply walk_spec in Hw1 as (Hc1 & Hd1 & _). cbn [w_coords w_data] in *.
  destruct (unvote_loop_total (v_rho vs) (v_theta vs) range
              (deaccu st ++ [[x; y]]) (v_accu vs) Hda1)
    as (deaccu2 & accu2 & -> & Hda2).
  rewrite res_bind_Ok.
  assert (bucket_ok (w_coords w1)) as Hbc
    by (eapply bucket_ok_cleared; [done|]; by eapply bucket_ok_cleared).
  assert (bucket_ok (w_data w1)) as Hbd
    by (eapply bucket_ok_cleared; [done|]; by eapply bucket_ok_cleared).
  assert (length (w_coords w1) = length (coords st)) as Hlc
    by (destruct Hc0 as [<- _], Hc1 as [-> _]; done).
  assert (length (w_data w1) = length (w_coords w1)) as Hld
    by (destruct Hd0 as [E0 _], Hd1 as [E1 _]; congruence).
  destruct (w_endpoint w0) as [[[x0_end y0_end] wire0_end] idx0_end].
  destruct (w_endpoint w1) as [[[x1_end y1_end] wire1_end] idx1_end].
  destruct (_ || _).
  { eexists. split; [reflexivity|]. unfold locals_ok. cbn. by repeat split. }
  eexists. split; [reflexivity|]. unfold locals_ok. cbn.
  repeat split; try done.
  - apply Forall_app. split; [done|]. constructor; [done|constructor].
  - intros ->. rewrite !length_app. cbn. rewrite Hoh by done. done.
Qed.

Lemma Hough_loop_total thr gap range save count st :
  locals_ok save st →
  (count ≤ length (coords st))%nat →
  ∃ st', Hough_loop Uniform thr gap range save count st = Ok st'
         ∧ locals_ok save st'.
Proof using Uniform_lt.
  revert st. induction count as [|c IH]; intros st Hok Hcount;
    cbn [Hough_loop]; [eauto|].
  destruct (Hough_iter_total thr gap range save (S c) st Hok)
    as (st1 & -> & Hok1 & Hlen1); [lia|].
  rewrite res_bind_Ok. apply IH; [done|lia].
Qed.

End HoughTotal.


(** ** Hough: the whole call *)

Lemma merge_pass_shape save ol oh ol' oh' :
  Forall (λ l, length l = 10%nat) ol →
  merge_pass save (ol, oh) = Ok (ol', oh') →
  Forall (λ l, l = [] ∨ length l = 10%nat) ol'.
Proof.
  intros Hol H. apply merge_i_tail_kept in H as [_ H].
  apply Forall_lookup_2. intros n l' Hn.
  destruct (decide (l' = [])) as [->|Hne]; [by left|right].
  destruct (H n l' Hn Hne) as (l & Hl & _ & Hd).
  eapply Forall_lookup_1 in Hol; [|done].
  apply (f_equal length) in Hd. rewrite !length_drop in Hd.
  destruct l' as [|? [|? [|? [|? ?]]]]; simpl in *; try lia; done.
Qed.

Lemma filter_loop_total minl muonl save ol oh ns out :
  Forall (λ l, l = [] ∨ length l = 10%nat) ol →
  (save = true → length oh = length ol) →
  (∀ i, i ∈ ns → (i < length ol)%nat) →
  ∃ out', filter_loop minl muonl save ol oh ns out = Ok out'.
Proof.
  intros Hol Hoh. revert out.
  induction ns as [|i ns IH]; intros out Hns; cbn [filter_loop]; [eauto|].
  assert (∃ out1, filter_step minl muonl save ol oh out i = Ok out1)
    as [out1 ->].
  { unfold filter_step. destruct out as [lines hit_idx].
    pose proof (Hns i ltac:(left)) as Hi.
    destruct (at_lt ol i Hi) as (li & Hli & ->). rewrite res_bind_Ok.
    destruct (Forall_lookup_1 _ _ _ _ Hol Hli) as [-> | Li];
      [cbn; eauto|].
    list10 li Li. cbn.
    destruct (if negb (muonl =? 0) then _ else _); [|eauto].
    destruct save; [|eauto].
    destruct (at_lt oh i) as (hi & _ & ->); [rewrite Hoh by done; lia|].
    cbn. eauto. }
  rewrite res_bind_Ok. apply IH. intros j Hj. apply Hns. by right.
Qed.

(** On a bucket of the coordinate domain [Hough] returns. *)
Lemma Hough_total Uniform coords0 thr gap range minl muonl save lines hit_idx :
  (∀ n count, (0 < count)%nat → (Uniform n count < count)%nat) →
  bucket_ok coords0 →
  ∃ r, Hough Uniform coords0 [thr; gap; range; minl; muonl] save lines hit_idx
       = Ok r.
Proof.
  intros HU Hb. unfold Hough. cbn [at_ lookup list_lookup].
  rewrite !res_bind_Ok.
  destruct (Hough_loop_total Uniform HU thr gap range save (length coords0)
              (Hough_init coords0))
    as (st & -> & (_ & _ & _ & _ & Hol & Hoh)); [|done|].
  { repeat split; try done; try constructor. }
  rewrite res_bind_Ok.
  destruct (merge_i_total save (length (outlines st)) 0 (outlines st)
              (outhit_idx st)) as (ol & oh & Hm & Hlen); [done| |done|].
  { intros n l _ Hl. by eapply Forall_lookup_1 in Hol. }
  unfold merge_pass. cbn [fst]. rewrite Hm, res_bind_Ok.
  apply filter_loop_total; [by eapply merge_pass_shape|done|].
  intros i Hi. apply elem_of_seq in Hi. lia.
Qed.

(** C6, as amended.  On a bucket whose points lie in the coordinate
    domain the accumulator is sized for (wire in [0, 2000], time in
    [0, 3500]), [Hough] returns for every configuration: no access leaves
    the accumulator, a vector or a line, whatever the threshold, the gap,
    the range and the length cuts are. *)
Theorem Hough_in_domain_returns Uniform coords0 thr gap range minl muonl
    save lines hit_idx :
  (∀ n count, (0 < count)%nat → (Uniform n count < count)%nat) →
  bucket_ok coords0 →
  ∃ r, Hough Uniform coords0 [thr; gap; range; minl; muonl] save lines hit_idx
       = Ok r.
Proof. apply Hough_total. Qed.

Lemma Hough_in_domain_returns_witness :
  ∃ r, Hough Uniform_0 [[1000; 1750; 0]] [0; 0; 100; 500; 2500] true [] []
       = Ok r.
Proof.
  apply (Hough_in_domain_returns Uniform_0 [[1000; 1750; 0]] 0 0 100 500 2500
           true [] []).
  - unfold Uniform_0. lia.
  - constructor; [|constructor]. right. exists 1000, 1750, 0.
    unfold in_domain, w, h. split; [reflexivity|lia].
Defined.

(** C6, counterexample.  A collection-plane hit with wire 0 and peak
    time 6000 passes the only test of the bucket builder ([peakT > 0]);
    with the default configuration [Hough] indexes outside the
    accumulator (at angle 90 its vote has [rho = 4250 > 2750]). *)
Lemma valid_hit_leaves_accumulator :
  produce Uniform_0 intersect_none wire_ends_0 atan2_0 cfg_default
    (Some late_hit) = Fault Undefined
  ∧ rho_of 0 6000 90 = 4250.
Proof. split; vm_compute; reflexivity. Qed.

(** C8, as amended.  On a bucket of the coordinate domain with fewer
    points than a positive vote threshold, [Hough] returns and adds no
    line: each point votes once per angle, so no cell of the accumulator
    exceeds the number of points, every sampled point stays below the
    threshold, and [lines] and [hit_idx] are handed back as they were.
    The generator draws a position among the points left. *)
Theorem Hough_below_threshold_no_lines Uniform coords0 thr gap range minl
    muonl save lines hit_idx :
  0 < thr →
  Z.of_nat (length coords0) < thr →
  (∀ n count, (0 < count)%nat → (Uniform n count < count)%nat) →
  bucket_ok coords0 →
  Hough Uniform coords0 [thr; gap; range; minl; muonl] save lines hit_idx
  = Ok (lines, hit_idx).
Proof.
  intros Hpos Hlt HU Hb.
  destruct (Hough_total Uniform coords0 thr gap range minl muonl
              save lines hit_idx HU Hb) as [r Hr].
  rewrite Hr. f_equal. by eapply Hough_below_returns.
Qed.

Lemma Hough_below_threshold_no_lines_witness :
  Hough Uniform_0 [[100; 100; 3]; [123; 1418; 4]; [146; 2736; 5]]
    [10; 30; 100; 500; 2500] true [] [] = Ok ([], []).
Proof.
  apply (Hough_below_threshold_no_lines Uniform_0
           [[100; 100; 3]; [123; 1418; 4]; [146; 2736; 5]]
           10 30 100 500 2500 true [] []).
  - lia.
  - simpl. lia.
  - unfold Uniform_0. lia.
  - unfold bucket_ok, in_domain, w, h.
    repeat (constructor; [right; eexists _, _, _; split; [reflexivity|lia]|]).
    constructor.
Defined.

(** C8, counterexample.  A bucket with one point, fewer than the
    threshold of 10, whose time 6000 lies outside the coordinate domain:
    the point passes the only test of the bucket builder, and its votes
    leave the accumulator (at angle 90, [rho = 4250 > 2750]), so the call
    does not return normally and no result is handed back. *)
Lemma below_threshold_bucket_leaves_accumulator :
  Z.of_nat (length [[0; 6000; 0]]) < 10
  ∧ Hough Uniform_0 [[0; 6000; 0]] [10; 30; 100; 500; 2500] true [] []
    = Fault Undefined
  ∧ rho_of 0 6000 90 = 4250
  ∧ in_accu 4250 90 = false.
Proof. repeat split; vm_compute; reflexivity. Qed.

(** ** The caller's bucket *)


Section Caller.

Variable Uniform : nat → nat → nat.
Variable WireIDsIntersect : WireID_t → WireID_t → Point_t → bool * Point_t.
Variable WireEndPoints : WireID_t → (Q * Q * Q) * (Q * Q * Q).
Variable atan2 : Q → Q → Q.

Local Abbreviation produce' :=
  (produce Uniform WireIDsIntersect WireEndPoints atan2).



End Caller.



(** * Further properties *)

(** ** Votes and their retraction *)

Lemma unvote_point_retracts x y js vs vs' b :
  vote_loop x y js vs = Ok vs' →
  ∃ b', unvote_point x y js b = Ok b'
        ∧ ∀ r j, b' r j - b r j = v_accu vs r j - v_accu vs' r j.
Proof.
  revert vs b. induction js as [|j0 js IH]; intros vs b H; cbn [vote_loop] in H.
  - injection H as <-. exists b. split; [done|]. intros; lia.
  - bind_inv H as vs1 H1. unfold vote_step in H1. cbn [unvote_point].
    destruct (in_accu (rho_of x y j0) j0); [|discriminate].
    destruct (IH vs1 (accu_add b (rho_of x y j0) j0 (-1)) H)
      as (b' & -> & Hb').
    exists b'. split; [done|]. intros r j. specialize (Hb' r j).
    assert (v_accu vs1 = accu_add (v_accu vs) (rho_of x y j0) j0 1) as E
      by (destruct (_ <? _); by injection H1 as <-).
    rewrite E in Hb'. unfold accu_add in Hb'.
    destruct ((r =? rho_of x y j0) && (j =? j0)); lia.
Qed.

(** X1.  Retracting the votes of a point restores the accumulator: after
    the vote loop of a point of the coordinate domain, the unvote loop of
    the same point succeeds and leaves in every cell the count it held
    before the votes. *)
Theorem unvote_restores_accumulator x y vs :
  in_domain x y →
  ∃ vs' a',
    vote_loop x y (seqZ 0 accu_w) vs = Ok vs'
    ∧ unvote_point x y (seqZ 0 accu_w) (v_accu vs') = Ok a'
    ∧ ∀ r j, a' r j = v_accu vs r j.
Proof.
  intros Hxy.
  destruct (vote_loop_total x y (seqZ 0 accu_w) vs Hxy) as [vs' Hv].
  { intros j Hj. apply elem_of_seqZ in Hj. lia. }
  destruct (unvote_point_retracts _ _ _ _ _ (v_accu vs') Hv) as (a' & Ha & Hd).
  exists vs', a'. split; [done|]. split; [done|].
  intros r j. specialize (Hd r j). lia.
Qed.

Lemma unvote_restores_accumulator_witness :
  ∃ vs' a',
    vote_loop 100 100 (seqZ 0 accu_w) (mkVote accu_zero 9 0 0) = Ok vs'
    ∧ unvote_point 100 100 (seqZ 0 accu_w) (v_accu vs') = Ok a'
    ∧ ∀ r j, a' r j = v_accu (mkVote accu_zero 9 0 0) r j.
Proof.
  apply (unvote_restores_accumulator 100 100 (mkVote accu_zero 9 0 0)).
  unfold in_domain, w, h. lia.
Defined.

(** ** Hough: iterations that cannot record a line *)

Lemma walk_idle max_gap range rho theta save positions gap ws :
  max_gap <= gap ∨ positions = [] →
  walk max_gap range rho theta save positions gap ws = Ok ws.
Proof.
  intros [Hg | ->].
  - destruct positions; cbn [walk]; destruct (gap <? max_gap) eqn:E; done || lia.
  - cbn [walk]. by destruct (gap <? max_gap).
Qed.

Section HoughIdle.

Variable Uniform : nat → nat → nat.

Lemma Hough_iter_no_line thr gap range save count st st' :
  Hough_iter Uniform thr gap range save count st = Ok st' →
  gap <= 0 ∨ (length (data st) ≤ 2)%nat →
  length (data st) = length (coords st) →
  outlines st' = outlines st ∧ outhit_idx st' = outhit_idx st.
Proof.
  unfold Hough_iter. intros H Hcase Hlen.
  remember (Uniform (length (coords st) - count) count) as idx eqn:Eidx.
  clear Eidx.
  bind_inv H as pt Hpt. apply at_Ok, lookup_lt_Some in Hpt.
  destruct (empty pt); [by injection H as <-|].
  bind_inv H as [x y] Hxy. bind_inv H as vs Hvs.
  destruct (v_max_val vs <? thr).
  { bind_inv H as coords' Hc. by injection H as <-. }
  bind_inv H as w0 Hw0. bind_inv H as w1 Hw1.
  bind_inv H as [deaccu2 accu2] Hun.
  assert (w_endpoint w0 = (0, 0, 0, 0) ∨ w_endpoint w1 = (0, 0, 0, 0)) as Hz.
  { destruct Hcase as [Hg | Hsmall].
    - left. rewrite walk_idle in Hw0 by (left; lia). by injection Hw0 as <-.
    - destruct idx as [|idx].
      + right. rewrite walk_idle in Hw1 by (by right). by injection Hw1 as <-.
      + left. replace (length (data st) - S (S idx))%nat with 0%nat in Hw0
          by lia.
        rewrite walk_idle in Hw0 by (by right). by injection Hw0 as <-. }
  destruct (w_endpoint w0) as [[[x0_end y0_end] wire0_end] idx0_end].
  destruct (w_endpoint w1) as [[[x1_end y1_end] wire1_end] idx1_end].
  assert (((x0_end =? 0) && (y0_end =? 0)) || ((x1_end =? 0) && (y1_end =? 0))
          = true) as E.
  { destruct Hz as [[= -> -> _ _] | [= -> -> _ _]]; [done|].
    apply orb_true_r. }
  rewrite E in H. by injection H as <-.
Qed.

Lemma Hough_loop_no_line thr gap range save count st st' :
  Hough_loop Uniform thr gap range save count st = Ok st' →
  gap <= 0 ∨ (length (data st) ≤ 2)%nat →
  length (data st) = length (coords st) →
  outlines st' = outlines st ∧ outhit_idx st' = outhit_idx st.
Proof.
  revert st. induction count as [|c IH]; intros st H Hcase Hlen;
    cbn [Hough_loop] in H.
  - by injection H as <-.
  - bind_inv H as st1 H1.
    destruct (Hough_iter_no_line _ _ _ _ _ _ _ H1 Hcase Hlen) as [<- <-].
    apply Hough_iter_spec in H1 as ([Lc _] & [Ld _] & _).
    apply IH; [done| |congruence].
    destruct Hcase; [by left|right; lia].
Qed.

Lemma Hough_no_line coords0 thr gap range minl muonl save lines hit_idx r :
  gap <= 0 ∨ (length coords0 ≤ 2)%nat →
  Hough Uniform coords0 [thr; gap; range; minl; muonl] save lines hit_idx
  = Ok r →
  r = (lines, hit_idx).
Proof.
  intros Hcase H. unfold Hough in H. cbn [at_ lookup list_lookup] in H.
  rewrite !res_bind_Ok in H. bind_inv H as st Hst.
  apply Hough_loop_no_line in Hst as [Hol Hoh]; [|done..].
  cbn in Hol, Hoh. rewrite Hol, Hoh in H. cbn in H. by injection H as <-.
Qed.

End HoughIdle.

(** X2.  With a maximal gap of zero or less the corridor walk accepts no
    point, both endpoints stay at the origin placeholder and every
    candidate line is discarded: whenever [Hough] returns it has added no
    line, and on a bucket of the coordinate domain it does return. *)
Theorem Hough_zero_gap_no_lines Uniform coords0 thr gap range minl muonl
    save lines hit_idx :
  gap <= 0 →
  (∀ r, Hough Uniform coords0 [thr; gap; range; minl; muonl] save lines
          hit_idx = Ok r →
        r = (lines, hit_idx))
  ∧ ((∀ n count, (0 < count)%nat → (Uniform n count < count)%nat) →
     bucket_ok coords0 →
     Hough Uniform coords0 [thr; gap; range; minl; muonl] save lines hit_idx
     = Ok (lines, hit_idx)).
Proof.
  intros Hgap.
  assert (∀ r, Hough Uniform coords0 [thr; gap; range; minl; muonl] save
                 lines hit_idx = Ok r → r = (lines, hit_idx)) as Hret
    by (intros r; apply Hough_no_line; by left).
  split; [done|]. intros HU Hb.
  destruct (Hough_total Uniform coords0 thr gap range minl muonl
              save lines hit_idx HU Hb) as [r Hr].
  by rewrite Hr, (Hret r Hr).
Qed.

Lemma Hough_zero_gap_no_lines_witness :
  (∀ r, Hough Uniform_010 [[100; 100; 3]; [123; 1418; 4]; [146; 2736; 5]]
          [2; 0; 100; 500; 2500] true [] [] = Ok r →
        r = ([], []))
  ∧ ((∀ n count, (0 < count)%nat → (Uniform_010 n count < count)%nat) →
     bucket_ok [[100; 100; 3]; [123; 1418; 4]; [146; 2736; 5]] →
     Hough Uniform_010 [[100; 100; 3]; [123; 1418; 4]; [146; 2736; 5]]
       [2; 0; 100; 500; 2500] true [] [] = Ok ([], [])).
Proof.
  apply (Hough_zero_gap_no_lines Uniform_010
           [[100; 100; 3]; [123; 1418; 4]; [146; 2736; 5]]
           2 0 100 500 2500 true [] []).
  lia.
Defined.

(** X3.  A line needs a point accepted on each side of its seed: on a
    bucket of at most two points [Hough] adds no line, whatever the
    threshold and the other parameters are. *)
Theorem Hough_two_points_no_lines Uniform coords0 thr gap range minl muonl
    save lines hit_idx :
  (length coords0 ≤ 2)%nat →
  (∀ r, Hough Uniform coords0 [thr; gap; range; minl; muonl] save lines
          hit_idx = Ok r →
        r = (lines, hit_idx))
  ∧ ((∀ n count, (0 < count)%nat → (Uniform n count < count)%nat) →
     bucket_ok coords0 →
     Hough Uniform coords0 [thr; gap; range; minl; muonl] save lines hit_idx
     = Ok (lines, hit_idx)).
Proof.
  intros Hlen.
  assert (∀ r, Hough Uniform coords0 [thr; gap; range; minl; muonl] save
                 lines hit_idx = Ok r → r = (lines, hit_idx)) as Hret
    by (intros r; apply Hough_no_line; by right).
  split; [done|]. intros HU Hb.
  destruct (Hough_total Uniform coords0 thr gap range minl muonl
              save lines hit_idx HU Hb) as [r Hr].
  by rewrite Hr, (Hret r Hr).
Qed.

Lemma Hough_two_points_no_lines_witness :
  (∀ r, Hough Uniform_0 [[100; 100; 0]; [110; 120; 1]]
          [0; 30; 100; 0; 0] true [] [] = Ok r →
        r = ([], []))
  ∧ ((∀ n count, (0 < count)%nat → (Uniform_0 n count < count)%nat) →
     bucket_ok [[100; 100; 0]; [110; 120; 1]] →
     Hough Uniform_0 [[100; 100; 0]; [110; 120; 1]]
       [0; 30; 100; 0; 0] true [] [] = Ok ([], [])).
Proof.
  apply (Hough_two_points_no_lines Uniform_0 [[100; 100; 0]; [110; 120; 1]]
           0 30 100 0 0 true [] []).
  simpl. lia.
Defined.

(** ** Merge pass: the member lists *)

Lemma concat_insert_perm (l : list (list Z)) i x y :
  l !! i = Some y → concat (<[i := x]> l) ++ y ≡ₚ concat l ++ x.
Proof.
  intros H. rewrite insert_take_drop by (by eapply lookup_lt_Some).
  rewrite <- (take_drop_middle l i y H) at 3.
  rewrite !concat_app. cbn [concat]. rewrite <- !app_assoc.
  apply Permutation_app_head.
  set (cd := concat (drop (S i) l)).
  transitivity ((cd ++ y) ++ x); [apply Permutation_app_comm|].
  rewrite (Permutation_app_comm cd y). by rewrite <- app_assoc.
Qed.

Lemma merge_ij_members save i j ol oh same ol' oh' :
  i ≠ j →
  merge_ij save i j (ol, oh) = Ok (same, (ol', oh')) →
  concat oh' ≡ₚ concat oh ∧ length oh' = length oh.
Proof.
  intros Hij. unfold merge_ij. intros H.
  bind_inv H as li Hli. bind_inv H as lj Hlj.
  bind_inv H as xi0 Hxi0. bind_inv H as xi1 Hxi1.
  bind_inv H as xj0 Hxj0. bind_inv H as xj1 Hxj1.
  bind_inv H as yi0 Hyi0. bind_inv H as yi1 Hyi1.
  bind_inv H as yj0 Hyj0. bind_inv H as yj1 Hyj1.
  bind_inv H as rhoi Hrhoi. bind_inv H as rhoj Hrhoj.
  bind_inv H as thetai Hthetai. bind_inv H as thetaj Hthetaj.
  destruct (List.find _ kl_order) as [[k l]|]; [|by injection H as _ _ <-].
  bind_inv H as ol2 Hol2.
  destruct save; [|by injection H as _ _ <-].
  bind_inv H as hj Hhj. bind_inv H as hi Hhi. bind_inv H as oh2 Hoh2.
  apply at_Ok in Hhj, Hhi. apply at_clear_Ok in Hoh2 as [_ ->].
  injection H as _ _ <-. split; [|by rewrite !length_insert].
  pose proof (concat_insert_perm oh j (hj ++ hi) hj Hhj) as P1.
  assert (<[j:=hj ++ hi]> oh !! i = Some hi) as Hi'
    by (by rewrite list_lookup_insert_ne).
  pose proof (concat_insert_perm _ i [] hi Hi') as P2.
  rewrite app_nil_r in P2.
  apply (Permutation_app_inv_r (hi ++ hj)).
  rewrite app_assoc, P2, P1.
  apply Permutation_app_head, Permutation_app_comm.
Qed.

Lemma merge_j_members save i js ol oh ol' oh' :
  (∀ j, j ∈ js → (i < j)%nat) →
  merge_j save i js (ol, oh) = Ok (ol', oh') →
  concat oh' ≡ₚ concat oh ∧ length oh' = length oh.
Proof.
  revert ol oh. induction js as [|j js IH]; intros ol oh Hjs H;
    cbn [merge_j] in H.
  - by injection H as _ <-.
  - bind_inv H as [same [ol1 oh1]] H1.
    apply merge_ij_members in H1 as [P1 L1];
      [|specialize (Hjs j ltac:(left)); lia].
    destruct same.
    + by injection H as _ <-.
    + apply IH in H as [P2 L2]; [|intros j' Hj'; apply Hjs; by right].
      split; [by rewrite P2|congruence].
Qed.

Lemma merge_i_members save m i ol oh ol' oh' :
  merge_i save (seq i m) (ol, oh) = Ok (ol', oh') →
  concat oh' ≡ₚ concat oh ∧ length oh' = length oh.
Proof.
  revert i ol oh. induction m as [|m IH]; intros i ol oh H;
    cbn [merge_i seq fst] in H.
  - by injection H as _ <-.
  - bind_inv H as [ol1 oh1] H1.
    apply merge_j_members in H1 as [P1 L1];
      [|intros j Hj; apply elem_of_seq in Hj; lia].
    apply IH in H as [P2 L2]. split; [by rewrite P2|congruence].
Qed.

(** X4.  The merge pass neither loses nor duplicates a member: on
    complete lines with one member list each, the pass returns, and the
    member lists it leaves hold, taken together, the same hit indices as
    before, each as often as before. *)
Theorem merge_pass_keeps_members (ol oh : list (list Z)) :
  Forall (λ l, length l = 10%nat) ol →
  length oh = length ol →
  ∃ ol' oh',
    merge_pass true (ol, oh) = Ok (ol', oh')
    ∧ length oh' = length oh
    ∧ concat oh' ≡ₚ concat oh.
Proof.
  intros Hol Hoh.
  destruct (merge_i_total true (length ol) 0 ol oh) as (ol' & oh' & Hm & _);
    [done| |done|].
  { intros n l _ Hl. by eapply Forall_lookup_1 in Hol. }
  exists ol', oh'. split; [exact Hm|].
  apply merge_i_members in Hm as [P L]. done.
Qed.

Lemma merge_pass_keeps_members_witness :
  ∃ ol' oh',
    merge_pass true (split_outlines, split_outhit_idx) = Ok (ol', oh')
    ∧ length oh' = length split_outhit_idx
    ∧ concat oh' ≡ₚ concat split_outhit_idx.
Proof.
  apply (merge_pass_keeps_members split_outlines split_outhit_idx).
  - repeat constructor.
  - reflexivity.
Defined.

(** ** Merge pass: lines that are never merged *)

Lemma counter_dissimilar xi yi xj yj rhoi rhoj thetai thetaj :
  rho_var <= Z.abs (rhoi - rhoj) → theta_var <= Z.abs (thetai - thetaj) →
  (3 <=? counter xi yi xj yj rhoi rhoj thetai thetaj) = false.
Proof.
  intros Hr Ht. unfold counter, within, rho_var, theta_var in *.
  assert ((rhoi <? rhoj + 30) && (rhoi >? rhoj - 30) = false) as ->
    by (apply andb_false_iff; lia).
  assert ((thetai <? thetaj + 20) && (thetai >? thetaj - 20) = false) as ->
    by (apply andb_false_iff; lia).
  repeat case_match; lia.
Qed.

Lemma merge_ij_dissimilar save i j ol oh li lj :
  ol !! i = Some li → ol !! j = Some lj →
  length li = 10%nat → length lj = 10%nat →
  dissimilar li lj →
  merge_ij save i j (ol, oh) = Ok (false, (ol, oh)).
Proof.
  intros Hi Hj Li Lj [Hr Ht].
  rewrite (merge_ij_eq save i j ol oh li lj Hi Hj Li Lj).
  cbn [List.find kl_order]. by rewrite !counter_dissimilar.
Qed.

Lemma merge_j_dissimilar save i js ol oh li :
  ol !! i = Some li → length li = 10%nat →
  (∀ j, j ∈ js → ∃ lj, ol !! j = Some lj ∧ length lj = 10%nat
                       ∧ dissimilar li lj) →
  merge_j save i js (ol, oh) = Ok (ol, oh).
Proof.
  intros Hi Li. induction js as [|j js IH]; intros Hjs; cbn [merge_j];
    [done|].
  destruct (Hjs j ltac:(left)) as (lj & Hj & Lj & Hd).
  rewrite (merge_ij_dissimilar save i j ol oh li lj) by done.
  rewrite res_bind_Ok. apply IH. intros j' Hj'. apply Hjs. by right.
Qed.

(** X5.  Lines that differ in direction and offset are never merged,
    wherever their endpoints lie: when every two lines have [rho] at least
    30 apart and [theta] at least 20 apart, the merge pass returns the
    lines and the member lists exactly as it received them. *)
Theorem merge_pass_leaves_dissimilar save (ol oh : list (list Z)) :
  Forall (λ l, length l = 10%nat) ol →
  (∀ i j li lj, (i < j)%nat → ol !! i = Some li → ol !! j = Some lj →
                dissimilar li lj) →
  merge_pass save (ol, oh) = Ok (ol, oh).
Proof.
  intros Hol Hd. unfold merge_pass. cbn [fst].
  assert (∀ m i, (i + m = length ol)%nat →
                 merge_i save (seq i m) (ol, oh) = Ok (ol, oh)) as Hm.
  { induction m as [|m IH]; intros i Him; cbn [merge_i seq fst]; [done|].
    destruct (lookup_lt_is_Some_2 ol i ltac:(lia)) as [li Hi].
    rewrite (merge_j_dissimilar save i _ ol oh li Hi).
    - rewrite res_bind_Ok. apply IH. lia.
    - by eapply Forall_lookup_1 in Hol.
    - intros j Hj. apply elem_of_seq in Hj.
      destruct (lookup_lt_is_Some_2 ol j ltac:(lia)) as [lj Hj'].
      exists lj. split; [done|]. split.
      + by eapply Forall_lookup_1 in Hol.
      + eapply Hd; [|done..]. lia. }
  by apply Hm.
Qed.

Lemma merge_pass_leaves_dissimilar_witness :
  merge_pass true (crossed_outlines, split_outhit_idx)
  = Ok (crossed_outlines, split_outhit_idx).
Proof.
  apply (merge_pass_leaves_dissimilar true crossed_outlines split_outhit_idx).
  - repeat constructor.
  - intros [|[|i]] [|[|j]] li lj Hij Hi Hj; try lia;
      simpl in Hi, Hj; try discriminate.
    injection Hi as <-. injection Hj as <-.
    unfold dissimilar, rho_var, theta_var. simpl. lia.
Defined.

(** ** Hough: the lines and member lists it returns *)

Lemma filter_step_spec minl muonl save ol oh out i out' :
  filter_step minl muonl save ol oh out i = Ok out' →
  out' = out
  ∨ ∃ li, ol !! i = Some li ∧ line_kept minl muonl li = true
          ∧ out'.1 = out.1 ++ [li]
          ∧ (if save then ∃ hi, oh !! i = Some hi ∧ out'.2 = out.2 ++ [hi]
             else out'.2 = out.2).
Proof.
  unfold filter_step. destruct out as [lines hit_idx]. intros H.
  bind_inv H as li Hli. apply at_Ok in Hli.
  destruct (empty li); [left; by injection H as <-|].
  bind_inv H as x0 H0. bind_inv H as y0 H1.
  bind_inv H as x1 H2. bind_inv H as y1 H3.
  apply idx_Ok in H0, H1, H2, H3.
  destruct li as [|a [|b [|c [|d rest]]]]; try discriminate.
  cbn in H0, H1, H2, H3.
  injection H0 as ->. injection H1 as ->. injection H2 as ->. injection H3 as ->.
  cbv zeta in H.
  destruct (if negb (muonl =? 0) then _ else _) eqn:Hk in H;
    [|left; by injection H as <-].
  right. eexists. split; [done|]. split; [exact Hk|].
  destruct save.
  - bind_inv H as hi Hhi. apply at_Ok in Hhi. injection H as <-. cbn. eauto.
  - by injection H as <-.
Qed.

Lemma filter_loop_spec minl muonl save ol oh ns out out' :
  filter_loop minl muonl save ol oh ns out = Ok out' →
  ∃ new newh,
    out'.1 = out.1 ++ new ∧ out'.2 = out.2 ++ newh
    ∧ Forall (λ l, l ∈ ol ∧ line_kept minl muonl l = true) new
    ∧ (if save then length newh = length new ∧ Forall (λ m, m ∈ oh) newh
       else newh = []).
Proof.
  revert out. induction ns as [|i ns IH]; intros out H; cbn [filter_loop] in H.
  - injection H as <-. exists [], []. rewrite !app_nil_r.
    repeat split; [constructor|]. destruct save; [split; [done|constructor]|done].
  - bind_inv H as out1 H1. apply filter_step_spec in H1.
    apply IH in H as (new & newh & E1 & E2 & Hnew & Hh).
    destruct H1 as [-> | (li & Hli & Hk & El & Eh)]; [by exists new, newh|].
    rewrite El in E1. apply list_elem_of_lookup_2 in Hli.
    destruct save.
    + destruct Eh as (hi & Hhi & Eh). rewrite Eh in E2.
      apply list_elem_of_lookup_2 in Hhi. destruct Hh as [Hlen Hh].
      exists (li :: new), (hi :: newh).
      rewrite <- !app_assoc in E1, E2.
      repeat split; [done|done|by constructor|cbn; lia|by constructor].
    + rewrite Eh in E2. exists (li :: new), newh.
      rewrite <- !app_assoc in E1. repeat split; [done|done|by constructor|done].
Qed.

Lemma line_consumed_complete v0 v v' l :
  line_consumed v0 v v' l →
  length l = 10%nat ∧ is_source v0 (nth 4 l 0) ∧ is_source v0 (nth 5 l 0).
Proof.
  intros (e0 & e1 & rho & theta & -> & (p0 & x0 & y0 & s0 & -> & [[t0 H0] _])
          & (p1 & x1 & y1 & s1 & -> & [[t1 H1] _])).
  cbn. split; [done|]. split; [by exists p0, x0, y0, t0|by exists p1, x1, y1, t1].
Qed.

Lemma live_lines_le (v : list (list Z)) : (live_lines v ≤ length v)%nat.
Proof. unfold live_lines. apply length_filter. Qed.

(** Each member recorded by the walk goes with a live point cleared in
    [data]. *)
Lemma walk_count max_gap range rho theta save positions gap ws ws' :
  walk max_gap range rho theta save positions gap ws = Ok ws' →
  (length (w_lines_idx ws') + live_lines (w_data ws')
   ≤ length (w_lines_idx ws) + live_lines (w_data ws))%nat.
Proof.
  revert gap ws. induction positions as [|p rest IH]; intros gap ws H;
    cbn [walk] in H.
  { destruct (gap <? max_gap); by injection H as <-. }
  destruct (gap <? max_gap); [|by injection H as <-].
  bind_inv H as pt Hpt. apply at_Ok in Hpt.
  destruct (empty pt); [by eapply IH|].
  bind_inv H as [[x1 y1] wire_idx] Hp3. apply point3_Ok in Hp3 as [tl ->].
  destruct (w_endpoint ws) as [[[last_x ?] ?] ?].
  destruct (_ && _); [by injection H as <-|].
  destruct (in_range rho theta range x1 y1); [|by eapply IH].
  bind_inv H as coords' Hc. bind_inv H as data' Hd.
  apply at_clear_Ok in Hd as [_ ->].
  apply IH in H. cbn [w_data w_lines_idx] in H.
  pose proof (live_lines_clear (w_data ws) p _ Hpt ltac:(done)) as Hl.
  destruct save; rewrite ?length_app in H; cbn in H; lia.
Qed.

Section HoughCount.

Variable Uniform : nat → nat → nat.

Lemma Hough_iter_count thr gap range save count st st' :
  Hough_iter Uniform thr gap range save count st = Ok st' →
  (length (concat (outhit_idx st')) + live_lines (data st')
   ≤ length (concat (outhit_idx st)) + live_lines (data st))%nat.
Proof.
  unfold Hough_iter. intros H.
  bind_inv H as pt Hpt.
  destruct (empty pt); [by injection H as <-|].
  bind_inv H as [x y] Hxy. bind_inv H as vs Hvs.
  destruct (v_max_val vs <? thr).
  { bind_inv H as coords' Hc. by injection H as <-. }
  bind_inv H as w0 Hw0. bind_inv H as w1 Hw1.
  bind_inv H as [deaccu2 accu2] Hun.
  apply walk_count in Hw0, Hw1. cbn [w_data w_lines_idx length] in Hw0, Hw1.
  destruct (w_endpoint w0) as [[[x0_end y0_end] wire0_end] idx0_end].
  destruct (w_endpoint w1) as [[[x1_end y1_end] wire1_end] idx1_end].
  destruct (_ || _); injection H as <-; cbn [outhit_idx data]; [lia|].
  destruct save; [|lia].
  rewrite concat_app, length_app. cbn [concat]. rewrite app_nil_r. lia.
Qed.

Lemma Hough_loop_count thr gap range save count st st' :
  Hough_loop Uniform thr gap range save count st = Ok st' →
  (length (concat (outhit_idx st')) + live_lines (data st')
   ≤ length (concat (outhit_idx st)) + live_lines (data st))%nat.
Proof.
  revert st. induction count as [|c IH]; intros st H; cbn [Hough_loop] in H.
  - by injection H as <-.
  - bind_inv H as st1 H1. apply Hough_iter_count in H1. apply IH in H. lia.
Qed.

End HoughCount.

Section HoughOutput.

Variable Uniform : nat → nat → nat.

(** What [Hough] appends: lines that the merge pass left, complete, kept
    by the length test and carrying hit indices of bucket points; with
    [save_hits], one member list per line, holding hit indices of bucket
    points. *)
Lemma Hough_output coords0 thr gap range minl muonl save lines hit_idx
    lines' hit_idx' :
  Hough Uniform coords0 [thr; gap; range; minl; muonl] save lines hit_idx
  = Ok (lines', hit_idx') →
  ∃ new newh,
    lines' = lines ++ new ∧ hit_idx' = hit_idx ++ newh
    ∧ Forall (λ l, length l = 10%nat ∧ line_kept minl muonl l = true
                   ∧ is_source coords0 (nth 4 l 0)
                   ∧ is_source coords0 (nth 5 l 0)) new
    ∧ (if save then length newh = length new else newh = [])
    ∧ Forall (Forall (is_source coords0)) newh
    ∧ Forall (λ m, (length m ≤ length coords0)%nat) newh.
Proof.
  intros H. unfold Hough in H. cbn [at_ lookup list_lookup] in H.
  rewrite !res_bind_Ok in H. bind_inv H as st Hst.
  bind_inv H as [ol oh] Hm.
  apply filter_loop_spec in H as (new & newh & E1 & E2 & Hnew & Hh).
  cbn in E1, E2. exists new, newh. split; [done|]. split; [done|].
  assert (working_copy coords0 st) as (_ & _ & Hlines & Hmem).
  { eapply working_copy_loop; [|done].
    repeat split; try apply only_cleared_refl; constructor. }
  unfold merge_pass in Hm. cbn [fst] in Hm.
  pose proof (merge_i_tail_kept _ _ _ _ _ _ Hm) as [_ Htail].
  pose proof (merge_i_members _ _ _ _ _ _ _ Hm) as [Hperm _].
  assert (Forall (λ m, m ∈ oh) newh) as Hin.
  { destruct save; [by destruct Hh|]. subst newh. constructor. }
  split; [|split; [|split]].
  - eapply Forall_impl; [done|]. intros l [Hl Hk].
    apply list_elem_of_lookup_1 in Hl as [n Hn].
    assert (l ≠ []) as Hne by (intros ->; discriminate).
    destruct (Htail n l Hn Hne) as (l0 & Hl0 & _ & Hd).
    eapply Forall_lookup_1 in Hlines; [|done].
    apply line_consumed_complete in Hlines as (L0 & S4 & S5).
    assert (length l = 10%nat) as Ll.
    { apply (f_equal length) in Hd. rewrite !length_drop in Hd.
      destruct l as [|? [|? [|? [|? ?]]]]; cbn in *; try discriminate; lia. }
    assert (∀ k, nth (4 + k) l 0 = nth (4 + k) l0 0) as Hnth.
    { intros k. rewrite !nth_lookup, <- !lookup_drop. by rewrite Hd. }
    split; [done|]. split; [done|].
    pose proof (Hnth 0%nat) as E4. pose proof (Hnth 1%nat) as E5.
    cbn [Nat.add] in E4, E5. by rewrite E4, E5.
  - destruct save; [by destruct Hh|done].
  - eapply Forall_impl; [done|]. intros m Hm'.
    apply Forall_forall. intros s Hs.
    assert (In s (concat oh)) as Hc
      by (apply in_concat; exists m; split; by apply list_elem_of_In).
    apply (Permutation_in _ Hperm), in_concat in Hc as (m0 & Hm0 & Hs0).
    apply list_elem_of_In in Hm0, Hs0.
    eapply Forall_forall in Hmem; [|done].
    eapply Forall_forall in Hmem as (p & x & y & [[t Hp] _]); [|done].
    by exists p, x, y, t.
  - apply Hough_loop_count in Hst. cbn [Hough_init outhit_idx data concat length] in Hst.
    pose proof (live_lines_le coords0) as Hle.
    apply Permutation_length in Hperm.
    eapply Forall_impl; [done|]. intros m Hm'.
    apply list_elem_of_In, in_split in Hm' as (l1 & l2 & ->).
    rewrite concat_app in Hperm. cbn [concat] in Hperm.
    rewrite !length_app in Hperm. lia.
Qed.

End HoughOutput.

(** X6.  What [Hough] returns extends what it was given: [lines] and
    [hit_idx] are kept as a prefix, every line appended has its ten
    entries and passes the length test of the configuration, and with
    [save_hits] exactly one member list is appended per line, without it
    none. *)
Theorem Hough_appends_kept_lines Uniform coords0 thr gap range minl muonl
    save lines hit_idx lines' hit_idx' :
  Hough Uniform coords0 [thr; gap; range; minl; muonl] save lines hit_idx
  = Ok (lines', hit_idx') →
  ∃ new newh,
    lines' = lines ++ new ∧ hit_idx' = hit_idx ++ newh
    ∧ Forall (λ l, length l = 10%nat ∧ line_kept minl muonl l = true) new
    ∧ (if save then length newh = length new else newh = []).
Proof.
  intros H. apply Hough_output in H as (new & newh & E1 & E2 & Hn & Hs & _).
  exists new, newh. repeat split; [done..| |done].
  eapply Forall_impl; [done|]. by intros l (? & ? & _).
Qed.

Lemma Hough_appends_kept_lines_witness :
  ∃ new newh,
    [[146; 2736; 100; 100; 5; 3; 2; 0; 871; 179]] = [] ++ new
    ∧ [[5; 3]] = [] ++ newh
    ∧ Forall (λ l, length l = 10%nat ∧ line_kept 500 2500 l = true) new
    ∧ (if true then length newh = length new else newh = []).
Proof.
  apply (Hough_appends_kept_lines Uniform_010
           [[100; 100; 3]; [123; 1418; 4]; [146; 2736; 5]]
           2 30 100 500 2500 true [] []).
  vm_compute. reflexivity.
Defined.

(** X7.  The hit indices [Hough] hands out come from its bucket: the two
    hit indices of every line appended (positions 4 and 5) and every
    member of every member list appended are the hit index of some point
    of the bucket passed in. *)
Theorem Hough_indices_from_bucket Uniform coords0 thr gap range minl muonl
    save lines hit_idx lines' hit_idx' :
  Hough Uniform coords0 [thr; gap; range; minl; muonl] save lines hit_idx
  = Ok (lines', hit_idx') →
  ∃ new newh,
    lines' = lines ++ new ∧ hit_idx' = hit_idx ++ newh
    ∧ Forall (λ l, is_source coords0 (nth 4 l 0)
                   ∧ is_source coords0 (nth 5 l 0)) new
    ∧ Forall (Forall (is_source coords0)) newh.
Proof.
  intros H.
  apply Hough_output in H as (new & newh & E1 & E2 & Hn & _ & Hm & _).
  exists new, newh. repeat split; [done..| |done].
  eapply Forall_impl; [done|]. by intros l (_ & _ & ? & ?).
Qed.

Lemma Hough_indices_from_bucket_witness :
  ∃ new newh,
    [[146; 2736; 100; 100; 5; 3; 2; 0; 871; 179]] = [] ++ new
    ∧ [[5; 3]] = [] ++ newh
    ∧ Forall (λ l, is_source [[100; 100; 3]; [123; 1418; 4]; [146; 2736; 5]]
                     (nth 4 l 0)
                   ∧ is_source [[100; 100; 3]; [123; 1418; 4]; [146; 2736; 5]]
                       (nth 5 l 0)) new
    ∧ Forall (Forall (is_source
                        [[100; 100; 3]; [123; 1418; 4]; [146; 2736; 5]])) newh.
Proof.
  apply (Hough_indices_from_bucket Uniform_010
           [[100; 100; 3]; [123; 1418; 4]; [146; 2736; 5]]
           2 30 100 500 2500 true [] []).
  vm_compute. reflexivity.
Defined.

(** ** The buckets built from the hit collection *)

Lemma numbered_cons i hit hits :
  numbered i (hit :: hits) = (i, hit) :: numbered (S i) hits.
Proof. done. Qed.

Lemma select_cons p i hit hits :
  select p i (hit :: hits)
  = if p (i, hit) then hit_point (i, hit) :: select p (S i) hits
    else select p (S i) hits.
Proof.
  unfold select. rewrite numbered_cons. cbn [List.filter]. by destruct (p _).
Qed.

Lemma valid_on_pair plane tpc_ i hit :
  valid_on plane tpc_ (i, hit)
  = (Plane (WireID hit) =? plane) && (TPC (WireID hit) =? tpc_)
    && (int_of (PeakTime hit) >? 0).
Proof. done. Qed.

Lemma valid_off_tpc0_pair i hit :
  valid_off_tpc0 (i, hit)
  = (Plane (WireID hit) =? 2) && negb (TPC (WireID hit) =? 0)
    && (int_of (PeakTime hit) >? 0).
Proof. done. Qed.

Lemma fill_collection_select hits i h02 h12 :
  fill_collection hits i (h02, h12)
  = (h02 ++ select (valid_on 2 0) i hits,
     h12 ++ select valid_off_tpc0 i hits).
Proof.
  revert i h02 h12. induction hits as [|hit hits IH]; intros i h02 h12.
  - cbn. by rewrite !app_nil_r.
  - cbn [fill_collection]. rewrite !select_cons, valid_on_pair,
      valid_off_tpc0_pair.
    destruct (Plane (WireID hit) =? 2), (int_of (PeakTime hit) >? 0),
      (TPC (WireID hit) =? 0); cbn [andb negb];
      rewrite IH; by rewrite <- ?app_assoc.
Qed.

(** X8.  The two collection buckets hold, in the order of the hit
    collection, one point (wire, integer peak time, position in the
    collection) for every plane-2 hit whose integer peak time is positive:
    [hit_02] those of TPC 0, [hit_12] those of every other TPC. *)
Theorem fill_collection_partitions_plane2 (hits : list Hit) :
  fill_collection hits 0 ([], [])
  = (select (valid_on 2 0) 0 hits, select valid_off_tpc0 0 hits).
Proof. by rewrite fill_collection_select. Qed.

Lemma fill_induction_select m0 m1 hits i acc :
  fill_induction m0 m1 hits i acc
  = if m0 then
      mkInduction (i_hit_00 acc ++ select (valid_on 0 0) i hits)
                  (i_hit_01 acc ++ select (valid_on 1 0) i hits)
                  (i_hit_10 acc) (i_hit_11 acc)
    else if m1 then
      mkInduction (i_hit_00 acc) (i_hit_01 acc)
                  (i_hit_10 acc ++ select (valid_on 0 1) i hits)
                  (i_hit_11 acc ++ select (valid_on 1 1) i hits)
    else acc.
Proof.
  revert i acc. induction hits as [|hit hits IH]; intros i acc.
  - cbn. rewrite !app_nil_r. by destruct acc, m0, m1.
  - cbn [fill_induction]. rewrite IH, !select_cons, !valid_on_pair.
    destruct m0; [|destruct m1; [|done]].
    + destruct (Z.eqb_spec (Plane (WireID hit)) 0) as [E0|E0];
        destruct (Z.eqb_spec (Plane (WireID hit)) 1) as [E1|E1];
        try (exfalso; lia);
        destruct (TPC (WireID hit) =? 0), (int_of (PeakTime hit) >? 0);
        cbn; by rewrite <- ?app_assoc.
    + destruct (Z.eqb_spec (Plane (WireID hit)) 0) as [E0|E0];
        destruct (Z.eqb_spec (Plane (WireID hit)) 1) as [E1|E1];
        try (exfalso; lia);
        destruct (TPC (WireID hit) =? 1), (int_of (PeakTime hit) >? 0);
        cbn; by rewrite <- ?app_assoc.
Qed.

(** X9.  The four induction buckets after the second pass over the
    hits: with a primary line in TPC 0 the buckets of TPC 0 hold the
    points of its valid plane-0 and plane-1 hits and those of TPC 1 stay
    empty; with primary lines in TPC 1 only, the buckets of TPC 1 hold the
    points of its valid plane-0 and plane-1 hits and those of TPC 0 stay
    empty. *)
Theorem fill_induction_buckets (m0 m1 : bool) (hits : list Hit) :
  fill_induction m0 m1 hits 0 (mkInduction [] [] [] [])
  = if m0 then
      mkInduction (select (valid_on 0 0) 0 hits) (select (valid_on 1 0) 0 hits)
                  [] []
    else if m1 then
      mkInduction [] [] (select (valid_on 0 1) 0 hits)
                  (select (valid_on 1 1) 0 hits)
    else mkInduction [] [] [] [].
Proof. by rewrite fill_induction_select. Qed.

(** ** Endpoint matcher: what is recorded for a match *)

Lemma matcher_records_refl hit_idx st : matcher_records hit_idx st st.
Proof.
  split; [auto|]. exists [], [], []. rewrite !app_nil_r.
  repeat split; constructor.
Qed.

Lemma matched_record_base hit_idx lc1 lc2 lc3 t m :
  (∀ n, lc3 !! n = lc2 !! n ∨ lc3 !! n = Some []) →
  matched_record hit_idx lc1 lc2 t m → matched_record hit_idx lc1 lc3 t m.
Proof.
  intros C (i & l & Hl & Hne & Ht & Hm & Hc).
  exists i, l. repeat split; try done.
  destruct (C i) as [E|E]; by rewrite E.
Qed.

Lemma matched_record_later hit_idx lc1 lc2 lc3 t m :
  (∀ n, lc2 !! n = lc1 !! n ∨ lc2 !! n = Some []) →
  matched_record hit_idx lc2 lc3 t m → matched_record hit_idx lc1 lc3 t m.
Proof.
  intros C (i & l & Hl & Hne & Ht & Hm & Hc).
  exists i, l. repeat split; try done.
  destruct (C i) as [E|E]; rewrite E in Hl; [done|congruence].
Qed.

Lemma matcher_records_trans hit_idx st1 st2 st3 :
  matcher_records hit_idx st1 st2 → matcher_records hit_idx st2 st3 →
  matcher_records hit_idx st1 st3.
Proof.
  intros (C1 & p1 & t1 & h1 & Ep1 & Et1 & Eh1 & L1 & F1 & R1)
         (C2 & p2 & t2 & h2 & Ep2 & Et2 & Eh2 & L2 & F2 & R2).
  split.
  - intros n. destruct (C2 n) as [-> | ->]; auto.
  - exists (p1 ++ p2), (t1 ++ t2), (h1 ++ h2).
    rewrite Ep2, Ep1, Et2, Et1, Eh2, Eh1, <- !app_assoc.
    repeat split; try done.
    + rewrite !length_app. lia.
    + by apply Forall_app.
    + apply Forall2_app.
      * eapply Forall2_impl; [done|]. intros t m.
        by apply matched_record_base.
      * eapply Forall2_impl; [done|]. intros t m.
        by apply matched_record_later.
Qed.

Section MatcherRecords.

Variable WireIDsIntersect : WireID_t → WireID_t → Point_t → bool * Point_t.
Variable WireEndPoints : WireID_t → (Q * Q * Q) * (Q * Q * Q).

Local Abbreviation match_ij'' := (match_ij WireIDsIntersect WireEndPoints).
Local Abbreviation match_j'' := (match_j WireIDsIntersect WireEndPoints).
Local Abbreviation match_i'' := (match_i WireIDsIntersect WireEndPoints).
Local Abbreviation match_loop'' := (match_loop WireIDsIntersect WireEndPoints).
Local Abbreviation FindEndpoints'' :=
  (FindEndpoints WireIDsIntersect WireEndPoints).

Lemma match_ij_records hit_idx range hitlist lines_ind i j st matched st' :
  match_ij'' hit_idx range hitlist lines_ind i j st = Ok (matched, st') →
  matcher_records hit_idx st st'.
Proof.
  unfold match_ij. intros H.
  bind_inv H as lc Hlc. apply at_Ok in Hlc.
  bind_inv H as lc1 Hlc1. bind_inv H as lc3 Hlc3.
  bind_inv H as lc4 Hlc4. bind_inv H as lc5 Hlc5.
  bind_inv H as li Hli.
  bind_inv H as li1 Hli1. bind_inv H as li3 Hli3.
  bind_inv H as li4 Hli4. bind_inv H as li5 Hli5.
  apply at_Ok in Hlc1, Hlc3.
  assert (lc ≠ []) as Hne by (intros ->; discriminate).
  cbv zeta in H.
  destruct (_ && _) in H; [|injection H as _ <-; apply matcher_records_refl].
  bind_inv H as awire_col Hac. bind_inv H as awire_ind Hai.
  bind_inv H as cwire_col Hcc. bind_inv H as cwire_ind Hci.
  destruct (negb (Qeq_bool (Mag2 _) 0) && negb (Qeq_bool (Mag2 _) 0)) in H;
    [|injection H as _ <-; apply matcher_records_refl].
  bind_inv H as indices Hidx. bind_inv H as lines_col' Hclr.
  apply at_Ok in Hidx. apply at_clear_Ok in Hclr as [Hi ->].
  injection H as _ <-. unfold matcher_records. cbn.
  split.
  - intros n. destruct (decide (n = i)) as [->|Hn].
    + right. by apply list_lookup_insert_eq.
    + left. by apply list_lookup_insert_ne.
  - eexists [_], [_], [_]. repeat split; [by repeat constructor|].
    constructor; [|constructor]. exists i, lc.
    rewrite !nth_lookup, Hlc1, Hlc3. cbn.
    repeat split; try done; [|by apply list_lookup_insert_eq].
    destruct (Z.ltb_spec lc1 lc3); f_equal; [lia|f_equal; lia|lia|f_equal; lia].
Qed.

Lemma match_j_records hit_idx range hitlist lines_ind i js st st' :
  match_j'' hit_idx range hitlist lines_ind i js st = Ok st' →
  matcher_records hit_idx st st'.
Proof.
  revert st. induction js as [|j js IH]; intros st H; simpl in H.
  - injection H as <-. apply matcher_records_refl.
  - bind_inv H as [matched st1] H1. apply match_ij_records in H1.
    destruct matched.
    + by injection H as <-.
    + exact (matcher_records_trans _ _ _ _ H1 (IH _ H)).
Qed.

Lemma match_loop_records hit_idx range hitlist lines_ind ns st st' :
  match_loop'' hit_idx range hitlist lines_ind ns st = Ok st' →
  matcher_records hit_idx st st'.
Proof.
  revert st. induction ns as [|i ns IH]; intros st H; simpl in H.
  - injection H as <-. apply matcher_records_refl.
  - bind_inv H as st1 H1.
    assert (matcher_records hit_idx st st1) as R1.
    { unfold match_i in H1. bind_inv H1 as lc Hlc.
      destruct (empty lc).
      - injection H1 as <-. apply matcher_records_refl.
      - by eapply match_j_records. }
    exact (matcher_records_trans _ _ _ _ R1 (IH _ H)).
Qed.

Lemma FindEndpoints_records lines_ind hit_idx range hitlist st st' :
  FindEndpoints'' lines_ind hit_idx range hitlist st = Ok st' →
  matcher_records hit_idx st st'.
Proof.
  unfold FindEndpoints. destruct (negb (empty lines_ind)).
  - apply match_loop_records.
  - intros [= <-]. apply matcher_records_refl.
Qed.

(** A match: the pair emitted and the line cleared. *)
Lemma match_ij_matched hit_idx range hitlist lines_ind i j st st' :
  match_ij'' hit_idx range hitlist lines_ind i j st = Ok (true, st') →
  ∃ lc e1 e2 t m,
    e_lines_col st !! i = Some lc ∧ lc ≠ []
    ∧ hit_idx !! i = Some m
    ∧ ¬ (Mag2 e1 == 0)%Q ∧ ¬ (Mag2 e2 == 0)%Q
    ∧ st' = mkEndpoints (<[i := []]> (e_lines_col st))
              (e_muon_endpoints st ++ [[e1; e2]])
              (e_muon_hitpeakT st ++ [t])
              (e_muon_hit_idx st ++ [m]).
Proof.
  unfold match_ij. intros H.
  bind_inv H as lc Hlc. apply at_Ok in Hlc.
  bind_inv H as lc1 Hlc1. bind_inv H as lc3 Hlc3.
  bind_inv H as lc4 Hlc4. bind_inv H as lc5 Hlc5.
  bind_inv H as li Hli.
  bind_inv H as li1 Hli1. bind_inv H as li3 Hli3.
  bind_inv H as li4 Hli4. bind_inv H as li5 Hli5.
  apply at_Ok in Hlc1.
  assert (lc ≠ []) as Hne by (intros ->; discriminate).
  cbv zeta in H.
  destruct (_ && _) in H; [|discriminate H].
  bind_inv H as awire_col Hac. bind_inv H as awire_ind Hai.
  bind_inv H as cwire_col Hcc. bind_inv H as cwire_ind Hci.
  destruct (negb (Qeq_bool (Mag2 _) 0) && negb (Qeq_bool (Mag2 _) 0))
    eqn:Hmag in H; [|discriminate H].
  bind_inv H as indices Hidx. bind_inv H as lines_col' Hclr.
  apply at_Ok in Hidx. apply at_clear_Ok in Hclr as [Hi ->].
  injection H as <-.
  apply andb_true_iff in Hmag as [M1 M2]. apply negb_true_iff in M1, M2.
  eexists lc, _, _, _, indices. repeat split; try done.
  - intros E. apply Qeq_bool_iff in E. congruence.
  - intros E. apply Qeq_bool_iff in E. congruence.
Qed.

(** With a range that is not positive no time test passes. *)
Lemma match_ij_no_range hit_idx range hitlist lines_ind i j st r :
  range <= 0 →
  match_ij'' hit_idx range hitlist lines_ind i j st = Ok r →
  r = (false, st).
Proof.
  unfold match_ij. intros Hr H.
  bind_inv H as lc Hlc.
  bind_inv H as lc1 Hlc1. bind_inv H as lc3 Hlc3.
  bind_inv H as lc4 Hlc4. bind_inv H as lc5 Hlc5.
  bind_inv H as li Hli.
  bind_inv H as li1 Hli1. bind_inv H as li3 Hli3.
  bind_inv H as li4 Hli4. bind_inv H as li5 Hli5.
  cbv zeta in H.
  destruct (Z.ltb_spec (Z.abs ((if lc1 <? lc3 then lc1 else lc3)
                               - (if li1 <? li3 then li1 else li3))) range)
    as [Hlt|_] in H; [lia|].
  cbn [andb] in H. by injection H as <-.
Qed.

Lemma match_loop_no_range hit_idx range hitlist lines_ind ns st st' :
  range <= 0 →
  match_loop'' hit_idx range hitlist lines_ind ns st = Ok st' → st' = st.
Proof.
  intros Hr. revert st.
  assert (∀ i js st st',
            match_j'' hit_idx range hitlist lines_ind i js st = Ok st' →
            st' = st) as Hj.
  { intros i js. induction js as [|j js IH]; intros st st1 H; simpl in H.
    - by injection H as <-.
    - bind_inv H as [matched st2] H1.
      apply (match_ij_no_range _ _ _ _ _ _ _ _ Hr) in H1.
      injection H1 as -> ->. by apply IH. }
  induction ns as [|i ns IH]; intros st H; simpl in H.
  - by injection H as <-.
  - bind_inv H as st1 H1. unfold match_i in H1. bind_inv H1 as lc Hlc.
    destruct (empty lc).
    + injection H1 as <-. by apply IH.
    + apply Hj in H1 as ->. by apply IH.
Qed.

(** On primary lines that are complete or cleared and complete secondary
    lines the matcher returns. *)
Lemma FindEndpoints_total lines_ind hit_idx range hitlist st :
  primary_ok (length hitlist) hit_idx (e_lines_col st) →
  Forall (line_ok (length hitlist)) lines_ind →
  ∃ st', FindEndpoints'' lines_ind hit_idx range hitlist st = Ok st'.
Proof.
  intros Hp Hind. unfold FindEndpoints.
  destruct (negb (empty lines_ind)); [|eauto].
  apply match_loop_total; [done..|].
  intros i Hi. apply elem_of_seq in Hi. lia.
Qed.

End MatcherRecords.

(** C7.  The matcher emits a pair only with two endpoints of nonzero
    squared magnitude, and on emission clears the matched primary line.
    - Step by step: when the body of the [j] loop reports a match for the
      primary line [i], that line was live, it is the line cleared, and
      the one pair appended has two endpoints of nonzero squared
      magnitude; when it reports none, nothing is changed.
    - For a whole call on primary lines that are complete or cleared and
      complete secondary lines: [FindEndpoints] returns; the pairs it
      appends are all nondegenerate; the k-th pair goes with the k-th
      time pair and member list, which come from one primary line, live
      before the call and cleared after it; each pair goes with one line
      cleared and the other lines are as they were.
    - A cleared primary line is skipped by the matching loop, so it
      matches no further secondary line. *)
Theorem FindEndpoints_emits_nondegenerate WireIDsIntersect WireEndPoints
    lines_ind hit_idx range hitlist st :
  primary_ok (length hitlist) hit_idx (e_lines_col st) →
  Forall (line_ok (length hitlist)) lines_ind →
  (∀ lines_ind2 i j st1 matched st2,
     match_ij WireIDsIntersect WireEndPoints hit_idx range hitlist
       lines_ind2 i j st1 = Ok (matched, st2) →
     if matched then
       ∃ lc pair,
         e_lines_col st1 !! i = Some lc ∧ lc ≠ []
         ∧ e_lines_col st2 = <[i := []]> (e_lines_col st1)
         ∧ e_muon_endpoints st2 = e_muon_endpoints st1 ++ [pair]
         ∧ nondegenerate pair
     else st2 = st1)
  ∧ ∃ st',
      FindEndpoints WireIDsIntersect WireEndPoints lines_ind hit_idx range
        hitlist st = Ok st'
      ∧ (∃ new newt newh,
           e_muon_endpoints st' = e_muon_endpoints st ++ new
           ∧ e_muon_hitpeakT st' = e_muon_hitpeakT st ++ newt
           ∧ e_muon_hit_idx st' = e_muon_hit_idx st ++ newh
           ∧ Forall nondegenerate new
           ∧ length new = length newt
           ∧ Forall2 (matched_record hit_idx (e_lines_col st)
                        (e_lines_col st')) newt newh
           ∧ (length new + live_lines (e_lines_col st')
              = live_lines (e_lines_col st))%nat)
      ∧ (∀ n, e_lines_col st' !! n = e_lines_col st !! n
              ∨ e_lines_col st' !! n = Some [])
      ∧ (∀ i lines_ind2 st2,
           e_lines_col st2 !! i = Some [] →
           match_i WireIDsIntersect WireEndPoints hit_idx range hitlist
             lines_ind2 i st2 = Ok st2).
Proof.
  intros Hp Hind. split.
  { intros lines_ind2 i j st1 [] st2 H.
    - apply match_ij_matched in H
        as (lc & e1 & e2 & t & m & Hlc & Hne & _ & M1 & M2 & ->).
      exists lc, [e1; e2]. repeat split; try done. by exists e1, e2.
    - by eapply match_ij_unmatched. }
  destruct (FindEndpoints_total WireIDsIntersect WireEndPoints lines_ind
              hit_idx range hitlist st Hp Hind) as [st' H].
  exists st'. split; [done|].
  pose proof (FindEndpoints_records _ _ _ _ _ _ _ _ H)
    as (_ & newp & newt & newh & Ep & Et & Eh & L & _ & R).
  apply FindEndpoints_step in H as (_ & C & new & En & Fn & K).
  assert (new = newp) as -> by (rewrite En in Ep; by apply app_inv_head in Ep).
  split; [by exists newp, newt, newh|]. split; [done|].
  intros i lines_ind2 st2. apply match_i_cleared.
Qed.

Lemma FindEndpoints_emits_nondegenerate_witness :
  (∀ lines_ind2 i j st1 matched st2,
     match_ij intersect_all wire_ends_0 crossing_hit_idx_02 30 crossing_hits
       lines_ind2 i j st1 = Ok (matched, st2) →
     if matched then
       ∃ lc pair,
         e_lines_col st1 !! i = Some lc ∧ lc ≠ []
         ∧ e_lines_col st2 = <[i := []]> (e_lines_col st1)
         ∧ e_muon_endpoints st2 = e_muon_endpoints st1 ++ [pair]
         ∧ nondegenerate pair
     else st2 = st1)
  ∧ ∃ st',
      FindEndpoints intersect_all wire_ends_0 crossing_lines_00
        crossing_hit_idx_02 30 crossing_hits
        (mkEndpoints crossing_lines_02 [] [] []) = Ok st'
      ∧ (∃ new newt newh,
           e_muon_endpoints st' = [] ++ new
           ∧ e_muon_hitpeakT st' = [] ++ newt
           ∧ e_muon_hit_idx st' = [] ++ newh
           ∧ Forall nondegenerate new
           ∧ length new = length newt
           ∧ Forall2 (matched_record crossing_hit_idx_02 crossing_lines_02
                        (e_lines_col st')) newt newh
           ∧ (length new + live_lines (e_lines_col st')
              = live_lines crossing_lines_02)%nat)
      ∧ (∀ n, e_lines_col st' !! n = crossing_lines_02 !! n
              ∨ e_lines_col st' !! n = Some [])
      ∧ (∀ i lines_ind2 st2,
           e_lines_col st2 !! i = Some [] →
           match_i intersect_all wire_ends_0 crossing_hit_idx_02 30
             crossing_hits lines_ind2 i st2 = Ok st2).
Proof.
  apply (FindEndpoints_emits_nondegenerate intersect_all wire_ends_0
           crossing_lines_00 crossing_hit_idx_02 30 crossing_hits
           (mkEndpoints crossing_lines_02 [] [] [])).
  - split; [|simpl; lia].
    constructor; [right; unfold line_ok; simpl; lia | constructor].
  - constructor; [unfold line_ok; simpl; lia | constructor].
Defined.

(** X10.  Whenever [FindEndpoints] returns, the three vectors of the
    muon candidates have grown in step: the same number of endpoint pairs,
    time pairs and member lists is appended, every endpoint pair has two
    points, and the k-th time pair and the k-th member list come from the
    same primary line, live before the call and cleared after it: the time
    pair holds the two times of the line, the earlier first, and the
    member list is the one stored at the position of the line. *)
Theorem FindEndpoints_records_in_step WireIDsIntersect WireEndPoints
    lines_ind hit_idx range hitlist st st' :
  FindEndpoints WireIDsIntersect WireEndPoints lines_ind hit_idx range
    hitlist st = Ok st' →
  ∃ newp newt newh,
    e_muon_endpoints st' = e_muon_endpoints st ++ newp
    ∧ e_muon_hitpeakT st' = e_muon_hitpeakT st ++ newt
    ∧ e_muon_hit_idx st' = e_muon_hit_idx st ++ newh
    ∧ length newp = length newt
    ∧ length newt = length newh
    ∧ Forall (λ p, length p = 2%nat) newp
    ∧ Forall (λ t, ∃ t0 t1, t = [t0; t1] ∧ t0 <= t1) newt
    ∧ Forall2 (matched_record hit_idx (e_lines_col st) (e_lines_col st'))
        newt newh.
Proof.
  intros H.
  apply FindEndpoints_records in H
    as (_ & newp & newt & newh & Ep & Et & Eh & L & F & R).
  exists newp, newt, newh. repeat split; try done.
  - by eapply Forall2_length.
  - apply Forall_forall. intros t Ht.
    apply list_elem_of_lookup_1 in Ht as [k Hk].
    destruct (Forall2_lookup_l _ _ _ _ _ R Hk)
      as (m & _ & i & l & _ & _ & -> & _).
    eexists _, _. split; [done|]. lia.
Qed.

Lemma FindEndpoints_records_in_step_witness :
  ∃ newp newt newh,
    e_muon_endpoints crossing_endpoints = [] ++ newp
    ∧ e_muon_hitpeakT crossing_endpoints = [] ++ newt
    ∧ e_muon_hit_idx crossing_endpoints = [] ++ newh
    ∧ length newp = length newt
    ∧ length newt = length newh
    ∧ Forall (λ p, length p = 2%nat) newp
    ∧ Forall (λ t, ∃ t0 t1, t = [t0; t1] ∧ t0 <= t1) newt
    ∧ Forall2 (matched_record crossing_hit_idx_02 crossing_lines_02
                 (e_lines_col crossing_endpoints)) newt newh.
Proof.
  apply (FindEndpoints_records_in_step intersect_all wire_ends_0
           crossing_lines_00 crossing_hit_idx_02 30 crossing_hits
           (mkEndpoints crossing_lines_02 [] [] []) crossing_endpoints).
  vm_compute. reflexivity.
Defined.

(** X11.  With an endpoint range that is not positive the matcher
    matches nothing: whenever [FindEndpoints] returns, the primary lines
    and the three vectors of the muon candidates are as they were, and on
    primary lines that are complete or cleared and complete secondary
    lines it does return. *)
Theorem FindEndpoints_no_range_no_match WireIDsIntersect WireEndPoints
    lines_ind hit_idx range hitlist st :
  range <= 0 →
  (∀ st', FindEndpoints WireIDsIntersect WireEndPoints lines_ind hit_idx
            range hitlist st = Ok st' → st' = st)
  ∧ (primary_ok (length hitlist) hit_idx (e_lines_col st) →
     Forall (line_ok (length hitlist)) lines_ind →
     FindEndpoints WireIDsIntersect WireEndPoints lines_ind hit_idx range
       hitlist st = Ok st).
Proof.
  intros Hr.
  assert (∀ st', FindEndpoints WireIDsIntersect WireEndPoints lines_ind
                   hit_idx range hitlist st = Ok st' → st' = st) as Hsame.
  { intros st'. unfold FindEndpoints. destruct (negb (empty lines_ind)).
    - by apply match_loop_no_range.
    - by intros [= <-]. }
  split; [done|]. intros Hp Hind.
  destruct (FindEndpoints_total WireIDsIntersect WireEndPoints lines_ind
              hit_idx range hitlist st Hp Hind) as [st' H].
  by rewrite H, (Hsame st' H).
Qed.

Lemma FindEndpoints_no_range_no_match_witness :
  (∀ st', FindEndpoints intersect_all wire_ends_0 crossing_lines_00
            crossing_hit_idx_02 0 crossing_hits
            (mkEndpoints crossing_lines_02 [] [] []) = Ok st' →
          st' = mkEndpoints crossing_lines_02 [] [] [])
  ∧ (primary_ok (length crossing_hits) crossing_hit_idx_02
       (e_lines_col (mkEndpoints crossing_lines_02 [] [] [])) →
     Forall (line_ok (length crossing_hits)) crossing_lines_00 →
     FindEndpoints intersect_all wire_ends_0 crossing_lines_00
       crossing_hit_idx_02 0 crossing_hits
       (mkEndpoints crossing_lines_02 [] [] [])
     = Ok (mkEndpoints crossing_lines_02 [] [] [])).
Proof.
  apply (FindEndpoints_no_range_no_match intersect_all wire_ends_0
           crossing_lines_00 crossing_hit_idx_02 0 crossing_hits
           (mkEndpoints crossing_lines_02 [] [] [])).
  lia.
Defined.

(** ** SortEndpoints: one type per pair *)

Lemma SortEndpoints_step_class e1 e2 t0 t1 :
  ∃ e1' e2' t,
    SortEndpoints_step [e1; e2] [t0; t1] = Ok (e1', e2', t)
    ∧ 0 <= t <= 5 ∧ (t = 0 ↔ 2400 < t1 - t0).
Proof.
  unfold SortEndpoints_step. cbn [at_ lookup list_lookup].
  rewrite !res_bind_Ok. cbv zeta.
  destruct (Z.gtb_spec (t1 - t0) 2400).
  { eexists _, _, _. split; [done|]. lia. }
  repeat case_match; eexists _, _, _; (split; [done|]); lia.
Qed.

Lemma SortEndpoints_loop_class eps tps n k ty :
  Forall (λ p : list Point_t, length p = 2%nat) eps →
  Forall (λ t : list Z, length t = 2%nat) tps →
  (k + n ≤ length eps)%nat → (length eps ≤ length tps)%nat →
  ∃ ty',
    SortEndpoints_loop eps tps (seq k n) ty = Ok (ty ++ ty')
    ∧ length ty' = n
    ∧ ∀ j t0 t1, (j < n)%nat → tps !! (k + j)%nat = Some [t0; t1] →
        ∃ t, ty' !! j = Some t ∧ 0 <= t <= 5 ∧ (t = 0 ↔ 2400 < t1 - t0).
Proof.
  intros He Ht. revert k ty.
  induction n as [|n IH]; intros k ty Hk Hlen; cbn [seq SortEndpoints_loop].
  { exists []. rewrite app_nil_r. split; [done|]. split; [done|].
    intros; lia. }
  destruct (at_lt eps k ltac:(lia)) as (pair & Hp & ->).
  destruct (at_lt tps k ltac:(lia)) as (tp & Htp & ->).
  rewrite !res_bind_Ok.
  pose proof (Forall_lookup_1 _ _ _ _ He Hp) as Lp.
  pose proof (Forall_lookup_1 _ _ _ _ Ht Htp) as Lt.
  destruct pair as [|e1 [|e2 [|? ?]]]; try discriminate.
  destruct tp as [|t0 [|t1 [|? ?]]]; try discriminate.
  destruct (SortEndpoints_step_class e1 e2 t0 t1)
    as (e1' & e2' & t & -> & Hr & H0).
  rewrite res_bind_Ok.
  destruct (IH (S k) (ty ++ [t]) ltac:(lia) Hlen) as (ty' & -> & L & Hj).
  exists (t :: ty'). rewrite <- app_assoc. repeat split; [cbn; lia|].
  intros [|j] u0 u1 Hlt Hu.
  - rewrite Nat.add_0_r, Htp in Hu. injection Hu as <- <-. by exists t.
  - apply (Hj j u0 u1); [lia|]. by rewrite <- Hu, Nat.add_succ_comm.
Qed.

(** X13.  On pairs of two endpoints with a time pair each,
    [SortEndpoints] returns, hands back [muon_endpoints] as it received
    it, and appends one type per pair, in the order of the pairs: a type
    between 0 and 5, which is 0 exactly when the later time exceeds the
    earlier one by more than 2400 ticks. *)
Theorem SortEndpoints_one_type_per_pair eps tps ty :
  Forall (λ p : list Point_t, length p = 2%nat) eps →
  Forall (λ t : list Z, length t = 2%nat) tps →
  (length eps ≤ length tps)%nat →
  ∃ ty',
    SortEndpoints eps tps ty = Ok (eps, ty ++ ty')
    ∧ length ty' = length eps
    ∧ ∀ j t0 t1, (j < length eps)%nat → tps !! j = Some [t0; t1] →
        ∃ t, ty' !! j = Some t ∧ 0 <= t <= 5 ∧ (t = 0 ↔ 2400 < t1 - t0).
Proof.
  intros He Ht Hlen. unfold SortEndpoints.
  destruct (SortEndpoints_loop_class eps tps (length eps) 0 ty He Ht
              ltac:(lia) Hlen) as (ty' & -> & L & Hj).
  exists ty'. by rewrite res_bind_Ok.
Qed.

Lemma SortEndpoints_one_type_per_pair_witness :
  ∃ ty',
    SortEndpoints long_pair long_pair_hitpeakT [] = Ok (long_pair, [] ++ ty')
    ∧ length ty' = length long_pair
    ∧ ∀ j t0 t1, (j < length long_pair)%nat →
        long_pair_hitpeakT !! j = Some [t0; t1] →
        ∃ t, ty' !! j = Some t ∧ 0 <= t <= 5 ∧ (t = 0 ↔ 2400 < t1 - t0).
Proof.
  apply (SortEndpoints_one_type_per_pair long_pair long_pair_hitpeakT []).
  - repeat constructor.
  - repeat constructor.
  - simpl. lia.
Defined.

(** ** Track assembly *)

Lemma assn_loop_Ok hitlist tracks (n k : nat) assn assn' :
  assn_loop hitlist tracks (seq k n) assn = Ok assn' →
  assn' = assn ++ map (λ i, (i, (length tracks - 1)%nat)) (seq k n)
  ∧ (n = 0%nat ∨ (k + n ≤ length hitlist)%nat).
Proof.
  revert k assn. induction n as [|n IH]; intros k assn H; cbn [seq assn_loop] in H.
  - injection H as <-. cbn. rewrite app_nil_r. auto.
  - bind_inv H as hk Hk. apply idx_Ok, lookup_lt_Some in Hk.
    apply IH in H as [-> Hn]. unfold CreateAssn. rewrite <- app_assoc.
    split; [done|]. right. lia.
Qed.

(** What one iteration of the track loop does. *)
Lemma track_step_Ok keep hitlist f_type f_t0 f_eps f_hidx f_tr out i out' :
  track_step keep hitlist f_type f_t0 f_eps f_hidx f_tr out i = Ok out' →
  ∃ ty m,
    f_type !! i = Some ty ∧ f_hidx !! i = Some m
    ∧ if keep_track keep ty then
        ∃ trk,
          muon_tracks out' = muon_tracks out ++ [trk]
          ∧ type trk = ty
          ∧ muon_tracks_assn out'
            = muon_tracks_assn out
              ++ map (λ h, (h, length (muon_tracks out))) (seq 0 (length m))
          ∧ (m = [] ∨ (length m ≤ length hitlist)%nat)
      else out' = out.
Proof.
  unfold track_step. intros H.
  bind_inv H as ty Hty. bind_inv H as m Hm.
  exists ty, m. pose proof Hty as Hty'. apply at_Ok in Hty'.
  apply at_Ok in Hm. split; [done|]. split; [done|].
  fold (keep_track keep ty) in H.
  destruct (keep_track keep ty); [|by injection H as <-].
  bind_inv H as pair Hp. bind_inv H as e1 H1. bind_inv H as e2 H2.
  bind_inv H as t0 Ht0. bind_inv H as tr Htr.
  bind_inv H as txz Hxz. bind_inv H as tyz Hyz.
  bind_inv H as type_i Hti. rewrite Hty in Hti. injection Hti as <-.
  cbv zeta in H. bind_inv H as assn Ha. injection H as <-.
  apply assn_loop_Ok in Ha as [-> Hn].
  eexists. cbn [muon_tracks muon_tracks_assn]. split; [done|].
  split; [done|]. split.
  - rewrite length_app. cbn. by rewrite Nat.add_sub.
  - destruct Hn as [Hn|Hn]; [left; by destruct m|right; lia].
Qed.

Lemma track_loop_Ok keep hitlist f_type f_t0 f_eps f_hidx f_tr n k out out' :
  track_loop keep hitlist f_type f_t0 f_eps f_hidx f_tr (seq k n) out
  = Ok out' →
  Forall (λ a : nat * nat, (a.1 < length hitlist)%nat
                           ∧ (a.2 < length (muon_tracks out))%nat)
    (muon_tracks_assn out) →
  map type (muon_tracks out')
  = map type (muon_tracks out)
    ++ List.filter (keep_track keep) (take n (drop k f_type))
  ∧ Forall (λ a : nat * nat, (a.1 < length hitlist)%nat
                             ∧ (a.2 < length (muon_tracks out'))%nat)
      (muon_tracks_assn out').
Proof.
  revert k out. induction n as [|n IH]; intros k out H Ha;
    cbn [seq track_loop] in H.
  { injection H as <-. cbn. by rewrite app_nil_r. }
  bind_inv H as out1 H1.
  apply track_step_Ok in H1 as (ty & m & Hty & Hm & H1).
  rewrite (drop_S _ _ _ Hty). cbn [take List.filter].
  destruct (keep_track keep ty).
  - destruct H1 as (trk & Et & Ety & Ea & Hlen).
    apply IH in H as [-> H].
    + split; [|done]. rewrite Et, map_app. cbn. rewrite Ety.
      by rewrite <- app_assoc.
    + rewrite Ea, Et. apply Forall_app. split.
      * eapply Forall_impl; [done|]. intros a [? ?].
        rewrite length_app. cbn. lia.
      * apply Forall_forall. intros a Hin.
        apply list_elem_of_fmap in Hin as (h & -> & Hh).
        apply elem_of_seq in Hh. rewrite length_app. cbn.
        destruct Hlen as [-> | Hlen]; cbn in Hh; lia.
  - subst out1. by apply IH in H.
Qed.

(** X14.  The tracks put into the event are, in the order of the
    candidates, those whose type is one of [fKeepMuonTypes]: the types of
    the tracks are the types of the candidates filtered by the
    whitelist. *)
Theorem track_loop_keeps_whitelisted keep hitlist f_type f_t0 f_eps f_hidx
    f_tr n out :
  track_loop keep hitlist f_type f_t0 f_eps f_hidx f_tr (seq 0 n)
    (mkProducts [] []) = Ok out →
  map type (muon_tracks out) = List.filter (keep_track keep) (take n f_type).
Proof.
  intros H. apply track_loop_Ok in H as [H _]; [|constructor].
  by rewrite H, drop_0.
Qed.

Lemma track_loop_keeps_whitelisted_witness :
  map type
    [mkMuonTrack (- 200) (- 150) 100 200 (- 150) 146 246 0 0 0 0]
  = List.filter (keep_track [0; 3]) (take 1 [0]).
Proof.
  apply (track_loop_keeps_whitelisted [0; 3] crossing_hits [0] [(- 200)%Q]
           long_pair long_pair_hit_idx [[0%Q; 0%Q]] 1
           (mkProducts
              [mkMuonTrack (- 200) (- 150) 100 200 (- 150) 146 246 0 0 0 0]
              [(0, 0); (1, 0)]%nat)).
  vm_compute. reflexivity.
Defined.

(** X15.  Every association put into the event joins a hit of the hit
    collection with a track of the track collection: both positions are
    inside their collections. *)
Theorem track_loop_associations_in_range keep hitlist f_type f_t0 f_eps
    f_hidx f_tr n out :
  track_loop keep hitlist f_type f_t0 f_eps f_hidx f_tr (seq 0 n)
    (mkProducts [] []) = Ok out →
  Forall (λ a : nat * nat, (a.1 < length hitlist)%nat
                           ∧ (a.2 < length (muon_tracks out))%nat)
    (muon_tracks_assn out).
Proof.
  intros H. by apply track_loop_Ok in H as [_ H]; [|constructor].
Qed.

Lemma track_loop_associations_in_range_witness :
  Forall (λ a : nat * nat,
            (a.1 < length crossing_hits)%nat
            ∧ (a.2 < length
                       [mkMuonTrack (- 200) (- 150) 100 200 (- 150) 146 246
                          0 0 0 0])%nat)
    [(0, 0); (1, 0)]%nat.
Proof.
  apply (track_loop_associations_in_range [0; 3] crossing_hits [0]
           [(- 200)%Q] long_pair long_pair_hit_idx [[0%Q; 0%Q]] 1
           (mkProducts
              [mkMuonTrack (- 200) (- 150) 100 200 (- 150) 146 246 0 0 0 0]
              [(0, 0); (1, 0)]%nat)).
  vm_compute. reflexivity.
Defined.

(** ** The whole of [produce] *)

Lemma select_bucket p i hits :
  hits_in_domain hits →
  (∀ ih, p ih = true → 0 < int_of (PeakTime ih.2)) →
  Forall (λ pt, ∃ x y j, pt = [x; y; Z.of_nat j] ∧ in_domain x y
                         ∧ (j < i + length hits)%nat) (select p i hits)
  ∧ (length (select p i hits) ≤ length hits)%nat.
Proof.
  intros Hd Hp. revert i.
  induction Hd as [|hit hits [Hw Ht] Hd IH]; intros i.
  { split; [constructor|done]. }
  rewrite select_cons. destruct (IH (S i)) as [IH1 IH2].
  assert (Forall (λ pt, ∃ x y j, pt = [x; y; Z.of_nat j] ∧ in_domain x y
                                 ∧ (j < i + length (hit :: hits))%nat)
            (select p (S i) hits)) as IH1'.
  { eapply Forall_impl; [done|]. intros pt (x & y & j & -> & D & Hj).
    exists x, y, j. cbn [length]. repeat split; try done; try apply D. lia. }
  destruct (p (i, hit)) eqn:E; [|split; [done|cbn [length]; lia]].
  split; [|cbn [length]; lia].
  constructor; [|done]. apply Hp in E. cbn in E.
  eexists _, _, i. split; [done|]. split; [|cbn [length]; lia].
  unfold in_domain. cbn. lia.
Qed.

Lemma valid_on_positive plane tpc_ ih :
  valid_on plane tpc_ ih = true → 0 < int_of (PeakTime ih.2).
Proof. unfold valid_on. intros H. apply andb_true_iff in H as [_ H]. lia. Qed.

Lemma valid_off_tpc0_positive ih :
  valid_off_tpc0 ih = true → 0 < int_of (PeakTime ih.2).
Proof.
  unfold valid_off_tpc0. intros H. apply andb_true_iff in H as [_ H]. lia.
Qed.

Lemma hit_bucket_ok nhits v : hit_bucket nhits v → bucket_ok v.
Proof.
  intros H. eapply Forall_impl; [done|].
  intros pt (x & y & j & -> & D & _). right. by exists x, y, (Z.of_nat j).
Qed.

Lemma hit_bucket_source nhits v s :
  hit_bucket nhits v → is_source v s → 0 <= s < Z.of_nat nhits.
Proof.
  intros H (p & x & y & rest & Hp).
  eapply Forall_lookup_1 in H as (x' & y' & j & E & _ & Hj); [|done].
  injection E as _ _ -> _. lia.
Qed.

(** [Hough] on a bucket built from the hits, called with no lines. *)
Lemma Hough_bucket_run Uniform nhits v thr gap range minl muonl save hit_idx :
  (∀ n count, (0 < count)%nat → (Uniform n count < count)%nat) →
  hit_bucket nhits v → (length v ≤ nhits)%nat →
  ∃ l hi,
    Hough Uniform v [thr; gap; range; minl; muonl] save [] hit_idx = Ok (l, hi)
    ∧ Forall (line_ok nhits) l
    ∧ (save = true → hit_idx = [] →
       length hi = length l ∧ Forall (λ m, (length m ≤ nhits)%nat) hi).
Proof.
  intros HU Hb Hlen.
  destruct (Hough_total Uniform v thr gap range minl muonl save [] hit_idx HU
              (hit_bucket_ok _ _ Hb)) as [[l hi] H].
  exists l, hi. split; [done|].
  apply Hough_output in H as (new & newh & -> & -> & Hn & Hs & _ & Hm).
  cbn [app]. split.
  - eapply Forall_impl; [done|]. intros li (L & _ & S4 & S5).
    split; [done|]. split; by eapply hit_bucket_source.
  - intros -> ->. cbn [app]. split; [done|].
    eapply Forall_impl; [done|]. intros m Hm'. cbn in Hm'. lia.
Qed.

Lemma candidates_ok_step nhits hit_idx st st' :
  matcher_records hit_idx st st' →
  Forall (λ m, (length m ≤ nhits)%nat) hit_idx →
  candidates_ok nhits (e_muon_endpoints st) (e_muon_hitpeakT st)
    (e_muon_hit_idx st) →
  candidates_ok nhits (e_muon_endpoints st') (e_muon_hitpeakT st')
    (e_muon_hit_idx st').
Proof.
  intros (_ & newp & newt & newh & -> & -> & -> & L & F & R) Hh
         (L1 & L2 & F1 & F2 & F3).
  pose proof (Forall2_length _ _ _ R) as L'.
  unfold candidates_ok. rewrite !length_app.
  split; [lia|]. split; [lia|]. split; [by apply Forall_app|].
  split; apply Forall_app; (split; [done|]).
  - apply Forall_forall. intros t Ht.
    apply list_elem_of_lookup_1 in Ht as [k Hk].
    by destruct (Forall2_lookup_l _ _ _ _ _ R Hk)
      as (m & _ & i & l & _ & _ & -> & _).
  - apply Forall_forall. intros m Hm.
    apply list_elem_of_lookup_1 in Hm as [k Hk].
    destruct (Forall2_lookup_r _ _ _ _ _ R Hk)
      as (t & _ & i & l & _ & _ & _ & Hi & _).
    by eapply Forall_lookup_1 in Hh.
Qed.

(** One call of the matcher in [produce]. *)
Lemma FindEndpoints_run WireIDsIntersect WireEndPoints lines_ind hit_idx range
    hitlist st :
  primary_ok (length hitlist) hit_idx (e_lines_col st) →
  Forall (line_ok (length hitlist)) lines_ind →
  Forall (λ m, (length m ≤ length hitlist)%nat) hit_idx →
  candidates_ok (length hitlist) (e_muon_endpoints st) (e_muon_hitpeakT st)
    (e_muon_hit_idx st) →
  ∃ st',
    FindEndpoints WireIDsIntersect WireEndPoints lines_ind hit_idx range
      hitlist st = Ok st'
    ∧ primary_ok (length hitlist) hit_idx (e_lines_col st')
    ∧ candidates_ok (length hitlist) (e_muon_endpoints st')
        (e_muon_hitpeakT st') (e_muon_hit_idx st').
Proof.
  intros Hp Hind Hh Hc.
  destruct (FindEndpoints_total WireIDsIntersect WireEndPoints lines_ind
              hit_idx range hitlist st Hp Hind) as [st' H].
  exists st'. split; [done|]. split.
  - eapply primary_ok_step; [|done]. by eapply FindEndpoints_step.
  - eapply candidates_ok_step; [|done..]. by eapply FindEndpoints_records.
Qed.

Lemma FindTrajectories_loop_total atan2 eps tps n k trs :
  Forall (λ p : list Point_t, length p = 2%nat) eps →
  Forall (λ t : list Z, length t = 2%nat) tps →
  (k + n ≤ length eps)%nat → (length eps ≤ length tps)%nat →
  ∃ trs',
    FindTrajectories_loop atan2 eps tps (seq k n) trs = Ok (trs ++ trs')
    ∧ length trs' = n ∧ Forall (λ tr, length tr = 2%nat) trs'.
Proof.
  intros He Ht. revert k trs.
  induction n as [|n IH]; intros k trs Hk Hlen;
    cbn [seq FindTrajectories_loop].
  { exists []. rewrite app_nil_r. split; [done|]. split; [done|constructor]. }
  destruct (lookup_lt_is_Some_2 eps k ltac:(lia)) as [pair Hp].
  destruct (at_lt tps k ltac:(lia)) as (tp & Htp & ->).
  rewrite (proj2 (idx_Ok _ _ _) Hp), !res_bind_Ok.
  pose proof (Forall_lookup_1 _ _ _ _ He Hp) as Lp.
  pose proof (Forall_lookup_1 _ _ _ _ Ht Htp) as Lt.
  destruct pair as [|e1 [|e2 [|? ?]]]; try discriminate.
  destruct tp as [|t0 [|t1 [|? ?]]]; try discriminate.
  unfold FindTrajectories_step. cbn [at_ idx_ lookup list_lookup].
  rewrite !res_bind_Ok. cbv zeta.
  destruct (IH (S k) (trs ++ [[(atan2 (drift_dx (t1 - t0)) (pZ e2 - pZ e1)
                                * 180 / PI)%Q;
                               (atan2 (pY e2 - pY e1) (pZ e2 - pZ e1)
                                * 180 / PI)%Q]])
              ltac:(lia) Hlen) as (trs' & E & L & F).
  rewrite E. eexists (_ :: trs'). rewrite <- app_assoc.
  split; [done|]. split; [cbn; lia|]. by constructor.
Qed.

Lemma Findt0_loop_total tps ty n k t0s :
  Forall (λ t : list Z, length t = 2%nat) tps →
  (k + n ≤ length tps)%nat → (k + n ≤ length ty)%nat →
  ∃ t0s',
    Findt0_loop tps ty (seq k n) t0s = Ok (t0s ++ t0s') ∧ length t0s' = n.
Proof.
  intros Ht. revert k t0s.
  induction n as [|n IH]; intros k t0s Hk Hty; cbn [seq Findt0_loop].
  { exists []. by rewrite app_nil_r. }
  destruct (at_lt ty k ltac:(lia)) as (type_i & _ & ->).
  destruct (at_lt tps k ltac:(lia)) as (tp & Htp & ->).
  rewrite !res_bind_Ok.
  pose proof (Forall_lookup_1 _ _ _ _ Ht Htp) as Lt.
  destruct tp as [|t0 [|t1 [|? ?]]]; try discriminate.
  assert (∃ t, Findt0_step [t0; t1] type_i = Ok t) as [t ->].
  { unfold Findt0_step. cbn [at_ lookup list_lookup].
    repeat case_match; rewrite ?res_bind_Ok; eauto. }
  rewrite res_bind_Ok.
  destruct (IH (S k) (t0s ++ [t]) ltac:(lia) ltac:(lia)) as (t0s' & -> & L).
  exists (t :: t0s'). rewrite <- app_assoc. split; [done|]. cbn. lia.
Qed.

Lemma track_loop_total keep hitlist f_type f_t0 f_eps f_hidx f_tr n k out :
  Forall (λ p : list Point_t, length p = 2%nat) f_eps →
  Forall (λ tr : list Q, length tr = 2%nat) f_tr →
  Forall (λ m : list Z, (length m ≤ length hitlist)%nat) f_hidx →
  (k + n ≤ length f_type)%nat → (k + n ≤ length f_t0)%nat →
  (k + n ≤ length f_eps)%nat → (k + n ≤ length f_hidx)%nat →
  (k + n ≤ length f_tr)%nat →
  ∃ out',
    track_loop keep hitlist f_type f_t0 f_eps f_hidx f_tr (seq k n) out
    = Ok out'.
Proof.
  intros He Htr Hh. revert k out.
  induction n as [|n IH]; intros k out L1 L2 L3 L4 L5;
    cbn [seq track_loop]; [eauto|].
  assert (∃ out1, track_step keep hitlist f_type f_t0 f_eps f_hidx f_tr out k
                  = Ok out1) as [out1 ->].
  { unfold track_step.
    destruct (at_lt f_type k ltac:(lia)) as (ty & _ & ->).
    destruct (at_lt f_hidx k ltac:(lia)) as (m & Hm & ->).
    rewrite !res_bind_Ok. cbv zeta.
    destruct (existsb _ keep); [|eauto].
    destruct (at_lt f_eps k ltac:(lia)) as (pair & Hp & ->).
    destruct (at_lt f_t0 k ltac:(lia)) as (t0 & _ & ->).
    destruct (at_lt f_tr k ltac:(lia)) as (tr & Ht & ->).
    pose proof (Forall_lookup_1 _ _ _ _ He Hp) as Lp.
    pose proof (Forall_lookup_1 _ _ _ _ Htr Ht) as Lt.
    pose proof (Forall_lookup_1 _ _ _ _ Hh Hm) as Lm.
    destruct pair as [|e1 [|e2 [|? ?]]]; try discriminate.
    destruct tr as [|a [|b [|? ?]]]; try discriminate.
    simpl in Lm |- *. rewrite assn_loop_leading by (simpl; lia).
    rewrite res_bind_Ok. eauto. }
  rewrite res_bind_Ok. apply IH; lia.
Qed.

Lemma classify_and_assemble_total atan2 keep hitlist eps tps hidx :
  candidates_ok (length hitlist) eps tps hidx →
  ∃ c, classify_and_assemble atan2 keep hitlist eps tps hidx = Ok c.
Proof.
  intros (L1 & L2 & Fe & Ft & Fh). unfold classify_and_assemble.
  destruct (negb (empty eps)); [|eauto].
  unfold SortEndpoints, FindTrajectories, Findt0.
  destruct (SortEndpoints_loop_class eps tps (length eps) 0 [] Fe Ft
              ltac:(lia) ltac:(lia)) as (ty & -> & Lty & _).
  rewrite !res_bind_Ok. cbn [app].
  destruct (FindTrajectories_loop_total atan2 eps tps (length eps) 0 [] Fe Ft
              ltac:(lia) ltac:(lia)) as (trs & -> & Ltr & Ftr).
  rewrite res_bind_Ok. cbn [app].
  destruct (Findt0_loop_total tps ty (length tps) 0 [] Ft ltac:(lia)
              ltac:(lia)) as (t0s & -> & Lt0).
  rewrite res_bind_Ok. cbn [app].
  destruct (track_loop_total keep hitlist ty t0s eps hidx trs (length eps) 0
              (mkProducts [] []) Fe Ftr Fh) as [out ->]; try lia.
  rewrite res_bind_Ok. eauto.
Qed.

Lemma select_good p hits :
  hits_in_domain hits →
  (∀ ih, p ih = true → 0 < int_of (PeakTime ih.2)) →
  good_bucket hits (select p 0 hits).
Proof.
  intros Hd Hp. destruct (select_bucket p 0 hits Hd Hp) as [H1 H2].
  split; [exact H1|done].
Qed.

Lemma nil_good hits : good_bucket hits [].
Proof. split; [constructor|cbn; lia]. Qed.

Lemma fill_induction_good m0 m1 hits :
  hits_in_domain hits →
  good_bucket hits
    (i_hit_00 (fill_induction m0 m1 hits 0 (mkInduction [] [] [] [])))
  ∧ good_bucket hits
      (i_hit_01 (fill_induction m0 m1 hits 0 (mkInduction [] [] [] [])))
  ∧ good_bucket hits
      (i_hit_10 (fill_induction m0 m1 hits 0 (mkInduction [] [] [] [])))
  ∧ good_bucket hits
      (i_hit_11 (fill_induction m0 m1 hits 0 (mkInduction [] [] [] []))).
Proof.
  intros Hd. rewrite fill_induction_select.
  destruct m0; [|destruct m1]; cbn;
    repeat split; try apply nil_good;
    apply select_good; try done; apply valid_on_positive.
Qed.

Section Whole.

Variable Uniform : nat → nat → nat.
Variable WireIDsIntersect : WireID_t → WireID_t → Point_t → bool * Point_t.
Variable WireEndPoints : WireID_t → (Q * Q * Q) * (Q * Q * Q).
Variable atan2 : Q → Q → Q.

Hypothesis Uniform_lt :
  ∀ n count, (0 < count)%nat → (Uniform n count < count)%nat.

(** The secondary Hough calls and the two matcher calls of one TPC. *)
Lemma tpc_block_total cfg hits b0 b1 ie l2 hi2 eps tps hidx :
  good_bucket hits b0 → good_bucket hits b1 →
  Forall (line_ok (length hits)) l2 →
  length hi2 = length l2 →
  Forall (λ m, (length m ≤ length hits)%nat) hi2 →
  candidates_ok (length hits) eps tps hidx →
  ∃ l0 ie1 l1 ie2 e1 e2,
    Hough Uniform b0
      [fHoughThreshold cfg; fHoughMaxGap cfg; fHoughRange cfg;
       fHoughMinLength cfg; fHoughMuonLength cfg] false [] ie = Ok (l0, ie1)
    ∧ Hough Uniform b1
        [fHoughThreshold cfg; fHoughMaxGap cfg; fHoughRange cfg;
         fHoughMinLength cfg; fHoughMuonLength cfg] false [] ie1
      = Ok (l1, ie2)
    ∧ FindEndpoints WireIDsIntersect WireEndPoints l0 hi2 (fEndpointRange cfg)
        hits (mkEndpoints l2 eps tps hidx) = Ok e1
    ∧ FindEndpoints WireIDsIntersect WireEndPoints l1 hi2 (fEndpointRange cfg)
        hits e1 = Ok e2
    ∧ candidates_ok (length hits) (e_muon_endpoints e2) (e_muon_hitpeakT e2)
        (e_muon_hit_idx e2).
Proof using Uniform_lt.
  intros [B0 L0] [B1 L1] Hl2 Hlen Hh Hc.
  destruct (Hough_bucket_run Uniform (length hits) b0 (fHoughThreshold cfg)
              (fHoughMaxGap cfg) (fHoughRange cfg) (fHoughMinLength cfg)
              (fHoughMuonLength cfg) false ie Uniform_lt B0 L0)
    as (l0 & ie1 & H0 & Hl0 & _).
  destruct (Hough_bucket_run Uniform (length hits) b1 (fHoughThreshold cfg)
              (fHoughMaxGap cfg) (fHoughRange cfg) (fHoughMinLength cfg)
              (fHoughMuonLength cfg) false ie1 Uniform_lt B1 L1)
    as (l1 & ie2 & H1 & Hl1 & _).
  assert (primary_ok (length hits) hi2 l2) as P0.
  { split; [|lia]. eapply Forall_impl; [exact Hl2|]. by right. }
  destruct (FindEndpoints_run WireIDsIntersect WireEndPoints l0 hi2
              (fEndpointRange cfg) hits (mkEndpoints l2 eps tps hidx)
              P0 Hl0 Hh Hc) as (e1 & E1 & P1 & C1).
  destruct (FindEndpoints_run WireIDsIntersect WireEndPoints l1 hi2
              (fEndpointRange cfg) hits e1 P1 Hl1 Hh C1)
    as (e2 & E2 & P2 & C2).
  by exists l0, ie1, l1, ie2, e1, e2.
Qed.

Lemma produce_total cfg hits :
  hits_in_domain hits →
  ∃ f out,
    produce Uniform WireIDsIntersect WireEndPoints atan2 cfg (Some hits)
    = Ok (f, out).
Proof using Uniform_lt.
  intros Hd. unfold produce. rewrite fill_collection_select.
  cbv beta iota zeta. cbn [app].
  destruct (select_good (valid_on 2 0) hits Hd (valid_on_positive 2 0))
    as [B02 L02].
  destruct (select_good valid_off_tpc0 hits Hd valid_off_tpc0_positive)
    as [B12 L12].
  destruct (Hough_bucket_run Uniform (length hits) _ (fHoughThreshold cfg)
              (fHoughMaxGap cfg) (fHoughRange cfg) (fHoughMinLength cfg)
              (fHoughMuonLength cfg) true [] Uniform_lt B02 L02)
    as (l02 & hi02 & -> & Hl02 & Hs02).
  destruct (Hs02 eq_refl eq_refl) as [Lh02 Fh02].
  destruct (Hough_bucket_run Uniform (length hits) _ (fHoughThreshold cfg)
              (fHoughMaxGap cfg) (fHoughRange cfg) (fHoughMinLength cfg)
              (fHoughMuonLength cfg) true [] Uniform_lt B12 L12)
    as (l12 & hi12 & -> & Hl12 & Hs12).
  destruct (Hs12 eq_refl eq_refl) as [Lh12 Fh12].
  rewrite !res_bind_Ok. cbv beta iota.
  destruct (fill_induction_good (negb (empty l02)) (negb (empty l12)) hits Hd)
    as (G00 & G01 & G10 & G11).
  set (ind := fill_induction _ _ _ _ _) in *. clearbody ind.
  assert (candidates_ok (length hits) [] [] []) as C0
    by (repeat split; constructor).
  assert (∀ ep,
            candidates_ok (length hits) (e_muon_endpoints ep)
              (e_muon_hitpeakT ep) (e_muon_hit_idx ep) →
            ∃ c, classify_and_assemble atan2 (fKeepMuonTypes cfg) hits
                   (e_muon_endpoints ep) (e_muon_hitpeakT ep)
                   (e_muon_hit_idx ep) = Ok c) as Hclass
    by (intros ep; apply classify_and_assemble_total).
  destruct (negb (empty l02)).
  - destruct (tpc_block_total cfg hits (i_hit_00 ind) (i_hit_01 ind) [] l02
                hi02 [] [] [] G00 G01 Hl02 Lh02 Fh02 C0)
      as (l00 & ie1 & l01 & ie2 & e1 & e2 & H0 & H1 & H2 & H3 & C2).
    cbn [orb]. rewrite H0, res_bind_Ok. cbv beta iota.
    rewrite H1, res_bind_Ok. cbv beta iota.
    rewrite H2, res_bind_Ok, H3, !res_bind_Ok. cbv beta iota.
    destruct (negb (empty l12)).
    + destruct (tpc_block_total cfg hits (i_hit_10 ind) (i_hit_11 ind) ie2 l12
                  hi12 _ _ _ G10 G11 Hl12 Lh12 Fh12 C2)
        as (l10 & ie3 & l11 & ie4 & e3 & e4 & H4 & H5 & H6 & H7 & C4).
      rewrite H4, res_bind_Ok. cbv beta iota.
      rewrite H5, res_bind_Ok. cbv beta iota.
      rewrite H6, res_bind_Ok, H7, !res_bind_Ok. cbv beta iota.
      destruct (Hclass e4 C4) as [c ->]. rewrite res_bind_Ok. eauto.
    + rewrite res_bind_Ok. cbv beta iota.
      destruct (Hclass e2 C2) as [c ->]. rewrite res_bind_Ok. eauto.
  - cbn [orb]. destruct (negb (empty l12)); [|eauto].
    rewrite res_bind_Ok. cbv beta iota.
    cbn [e_muon_endpoints e_muon_hitpeakT e_muon_hit_idx].
    destruct (tpc_block_total cfg hits (i_hit_10 ind) (i_hit_11 ind) [] l12
                hi12 [] [] [] G10 G11 Hl12 Lh12 Fh12 C0)
      as (l10 & ie3 & l11 & ie4 & e3 & e4 & H4 & H5 & H6 & H7 & C4).
    rewrite H4, res_bind_Ok. cbv beta iota.
    rewrite H5, res_bind_Ok. cbv beta iota.
    rewrite H6, res_bind_Ok, H7, !res_bind_Ok. cbv beta iota.
    destruct (Hclass e4 C4) as [c ->]. rewrite res_bind_Ok. eauto.
Qed.

End Whole.

(** X16.  With a generator that draws a position among the points
    left, [produce] returns on every event whose hits lie in the
    coordinate domain of the accumulator (wire in [0, 2000], integer peak
    time at most 3500), for every configuration and every geometry: no
    access leaves the accumulator, a bucket, a line, the hit collection
    or one of the vectors of the muon candidates. *)
Theorem produce_in_domain_returns Uniform WireIDsIntersect WireEndPoints
    atan2 cfg hits :
  (∀ n count, (0 < count)%nat → (Uniform n count < count)%nat) →
  hits_in_domain hits →
  ∃ f out,
    produce Uniform WireIDsIntersect WireEndPoints atan2 cfg (Some hits)
    = Ok (f, out).
Proof. intros HU. by apply produce_total. Qed.

Lemma produce_in_domain_returns_witness :
  ∃ f out,
    produce Uniform_mod intersect_all wire_ends_0 atan2_0 cfg_2
      (Some crossing_hits) = Ok (f, out).
Proof.
  apply (produce_in_domain_returns Uniform_mod intersect_all wire_ends_0
           atan2_0 cfg_2 crossing_hits).
  - intros n count Hc. unfold Uniform_mod. apply Nat.mod_upper_bound. lia.
  - unfold hits_in_domain, crossing_hits, w, h.
    repeat (constructor; [vm_compute; repeat split; discriminate|]).
    constructor.
Defined.

(** ** The vectors of the muon candidates after [produce] *)

Lemma SortEndpoints_loop_length eps tps ns ty ty' :
  SortEndpoints_loop eps tps ns ty = Ok ty' →
  length ty' = (length ty + length ns)%nat.
Proof.
  revert ty. induction ns as [|i ns IH]; intros ty H;
    cbn [SortEndpoints_loop] in H.
  - injection H as <-. cbn. lia.
  - bind_inv H as pair Hp. bind_inv H as tp Ht.
    bind_inv H as [[e1 e2] t] Hs. apply IH in H.
    rewrite length_app in H. cbn in *. lia.
Qed.

Lemma FindTrajectories_loop_length atan2 eps tps ns trs trs' :
  FindTrajectories_loop atan2 eps tps ns trs = Ok trs' →
  length trs' = (length trs + length ns)%nat.
Proof.
  revert trs. induction ns as [|i ns IH]; intros trs H;
    cbn [FindTrajectories_loop] in H.
  - injection H as <-. cbn. lia.
  - bind_inv H as pair Hp. bind_inv H as tp Ht. bind_inv H as tr Hs.
    apply IH in H. rewrite length_app in H. cbn in *. lia.
Qed.

Lemma Findt0_loop_length tps ty ns t0s t0s' :
  Findt0_loop tps ty ns t0s = Ok t0s' →
  length t0s' = (length t0s + length ns)%nat.
Proof.
  revert t0s. induction ns as [|i ns IH]; intros t0s H;
    cbn [Findt0_loop] in H.
  - injection H as <-. cbn. lia.
  - bind_inv H as type_i Hp. bind_inv H as tp Ht. bind_inv H as t0 Hs.
    apply IH in H. rewrite length_app in H. cbn in *. lia.
Qed.

Lemma classify_and_assemble_Ok atan2 keep hitlist eps tps hidx c :
  classify_and_assemble atan2 keep hitlist eps tps hidx = Ok c →
  length eps = length tps →
  c_endpoints c = eps
  ∧ length (c_type c) = length eps
  ∧ length (c_t0 c) = length eps
  ∧ length (c_trajectories c) = length eps
  ∧ map type (muon_tracks (c_products c))
    = List.filter (keep_track keep) (c_type c)
  ∧ Forall (λ a : nat * nat,
              (a.1 < length hitlist)%nat
              ∧ (a.2 < length (muon_tracks (c_products c)))%nat)
      (muon_tracks_assn (c_products c)).
Proof.
  unfold classify_and_assemble. intros H L.
  destruct eps as [|p eps'] eqn:E; cbn [empty negb] in H.
  { injection H as <-. cbn. repeat split; constructor. }
  rewrite <- E in *. clear E.
  bind_inv H as [eps1 ty] Hs. bind_inv H as trs Htr. bind_inv H as t0s Ht0.
  bind_inv H as out Hout. injection H as <-. cbn.
  unfold SortEndpoints in Hs. bind_inv Hs as ty1 Hs1.
  injection Hs as <- <-.
  unfold FindTrajectories in Htr. unfold Findt0 in Ht0.
  apply SortEndpoints_loop_length in Hs1.
  apply (FindTrajectories_loop_length atan2 eps tps (seq 0 (length eps)) [])
    in Htr.
  apply (Findt0_loop_length tps ty1 (seq 0 (length tps)) []) in Ht0.
  rewrite length_seq in Hs1, Htr, Ht0. cbn in Hs1, Htr, Ht0.
  apply track_loop_Ok in Hout as [Hty Ha]; [|constructor].
  repeat split; try done; try lia.
  rewrite Hty, drop_0. cbn [muon_tracks map app].
  by rewrite firstn_all2 by lia.
Qed.

Lemma records_in_step hit_idx st st' :
  matcher_records hit_idx st st' →
  length (e_muon_endpoints st) = length (e_muon_hitpeakT st)
  ∧ length (e_muon_hit_idx st) = length (e_muon_hitpeakT st) →
  length (e_muon_endpoints st') = length (e_muon_hitpeakT st')
  ∧ length (e_muon_hit_idx st') = length (e_muon_hitpeakT st').
Proof.
  intros (_ & newp & newt & newh & -> & -> & -> & L & _ & R) [L1 L2].
  apply Forall2_length in R. rewrite !length_app. lia.
Qed.

Section Candidates.

Variable Uniform : nat → nat → nat.
Variable WireIDsIntersect : WireID_t → WireID_t → Point_t → bool * Point_t.
Variable WireEndPoints : WireID_t → (Q * Q * Q) * (Q * Q * Q).
Variable atan2 : Q → Q → Q.

Lemma produce_candidates cfg evt_hits f out :
  produce Uniform WireIDsIntersect WireEndPoints atan2 cfg evt_hits
  = Ok (f, out) →
  length (muon_endpoints f) = length (muon_hitpeakT f)
  ∧ length (muon_hit_idx f) = length (muon_hitpeakT f)
  ∧ length (muon_type f) = length (muon_hitpeakT f)
  ∧ length (muon_t0 f) = length (muon_hitpeakT f)
  ∧ length (muon_trajectories f) = length (muon_hitpeakT f)
  ∧ map type (muon_tracks out)
    = List.filter (keep_track (fKeepMuonTypes cfg)) (muon_type f)
  ∧ Forall (λ a : nat * nat,
              (a.1 < length (default [] evt_hits))%nat
              ∧ (a.2 < length (muon_tracks out))%nat)
      (muon_tracks_assn out).
Proof.
  unfold produce. intros H.
  replace (match evt_hits with Some l => l | None => [] end)
    with (default [] evt_hits) in H by (by destruct evt_hits).
  destruct (fill_collection (default [] evt_hits) 0 ([], []))
    as [h02 h12] eqn:Hfill.
  cbv zeta in H.
  bind_inv H as [l02 hi02] H02. bind_inv H as [l12 hi12] H12.
  destruct (_ || _) in H;
    [|injection H as <- <-; cbn; repeat split; constructor].
  bind_inv H as [[[[l00 l01] l02'] ie] ep] Hb0.
  bind_inv H as [[[l10 l11] l12'] ep'] Hb1.
  bind_inv H as c Hc.
  injection H as <- <-. cbn.
  assert (length (e_muon_endpoints ep) = length (e_muon_hitpeakT ep)
          ∧ length (e_muon_hit_idx ep) = length (e_muon_hitpeakT ep)) as S0.
  { destruct (negb (empty l02)); [|by injection Hb0 as <- <- <- <- <-].
    bind_inv Hb0 as [l0 ie1] H0. bind_inv Hb0 as [l1 ie2] H1.
    bind_inv Hb0 as e1 E1. bind_inv Hb0 as e2 E2.
    injection Hb0 as <- <- <- <- <-.
    apply FindEndpoints_records in E1, E2.
    eapply records_in_step; [exact E2|].
    eapply records_in_step; [exact E1|]. done. }
  assert (length (e_muon_endpoints ep') = length (e_muon_hitpeakT ep')
          ∧ length (e_muon_hit_idx ep') = length (e_muon_hitpeakT ep')) as S1.
  { destruct (negb (empty l12)); [|by injection Hb1 as <- <- <- <-].
    bind_inv Hb1 as [l0 ie1] H0. bind_inv Hb1 as [l1 ie2] H1.
    bind_inv Hb1 as e1 E1. bind_inv Hb1 as e2 E2.
    injection Hb1 as <- <- <- <-.
    apply FindEndpoints_records in E1, E2.
    eapply records_in_step; [exact E2|].
    eapply records_in_step; [exact E1|]. done. }
  destruct S1 as [S1 S2].
  apply classify_and_assemble_Ok in Hc
    as (-> & Lty & Lt0 & Ltr & Hty & Ha); [|done].
  repeat split; try done; lia.
Qed.

End Candidates.

(** X17.  Whenever [produce] returns, the six vectors of the muon
    candidates ([muon_endpoints], [muon_hitpeakT], [muon_hit_idx],
    [muon_type], [muon_t0], [muon_trajectories]) have the same length;
    the types of the tracks put into the event are the types of the
    candidates filtered by [fKeepMuonTypes], in their order; and every
    association joins a hit of the event with a track of the output
    collection. *)
Theorem produce_candidates_in_step Uniform WireIDsIntersect WireEndPoints
    atan2 cfg evt_hits f out :
  produce Uniform WireIDsIntersect WireEndPoints atan2 cfg evt_hits
  = Ok (f, out) →
  length (muon_endpoints f) = length (muon_hitpeakT f)
  ∧ length (muon_hit_idx f) = length (muon_hitpeakT f)
  ∧ length (muon_type f) = length (muon_hitpeakT f)
  ∧ length (muon_t0 f) = length (muon_hitpeakT f)
  ∧ length (muon_trajectories f) = length (muon_hitpeakT f)
  ∧ map type (muon_tracks out)
    = List.filter (keep_track (fKeepMuonTypes cfg)) (muon_type f)
  ∧ Forall (λ a : nat * nat,
              (a.1 < length (default [] evt_hits))%nat
              ∧ (a.2 < length (muon_tracks out))%nat)
      (muon_tracks_assn out).
Proof. apply produce_candidates. Qed.

Lemma produce_candidates_in_step_witness :
  length (muon_endpoints crossing_fields)
  = length (muon_hitpeakT crossing_fields)
  ∧ length (muon_hit_idx crossing_fields)
    = length (muon_hitpeakT crossing_fields)
  ∧ length (muon_type crossing_fields)
    = length (muon_hitpeakT crossing_fields)
  ∧ length (muon_t0 crossing_fields) = length (muon_hitpeakT crossing_fields)
  ∧ length (muon_trajectories crossing_fields)
    = length (muon_hitpeakT crossing_fields)
  ∧ map type (muon_tracks crossing_products)
    = List.filter (keep_track (fKeepMuonTypes cfg_2))
        (muon_type crossing_fields)
  ∧ Forall (λ a : nat * nat,
              (a.1 < length (default [] (Some crossing_hits)))%nat
              ∧ (a.2 < length (muon_tracks crossing_products))%nat)
      (muon_tracks_assn crossing_products).
Proof.
  apply (produce_candidates_in_step Uniform_010 intersect_all wire_ends_0
           atan2_0 cfg_2 (Some crossing_hits) crossing_fields
           crossing_products).
  vm_compute. reflexivity.
Defined.

(** ** opDetDigitizerSBND: the map of direct light *)

Lemma head_app_first {A} (l1 l2 : list A) :
  head (l1 ++ l2) = match head l1 with Some a => Some a | None => head l2 end.
Proof. by destruct l1. Qed.

Section DirectLight.

Variable pdType : Z → string → bool.
Variable differs_from_input : string → bool.
Context {P : Type}.
Variable OpChannel : P → Z.

Local Abbreviation direct_photon' :=
  (direct_photon pdType OpChannel).
Local Abbreviation direct_handle' :=
  (direct_handle pdType differs_from_input OpChannel).
Local Abbreviation direct_pmt' :=
  (direct_pmt pdType differs_from_input OpChannel).

Lemma map_insert_lookup (auxmap : gmap Z P) ch p k :
  map_insert auxmap ch p !! k
  = match auxmap !! k with
    | Some q => Some q
    | None => if OpChannel p =? k then
                if ch =? OpChannel p then Some p else None
              else if ch =? k then Some p else None
    end.
Proof.
  unfold map_insert. destruct (auxmap !! ch) eqn:E.
  - destruct (auxmap !! k) eqn:Ek; [done|].
    destruct (Z.eqb_spec ch k) as [->|Hne]; [congruence|].
    destruct (Z.eqb_spec (OpChannel p) k) as [<-|]; [|done].
    by destruct (Z.eqb_spec ch (OpChannel p)).
  - destruct (Z.eqb_spec ch k) as [->|Hne].
    + rewrite lookup_insert_eq, E.
      destruct (Z.eqb_spec (OpChannel p) k) as [->|]; [|done].
      by rewrite Z.eqb_refl.
    + rewrite lookup_insert_ne by done.
      destruct (auxmap !! k); [done|].
      destruct (Z.eqb_spec (OpChannel p) k) as [<-|]; [|done].
      by destruct (Z.eqb_spec ch (OpChannel p)).
Qed.

Lemma foldl_direct_reflected (auxmap : gmap Z P) ps :
  foldl (direct_photon' true) auxmap ps = auxmap.
Proof.
  induction ps as [|p ps IH]; [done|]. cbn [foldl].
  unfold direct_photon at 2. by rewrite andb_false_r.
Qed.

Lemma foldl_direct_lookup (auxmap : gmap Z P) ps k :
  foldl (direct_photon' false) auxmap ps !! k
  = match auxmap !! k with
    | Some q => Some q
    | None =>
      head (List.filter (λ p, OpChannel p =? k)
              (List.filter (λ p, pdType (OpChannel p) "pmt") ps))
    end.
Proof.
  revert auxmap. induction ps as [|p ps IH]; intros auxmap; cbn [foldl].
  { cbn. by destruct (auxmap !! k). }
  rewrite IH. unfold direct_photon. cbn [List.filter negb].
  rewrite andb_true_r.
  destruct (pdType (OpChannel p) "pmt"); [|done].
  rewrite map_insert_lookup, Z.eqb_refl. cbn [List.filter].
  destruct (auxmap !! k); [done|].
  by destruct (OpChannel p =? k).
Qed.

Lemma direct_handle_lookup (auxmap : gmap Z P) h k :
  direct_handle' auxmap h !! k
  = match auxmap !! k with
    | Some q => Some q
    | None => head (List.filter (λ p, OpChannel p =? k) (direct_pmt' [h]))
    end.
Proof.
  unfold direct_handle, direct_pmt, direct_light. cbn [map concat].
  rewrite app_nil_r.
  destruct (isValid h); cbn [negb andb]; [|by destruct (auxmap !! k)].
  destruct (differs_from_input (moduleLabel h)); cbn [negb andb];
    [by destruct (auxmap !! k)|].
  destruct (String.eqb (productInstanceName h) "Reflected"); cbn [negb].
  - rewrite foldl_direct_reflected. by destruct (auxmap !! k).
  - apply foldl_direct_lookup.
Qed.

Lemma CreateDirectPhotonMap_lookup (auxmap : gmap Z P) hs k :
  CreateDirectPhotonMap pdType differs_from_input OpChannel auxmap hs !! k
  = match auxmap !! k with
    | Some q => Some q
    | None => head (List.filter (λ p, OpChannel p =? k) (direct_pmt' hs))
    end.
Proof.
  unfold CreateDirectPhotonMap. revert auxmap.
  induction hs as [|h hs IH]; intros auxmap; cbn [foldl].
  { cbn. by destruct (auxmap !! k). }
  rewrite IH, direct_handle_lookup.
  assert (direct_pmt' (h :: hs) = direct_pmt' [h] ++ direct_pmt' hs) as ->.
  { unfold direct_pmt. cbn [map concat]. by rewrite app_nil_r. }
  rewrite List.filter_app, head_app_first.
  destruct (auxmap !! k); [done|]. by destruct (head _).
Qed.

End DirectLight.

(** X18.  After [CreateDirectPhotonMap] every channel holds what it
    held before, when it was present; otherwise it holds the first photon
    collection of that channel among the PMT collections of direct light
    (valid handles of the input module whose instance name is not
    Reflected), in the order of the handles, and is absent when there is
    none.  Later collections of the same channel are dropped. *)
Theorem CreateDirectPhotonMap_first_direct_wins pdType differs_from_input
    {P : Type} (OpChannel : P → Z) (auxmap : gmap Z P) hs k :
  CreateDirectPhotonMap pdType differs_from_input OpChannel auxmap hs !! k
  = match auxmap !! k with
    | Some q => Some q
    | None =>
      head (List.filter (λ p, OpChannel p =? k)
              (direct_pmt pdType differs_from_input OpChannel hs))
    end.
Proof. apply CreateDirectPhotonMap_lookup. Qed.

(** X19.  An entry of the map after [CreateDirectPhotonMapLite] was
    there before, or it is keyed by its own channel, a PMT channel, and
    comes from a valid handle of the input module that holds direct
    light. *)
Theorem CreateDirectPhotonMapLite_entries pdType differs_from_input
    {P : Type} (OpChannel : P → Z) (auxmap : gmap Z P) hs k p :
  CreateDirectPhotonMapLite pdType differs_from_input OpChannel auxmap hs !! k
  = Some p →
  auxmap !! k = Some p
  ∨ (OpChannel p = k ∧ pdType k "pmt" = true
     ∧ ∃ h, In h hs ∧ In p (product h)
            ∧ direct_light differs_from_input h = true).
Proof.
  intros H.
  change (CreateDirectPhotonMapLite pdType differs_from_input OpChannel
            auxmap hs)
    with (CreateDirectPhotonMap pdType differs_from_input OpChannel auxmap hs)
    in H.
  rewrite CreateDirectPhotonMap_lookup in H.
  destruct (auxmap !! k); [by left|right].
  apply head_Some_elem_of, list_elem_of_In, List.filter_In in H as [Hin Hk].
  apply Z.eqb_eq in Hk. subst k.
  unfold direct_pmt in Hin. apply in_concat in Hin as (l & Hl & Hp).
  apply in_map_iff in Hl as (h & <- & Hh).
  destruct (direct_light differs_from_input h) eqn:Hd; [|done].
  apply List.filter_In in Hp as [Hp Hpmt].
  split; [done|]. split; [done|]. by exists h.
Qed.

Lemma CreateDirectPhotonMapLite_entries_witness :
  (∅ : gmap Z (Z * Z)) !! 2 = Some (2, 10)
  ∨ (fst (2, 10) = 2 ∧ pdType_even 2 "pmt" = true
     ∧ ∃ h, In h two_handles ∧ In (2, 10) (product h)
            ∧ direct_light differs_from_largeant h = true).
Proof.
  apply (CreateDirectPhotonMapLite_entries pdType_even differs_from_largeant
           fst ∅ two_handles 2 (2, 10)).
  vm_compute. reflexivity.
Defined.

(** ** Hough: no hit is a member of two lines *)

Lemma fresh_members_prefix coords0 data ms ms' :
  fresh_members coords0 data (ms ++ ms') → fresh_members coords0 data ms.
Proof.
  intros [Hn Hf]. apply NoDup_app in Hn as (Hn & _ & _).
  apply Forall_app in Hf as [Hf _]. by split.
Qed.

Lemma walk_fresh coords0 max_gap range rho theta save positions gap ws ws'
    used :
  distinct_hits coords0 →
  walk max_gap range rho theta save positions gap ws = Ok ws' →
  only_cleared coords0 (w_data ws) →
  fresh_members coords0 (w_data ws) (used ++ w_lines_idx ws) →
  fresh_members coords0 (w_data ws') (used ++ w_lines_idx ws').
Proof.
  intros Hdist. revert gap ws.
  induction positions as [|p rest IH]; intros gap ws H Hoc Hf;
    cbn [walk] in H.
  { destruct (gap <? max_gap); by injection H as <-. }
  destruct (gap <? max_gap); [|by injection H as <-].
  bind_inv H as pt Hpt. apply at_Ok in Hpt.
  destruct (empty pt); [by eapply IH|].
  bind_inv H as [[x1 y1] wire_idx] Hp3. apply point3_Ok in Hp3 as [tl ->].
  destruct (w_endpoint ws) as [[[last_x ?] ?] ?].
  destruct (_ && _); [by injection H as <-|].
  destruct (in_range rho theta range x1 y1); [|by eapply IH].
  bind_inv H as coords' Hc. bind_inv H as data' Hd.
  apply at_clear_Ok in Hd as [Hpd ->].
  assert (coords0 !! p = Some (x1 :: y1 :: wire_idx :: tl)) as H0
    by (by eapply only_cleared_live).
  eapply IH in H; [done| |]; cbn [w_data w_lines_idx].
  { exact (only_cleared_trans _ _ _ Hoc (only_cleared_insert _ _)). }
  destruct Hf as [Hnd Hall].
  assert (Forall (λ s, ∃ q x y tl',
                    coords0 !! q = Some (x :: y :: s :: tl')
                    ∧ <[p:=[]]> (w_data ws) !! q = Some [])
            (used ++ w_lines_idx ws)) as Hall'.
  { eapply Forall_impl; [done|]. intros s (q & x & y & tl' & Hq & Hdq).
    exists q, x, y, tl'. split; [done|].
    destruct (decide (q = p)) as [->|Hne].
    - by apply list_lookup_insert_eq.
    - by rewrite list_lookup_insert_ne. }
  destruct save; [|by split].
  rewrite app_assoc. split.
  - apply NoDup_app. split; [done|]. split; [|apply NoDup_singleton].
    intros s Hs Hin. apply list_elem_of_singleton in Hin as ->.
    eapply Forall_forall in Hall as (q & x & y & tl' & Hq & Hdq); [|done].
    assert (q = p) as -> by (by eapply Hdist).
    congruence.
  - apply Forall_app. split; [done|]. constructor; [|constructor].
    exists p, x1, y1, tl. split; [done|]. by apply list_lookup_insert_eq.
Qed.

Section HoughFresh.

Variable Uniform : nat → nat → nat.

Lemma Hough_iter_fresh coords0 thr gap range save count st st' :
  distinct_hits coords0 →
  Hough_iter Uniform thr gap range save count st = Ok st' →
  only_cleared coords0 (data st) →
  fresh_members coords0 (data st) (concat (outhit_idx st)) →
  fresh_members coords0 (data st') (concat (outhit_idx st')).
Proof.
  intros Hdist H Hoc Hf. unfold Hough_iter in H.
  bind_inv H as pt Hpt.
  destruct (empty pt); [by injection H as <-|].
  bind_inv H as [x y] Hxy. bind_inv H as vs Hvs.
  destruct (v_max_val vs <? thr).
  { bind_inv H as coords' Hc. by injection H as <-. }
  bind_inv H as w0 Hw0. bind_inv H as w1 Hw1.
  bind_inv H as [deaccu2 accu2] Hun.
  pose proof (walk_spec _ _ _ _ _ _ _ _ _ Hw0) as (_ & Hd0 & _).
  cbn [w_data] in Hd0.
  apply (walk_fresh coords0 _ _ _ _ _ _ _ _ _ (concat (outhit_idx st)) Hdist)
    in Hw0; cbn [w_data w_lines_idx]; [|done|by rewrite app_nil_r].
  apply (walk_fresh coords0 _ _ _ _ _ _ _ _ _ (concat (outhit_idx st)) Hdist)
    in Hw1; cbn [w_data w_lines_idx];
    [|exact (only_cleared_trans _ _ _ Hoc Hd0)|done].
  destruct (w_endpoint w0) as [[[x0_end y0_end] wire0_end] idx0_end].
  destruct (w_endpoint w1) as [[[x1_end y1_end] wire1_end] idx1_end].
  destruct (_ || _); injection H as <-; cbn [outhit_idx data].
  { by eapply fresh_members_prefix. }
  destruct save; [|by eapply fresh_members_prefix].
  rewrite concat_app. cbn [concat]. by rewrite app_nil_r.
Qed.

Lemma Hough_loop_fresh coords0 thr gap range save count st st' :
  distinct_hits coords0 →
  Hough_loop Uniform thr gap range save count st = Ok st' →
  only_cleared coords0 (data st) →
  fresh_members coords0 (data st) (concat (outhit_idx st)) →
  fresh_members coords0 (data st') (concat (outhit_idx st')).
Proof.
  intros Hdist. revert st.
  induction count as [|c IH]; intros st H Hoc Hf; cbn [Hough_loop] in H.
  - by injection H as <-.
  - bind_inv H as st1 H1.
    pose proof (Hough_iter_spec _ _ _ _ _ _ _ _ H1) as (_ & Hd & _).
    eapply IH; [done| |].
    + exact (only_cleared_trans _ _ _ Hoc Hd).
    + by eapply Hough_iter_fresh.
Qed.

End HoughFresh.

Lemma sublist_concat {A} (l1 l2 : list (list A)) :
  l1 `sublist_of` l2 → concat l1 `sublist_of` concat l2.
Proof.
  induction 1 as [|x l1 l2 _ IH|x l1 l2 _ IH]; cbn [concat].
  - constructor.
  - by apply sublist_app.
  - by apply sublist_inserts_l.
Qed.

Lemma filter_loop_sublist minl muonl save ol oh n k out out' :
  filter_loop minl muonl save ol oh (seq k n) out = Ok out' →
  ∃ newh, out'.2 = out.2 ++ newh ∧ newh `sublist_of` drop k oh.
Proof.
  revert k out. induction n as [|n IH]; intros k out H;
    cbn [seq filter_loop] in H.
  { injection H as <-. exists []. rewrite app_nil_r. split; [done|].
    apply sublist_nil_l. }
  bind_inv H as out1 H1. apply filter_step_spec in H1.
  apply IH in H as (newh & E & Hsub).
  assert (drop (S k) oh `sublist_of` drop k oh) as Hdrop.
  { replace (S k) with (k + 1)%nat by lia. rewrite <- drop_drop.
    apply sublist_drop. }
  destruct H1 as [-> | (li & Hli & Hk & El & Eh)].
  { exists newh. split; [done|]. by etrans. }
  destruct save.
  - destruct Eh as (hi & Hhi & Eh). rewrite Eh, <- app_assoc in E.
    exists (hi :: newh). split; [done|].
    rewrite (drop_S _ _ _ Hhi). by constructor.
  - rewrite Eh in E. exists newh. split; [done|]. by etrans.
Qed.

(** The member lists a call of [Hough] appends share no hit. *)
Lemma Hough_members_NoDup Uniform coords0 thr gap range minl muonl
    save lines hit_idx lines' hit_idx' :
  distinct_hits coords0 →
  Hough Uniform coords0 [thr; gap; range; minl; muonl] save lines hit_idx
  = Ok (lines', hit_idx') →
  ∃ newh, hit_idx' = hit_idx ++ newh ∧ NoDup (concat newh).
Proof.
  intros Hdist H. unfold Hough in H. cbn [at_ lookup list_lookup] in H.
  rewrite !res_bind_Ok in H. bind_inv H as st Hst.
  bind_inv H as [ol oh] Hm.
  apply filter_loop_sublist in H as (newh & E & Hsub). cbn in E.
  exists newh. split; [done|].
  apply (Hough_loop_fresh Uniform coords0 _ _ _ _ _ _ _ Hdist) in Hst
    as [Hnd _]; [|apply only_cleared_refl|split; constructor].
  unfold merge_pass in Hm. cbn [fst] in Hm.
  pose proof (merge_i_members _ _ _ _ _ _ _ Hm) as [Hperm _].
  rewrite drop_0 in Hsub. apply sublist_concat in Hsub.
  eapply sublist_NoDup; [|done]. by rewrite Hperm.
Qed.

(** X20.  On a bucket whose points carry distinct hit indices, no hit
    is recorded twice by a call of [Hough]: the member lists it appends
    are pairwise disjoint and free of repetitions, also after the merge
    pass has joined the members of similar lines. *)
Theorem Hough_members_disjoint Uniform coords0 thr gap range minl muonl
    save lines hit_idx lines' hit_idx' :
  distinct_hits coords0 →
  Hough Uniform coords0 [thr; gap; range; minl; muonl] save lines hit_idx
  = Ok (lines', hit_idx') →
  ∃ newh, hit_idx' = hit_idx ++ newh ∧ NoDup (concat newh).
Proof. apply Hough_members_NoDup. Qed.

Lemma Hough_members_disjoint_witness :
  ∃ newh, [[5; 3]] = [] ++ newh ∧ NoDup (concat newh).
Proof.
  apply (Hough_members_disjoint Uniform_010
           [[100; 100; 3]; [123; 1418; 4]; [146; 2736; 5]]
           2 30 100 500 2500 true [] []
           [[146; 2736; 100; 100; 5; 3; 2; 0; 871; 179]] [[5; 3]]).
  - intros [|[|[|p]]] [|[|[|q]]] x y s tl x' y' tl' Hp Hq;
      simpl in Hp, Hq; try discriminate; try done;
      injection Hp as <- <- <- <-; by injection Hq.
  - vm_compute. reflexivity.
Defined.

Lemma select_lower p i hits :
  Forall (λ pt, ∃ x y j, pt = [x; y; Z.of_nat j] ∧ (i ≤ j)%nat)
    (select p i hits).
Proof.
  revert i. induction hits as [|hit hits IH]; intros i; [constructor|].
  rewrite select_cons.
  assert (Forall (λ pt, ∃ x y j, pt = [x; y; Z.of_nat j] ∧ (i ≤ j)%nat)
            (select p (S i) hits)) as Htl.
  { eapply Forall_impl; [apply IH|]. intros pt (x & y & j & -> & Hj).
    exists x, y, j. split; [done|lia]. }
  destruct (p (i, hit)); [|done].
  constructor; [|done]. by eexists _, _, i.
Qed.

Lemma select_distinct p i hits : distinct_hits (select p i hits).
Proof.
  revert i. induction hits as [|hit hits IH]; intros i.
  { intros q1 q2 x y s tl x' y' tl' H1. done. }
  rewrite select_cons. destruct (p (i, hit)); [|apply IH].
  pose proof (select_lower p (S i) hits) as Hlow.
  intros [|q1] [|q2] x y s tl x' y' tl' H1 H2; cbn in H1, H2.
  - done.
  - injection H1 as <- <- <- <-.
    eapply Forall_lookup_1 in Hlow as (x0 & y0 & j & E & Hj); [|done].
    injection E as _ _ E _. lia.
  - injection H2 as <- <- <- <-.
    eapply Forall_lookup_1 in Hlow as (x0 & y0 & j & E & Hj); [|done].
    injection E as _ _ E _. lia.
  - f_equal. by eapply IH.
Qed.

(** X21.  Whenever [produce] returns, no hit is a member of two primary
    lines of the same bucket: the member lists [hit_idx_02] are pairwise
    disjoint and free of repetitions, and so are the member lists
    [hit_idx_12]. *)
Theorem produce_primary_members_disjoint Uniform WireIDsIntersect
    WireEndPoints atan2 cfg evt_hits f out :
  produce Uniform WireIDsIntersect WireEndPoints atan2 cfg evt_hits
  = Ok (f, out) →
  NoDup (concat (hit_idx_02 f)) ∧ NoDup (concat (hit_idx_12 f)).
Proof.
  unfold produce. rewrite fill_collection_select. cbn [app].
  cbv beta iota zeta. intros H.
  set (hits := match evt_hits with Some l => l | None => [] end) in *.
  bind_inv H as [l02 hi02] H02. bind_inv H as [l12 hi12] H12.
  assert (NoDup (concat hi02) ∧ NoDup (concat hi12)) as Hnd.
  { split.
    - apply Hough_members_NoDup in H02 as (newh & -> & Hnd);
        [done|apply select_distinct].
    - apply Hough_members_NoDup in H12 as (newh & -> & Hnd);
        [done|apply select_distinct]. }
  destruct (_ || _) in H; [|by injection H as <- _].
  bind_inv H as [[[[l00 l01] l02'] ie] ep] Hb0.
  bind_inv H as [[[l10 l11] l12'] ep'] Hb1.
  bind_inv H as c Hc.
  by injection H as <- _.
Qed.

Lemma produce_primary_members_disjoint_witness :
  NoDup (concat (hit_idx_02 crossing_fields))
  ∧ NoDup (concat (hit_idx_12 crossing_fields)).
Proof.
  apply (produce_primary_members_disjoint Uniform_010 intersect_all
           wire_ends_0 atan2_0 cfg_2 (Some crossing_hits) crossing_fields
           crossing_products).
  vm_compute. reflexivity.
Defined.

(** ** Primary lines and muon candidates after [produce] *)

Lemma matcher_step_count st st' :
  matcher_step st st' →
  Forall nondegenerate (e_muon_endpoints st) →
  length (e_lines_col st') = length (e_lines_col st)
  ∧ (length (e_muon_endpoints st') + live_lines (e_lines_col st')
     = length (e_muon_endpoints st) + live_lines (e_lines_col st))%nat
  ∧ Forall nondegenerate (e_muon_endpoints st').
Proof.
  intros (L & _ & new & -> & F & K) F0. split; [done|].
  rewrite length_app. split; [lia|]. by apply Forall_app.
Qed.

Lemma live_lines_all (ol : list (list Z)) :
  Forall (λ l, l ≠ []) ol → live_lines ol = length ol.
Proof.
  unfold live_lines. induction 1 as [|l ol Hl _ IH]; [done|].
  rewrite filter_cons_True by done. cbn. by rewrite IH.
Qed.

Lemma Hough_lines_live Uniform coords0 thr gap range minl muonl save hit_idx
    lines' hit_idx' :
  Hough Uniform coords0 [thr; gap; range; minl; muonl] save [] hit_idx
  = Ok (lines', hit_idx') →
  live_lines lines' = length lines'.
Proof.
  intros H. apply Hough_output in H as (new & newh & -> & _ & Hn & _).
  cbn [app]. apply live_lines_all.
  eapply Forall_impl; [done|]. intros l (L & _) ->. discriminate.
Qed.

(** Projections of the fields and of the matcher's vectors. *)
Ltac fields_cbn :=
  cbn [muon_endpoints lines_02 lines_12 e_muon_endpoints e_muon_hitpeakT
       e_muon_hit_idx e_lines_col length Nat.add].

Ltac fields_cbn_in H1 H2 :=
  cbn [muon_endpoints lines_02 lines_12 e_muon_endpoints e_muon_hitpeakT
       e_muon_hit_idx e_lines_col length Nat.add] in H1, H2.

Section Primary.

Variable Uniform : nat → nat → nat.
Variable WireIDsIntersect : WireID_t → WireID_t → Point_t → bool * Point_t.
Variable WireEndPoints : WireID_t → (Q * Q * Q) * (Q * Q * Q).
Variable atan2 : Q → Q → Q.

Lemma produce_primary_lines cfg evt_hits f out :
  produce Uniform WireIDsIntersect WireEndPoints atan2 cfg evt_hits
  = Ok (f, out) →
  (length (muon_endpoints f) + live_lines (lines_02 f)
   + live_lines (lines_12 f)
   = length (lines_02 f) + length (lines_12 f))%nat
  ∧ Forall nondegenerate (muon_endpoints f).
Proof.
  unfold produce. intros H.
  replace (match evt_hits with Some l => l | None => [] end)
    with (default [] evt_hits) in H by (by destruct evt_hits).
  destruct (fill_collection (default [] evt_hits) 0 ([], []))
    as [h02 h12] eqn:Hfill.
  cbv zeta in H.
  bind_inv H as [l02 hi02] H02. bind_inv H as [l12 hi12] H12.
  apply Hough_lines_live in H02, H12.
  destruct (_ || _) in H.
  2:{ injection H as <- <-. fields_cbn.
      split; [lia|constructor]. }
  bind_inv H as [[[[l00 l01] l02'] ie] ep] Hb0.
  bind_inv H as [[[l10 l11] l12'] ep'] Hb1.
  bind_inv H as c Hc.
  injection H as <- <-. fields_cbn.
  assert (length l02' = length l02
          ∧ (length (e_muon_endpoints ep) + live_lines l02'
             = length l02)%nat
          ∧ Forall nondegenerate (e_muon_endpoints ep)
          ∧ length (e_muon_endpoints ep) = length (e_muon_hitpeakT ep))
    as (L0 & K0 & F0 & S0).
  { destruct (negb (empty l02)).
    2:{ injection Hb0 as <- <- <- <- <-. fields_cbn.
        repeat split; [lia|constructor]. }
    bind_inv Hb0 as [l0 ie1] H0. bind_inv Hb0 as [l1 ie2] H1.
    bind_inv Hb0 as e1 E1. bind_inv Hb0 as e2 E2.
    injection Hb0 as <- <- <- <- <-.
    pose proof (FindEndpoints_records _ _ _ _ _ _ _ _ E1) as R1.
    pose proof (FindEndpoints_records _ _ _ _ _ _ _ _ E2) as R2.
    apply FindEndpoints_step, matcher_step_count in E1
      as (L1 & K1 & F1); [|constructor].
    apply FindEndpoints_step, matcher_step_count in E2
      as (L2 & K2 & F2); [|done].
    fields_cbn_in L1 K1.
    destruct (records_in_step _ _ _ R2 (records_in_step _ _ _ R1
                (conj eq_refl eq_refl))) as [S _].
    repeat split; [congruence|lia|done|done]. }
  assert (length l12' = length l12
          ∧ (length (e_muon_endpoints ep') + live_lines l12'
             = length (e_muon_endpoints ep) + length l12)%nat
          ∧ Forall nondegenerate (e_muon_endpoints ep')
          ∧ length (e_muon_endpoints ep') = length (e_muon_hitpeakT ep'))
    as (L1 & K1 & F1 & S1).
  { destruct (negb (empty l12)).
    2:{ injection Hb1 as <- <- <- <-. repeat split; [lia|done|done]. }
    bind_inv Hb1 as [l0 ie1] H0. bind_inv Hb1 as [l1 ie2] H1.
    bind_inv Hb1 as e1 E1. bind_inv Hb1 as e2 E2.
    injection Hb1 as <- <- <- <-.
    pose proof (FindEndpoints_records _ _ _ _ _ _ _ _ E1) as R1.
    pose proof (FindEndpoints_records _ _ _ _ _ _ _ _ E2) as R2.
    apply FindEndpoints_step, matcher_step_count in E1
      as (L1 & K1 & F1); [|done].
    apply FindEndpoints_step, matcher_step_count in E2
      as (L2 & K2 & F2); [|done].
    fields_cbn_in L1 K1.
    assert (length (e_muon_endpoints e1) = length (e_muon_hitpeakT e1)
            ∧ length (e_muon_hit_idx e1) = length (e_muon_hitpeakT e1))
      as S.
    { apply (records_in_step _ _ _ R1). fields_cbn.
      split; [done|].
      destruct (negb (empty l02)).
      - bind_inv Hb0 as [l0' ie1'] H0'. bind_inv Hb0 as [l1' ie2'] H1'.
        bind_inv Hb0 as e1' E1'. bind_inv Hb0 as e2' E2'.
        injection Hb0 as _ _ _ _ <-.
        apply FindEndpoints_records in E1', E2'.
        by destruct (records_in_step _ _ _ E2' (records_in_step _ _ _ E1'
                       (conj eq_refl eq_refl))).
      - by injection Hb0 as _ _ _ _ <-. }
    destruct (records_in_step _ _ _ R2 S) as [S' _].
    repeat split; [congruence|lia|done|done]. }
  apply classify_and_assemble_Ok in Hc as (-> & _); [|done].
  split; [lia|done].
Qed.

End Primary.

(** X22.  Whenever [produce] returns, every primary line it found is
    either matched into exactly one muon candidate and cleared in
    [lines_02] or [lines_12], or left as it is: the number of candidates
    in [muon_endpoints] equals the number of cleared entries of [lines_02]
    and [lines_12] together.  Every candidate has two endpoints of nonzero
    squared magnitude. *)
Theorem produce_one_candidate_per_cleared_line Uniform WireIDsIntersect
    WireEndPoints atan2 cfg evt_hits f out :
  produce Uniform WireIDsIntersect WireEndPoints atan2 cfg evt_hits
  = Ok (f, out) →
  (length (muon_endpoints f) + live_lines (lines_02 f)
   + live_lines (lines_12 f)
   = length (lines_02 f) + length (lines_12 f))%nat
  ∧ Forall nondegenerate (muon_endpoints f).
Proof. apply produce_primary_lines. Qed.

Lemma produce_one_candidate_per_cleared_line_witness :
  (length (muon_endpoints crossing_fields)
   + live_lines (lines_02 crossing_fields)
   + live_lines (lines_12 crossing_fields)
   = length (lines_02 crossing_fields)
     + length (lines_12 crossing_fields))%nat
  ∧ Forall nondegenerate (muon_endpoints crossing_fields).
Proof.
  apply (produce_one_candidate_per_cleared_line Uniform_010 intersect_all
           wire_ends_0 atan2_0 cfg_2 (Some crossing_hits) crossing_fields
           crossing_products).
  vm_compute. reflexivity.
Defined.

(** ** Distance: the float test of the length filter *)

Lemma round_bits_small p n : n < 2 ^ p → round_bits p n = n.
Proof. intros H. unfold round_bits. by rewrite (proj2 (Z.ltb_lt _ _) H). Qed.

(** Rounding does not cross a number that fits. *)
Lemma round_bits_le p n k :
  0 < p → 0 <= n <= k → fits p k → round_bits p n <= k.
Proof.
  intros Hp [Hn Hnk] Hk. unfold round_bits.
  destruct (Z.ltb_spec n (2 ^ p)) as [|Hge]; [done|].
  assert (0 < 2 ^ p) by (apply Z.pow_pos_nonneg; lia).
  destruct Hk as [Hk|Hk]; [lia|].
  assert (p <= Z.log2 n) as Hl by (apply Z.log2_le_pow2; lia).
  pose proof (Z.log2_le_mono n k Hnk) as Hlk.
  set (e := Z.log2 n - p + 1) in *.
  assert (1 <= e) as He by (unfold e; lia).
  assert (0 < 2 ^ e) as H2e by (apply Z.pow_pos_nonneg; lia).
  assert (0 < 2 ^ (e - 1)) as Hhalf by (apply Z.pow_pos_nonneg; lia).
  assert ((2 ^ e | k)) as [c Hc].
  { etrans; [|exact Hk].
    exists (2 ^ (Z.log2 k - p + 1 - e)).
    rewrite <- Z.pow_add_r by (unfold e; lia). f_equal. lia. }
  pose proof (Z.div_mod n (2 ^ e) ltac:(lia)) as Hdm.
  pose proof (Z.mod_pos_bound n (2 ^ e) H2e) as Hr.
  cbv zeta.
  destruct ((n mod 2 ^ e <? 2 ^ (e - 1))
            || ((n mod 2 ^ e =? 2 ^ (e - 1)) && Z.even (n / 2 ^ e))) eqn:E.
  - nia.
  - apply orb_false_iff in E as [E _]. apply Z.ltb_ge in E.
    assert (n / 2 ^ e < c) by nia. nia.
Qed.

Lemma sqrt_double_le s m :
  0 <= s <= m * m → 0 <= m < 2 ^ 53 → sqrt_double s <= m * 2 ^ 53.
Proof.
  intros [Hs Hsm] [Hm Hm53]. unfold sqrt_double.
  destruct (Z.leb_spec s 0) as [|Hpos]; [lia|].
  assert (1 <= m) as Hm1 by nia.
  set (n := s * 2 ^ 106). set (q0 := Z.sqrt n).
  assert (2 ^ 106 <= n) as Hn by (unfold n; lia).
  assert (n <= (m * 2 ^ 53) * (m * 2 ^ 53)) as Hnm.
  { unfold n. replace (2 ^ 106) with (2 ^ 53 * 2 ^ 53) by reflexivity. nia. }
  assert (2 ^ 53 <= q0) as Hq0.
  { unfold q0. apply Z.sqrt_le_square; [lia|lia|].
    replace (2 ^ 53 * 2 ^ 53) with (2 ^ 106) by reflexivity. lia. }
  assert (q0 <= m * 2 ^ 53) as Hq0m.
  { unfold q0. rewrite <- (Z.sqrt_square (m * 2 ^ 53)) by lia.
    by apply Z.sqrt_le_mono. }
  assert (53 <= Z.log2 q0) as Hl by (apply Z.log2_le_pow2; lia).
  assert (Z.log2 q0 <= 105) as Hu.
  { etrans; [apply Z.log2_le_mono, Hq0m|].
    rewrite Z.log2_mul_pow2 by lia.
    assert (Z.log2 m < 53) by (apply Z.log2_lt_pow2; lia). lia. }
  set (e := Z.log2 q0 - 52) in *.
  assert (1 <= e <= 53) as He by (unfold e; lia).
  assert (0 < 2 ^ e) as H2e by (apply Z.pow_pos_nonneg; lia).
  assert (0 < 2 ^ (e - 1)) as Hhalf by (apply Z.pow_pos_nonneg; lia).
  assert (m * 2 ^ 53 = (m * 2 ^ (53 - e)) * 2 ^ e) as Hc.
  { rewrite <- Z.mul_assoc, <- Z.pow_add_r by lia. do 2 f_equal. lia. }
  pose proof (Z.div_mod q0 (2 ^ e) ltac:(lia)) as Hdm.
  pose proof (Z.mod_pos_bound q0 (2 ^ e) H2e) as Hr.
  assert (0 <= q0 / 2 ^ e) as Hq by (apply Z.div_pos; lia).
  cbv zeta.
  set (q := q0 / 2 ^ e) in *. set (mid := q * 2 ^ e + 2 ^ (e - 1)).
  destruct ((n <? mid * mid) || ((n =? mid * mid) && Z.even q)) eqn:E.
  - nia.
  - apply orb_false_iff in E as [E _]. apply Z.ltb_ge in E.
    assert (mid <= m * 2 ^ 53) as Hmid.
    { apply Z.square_le_simpl_nonneg; [lia|]. lia. }
    assert (q < m * 2 ^ (53 - e)) by (unfold mid in Hmid; nia). nia.
Qed.

Lemma sqrt_double_nonneg s : 0 <= sqrt_double s.
Proof.
  unfold sqrt_double. destruct (s <=? 0); [done|]. cbv zeta.
  assert (0 <= Z.sqrt (s * 2 ^ 106) / 2 ^ (Z.log2 (Z.sqrt (s * 2 ^ 106)) - 52))
    by (apply Z_div_nonneg_nonneg; [apply Z.sqrt_nonneg|apply Z.pow_nonneg; lia]).
  assert (0 <= 2 ^ (Z.log2 (Z.sqrt (s * 2 ^ 106)) - 52))
    by (apply Z.pow_nonneg; lia).
  case_match; nia.
Qed.

Lemma fits_float_int m : 0 <= m < 2 ^ 24 → fits 24 (m * 2 ^ 53).
Proof.
  intros [Hm Hm24]. destruct (decide (m = 0)) as [->|Hne]; [by left|right].
  rewrite Z.log2_mul_pow2 by lia.
  assert (Z.log2 m < 24) by (apply Z.log2_lt_pow2; lia).
  pose proof (Z.log2_nonneg m).
  exists (m * 2 ^ (23 - Z.log2 m)).
  rewrite <- Z.mul_assoc, <- Z.pow_add_r by lia. do 2 f_equal. lia.
Qed.

(** X23.  For a minimal length that a [float] holds exactly
    (0 <= min_length < 2^24), the test [Distance(...) > min_length] of
    line 467 passes only for lines that are longer than [min_length]:
    rounding the square root to [double] and to [float] never carries it
    across [min_length], so the squared length exceeds the square of
    [min_length]. *)
Theorem Distance_test_implies_longer x1 y1 x2 y2 min_length :
  0 <= min_length < 2 ^ 24 →
  Distance_gt x1 y1 x2 y2 min_length = true →
  min_length * min_length
  < (x2 - x1) * (x2 - x1) + (y2 - y1) * (y2 - y1).
Proof.
  intros [Hm Hm24] H. set (m := min_length) in *. apply Z.nle_gt. intros Hle.
  unfold Distance_gt in H. apply negb_true_iff in H.
  assert (Qle_bool (Distance x1 y1 x2 y2) (inject_Z (to_float m)) = true)
    as Hc; [|congruence].
  apply Qle_bool_iff. unfold Qle, Distance. cbn [Qnum Qden inject_Z].
  assert (to_float m = m) as ->.
  { unfold to_float. rewrite Z.abs_eq, round_bits_small by lia.
    destruct m; cbn; lia. }
  set (dx := (x2 - x1) * (x2 - x1)) in *.
  set (dy := (y2 - y1) * (y2 - y1)) in *.
  assert (0 <= dx) by apply Z.square_nonneg.
  assert (0 <= dy) by apply Z.square_nonneg.
  assert (m * m < 2 ^ 48).
  { replace (2 ^ 48) with (2 ^ 24 * 2 ^ 24) by reflexivity. nia. }
  assert (2 ^ 48 < 2 ^ 53) by reflexivity.
  unfold pow2_double. fold dx dy.
  rewrite (round_bits_small 53 dx), (round_bits_small 53 dy),
    (round_bits_small 53 (dx + dy)) by lia.
  rewrite Z.mul_1_r.
  change (Z.pos (2 ^ 53)) with (2 ^ 53).
  apply round_bits_le; [lia| |by apply fits_float_int].
  split; [apply sqrt_double_nonneg|apply sqrt_double_le; lia].
Qed.

Lemma Distance_test_implies_longer_witness :
  500 * 500 < (3 - 3) * (3 - 3) + (601 - 100) * (601 - 100).
Proof.
  apply (Distance_test_implies_longer 3 100 3 601 500).
  - split; [lia|reflexivity].
  - vm_compute. reflexivity.
Defined.

(** The converse fails from length 4096 on, where two neighbouring
    [float] values are more than [1 / (2 * 4096)] apart: a line of squared
    length [4097^2 + 1] is longer than 4097, and its [float] length is
    4097. *)
Lemma Distance_test_drops_longer :
  4097 * 4097 < (1 - 0) * (1 - 0) + (4097 - 0) * (4097 - 0)
  ∧ Distance_gt 0 0 1 4097 4097 = false
  ∧ (Distance 0 0 1 4097 == 4097)%Q.
Proof. repeat split; vm_compute; reflexivity. Qed.
